(** * Actuator control and sensor integration: a shallow embedding

    This development embeds [docs/examples/cpp/actuator_sensor_control.cpp]
    (sensors, actuator, per-joint PID controller, sensor fusion, the
    safety monitor and the humanoid controller with its control loop) and
    proves the properties its specification states, and further
    properties the code shows.

    Modelling conventions.
    - A C++ [double] is a binary64 float: Rocq's primitive [float], whose
      operations are the IEEE-754 ones (round to nearest even).  A decimal
      literal denotes the nearest binary64 value, as in C++.
    - [sin], [cos], [atan2] and the two clocks are not part of the program;
      they are the fields of a [Platform] the program runs on.
    - The mutable state outside the objects themselves (the static noise
      counter of [Sensor::addNoise] and the progress of time) is the
      [World], threaded through a state monad [M].
    - The program is driven by one thread; the mutexes guard nothing the
      sequential semantics can observe and are left out, as is the text
      written to [std::cout], except for the two reports of the control
      loop that carry data, which are kept as the values they show.
    - The control loop need not end: it is run for a bounded number of
      iterations, and the [outcome] tells whether it has returned by then.
    - [abs] is called unqualified, and the overloads for [double] live in
      [std]: the call is one of the C function [int abs(int)].  Its
      argument is converted to [int], which discards the fraction, and the
      [int] that comes back is converted to [double] again.
    - Where a property is about the number a float stands for (the norm of
      a quaternion, half of a torque), floats are read as real numbers
      through [B2R], and the operations are related to the exact ones by
      the IEEE-754 specification of the standard library ([SpecFloat]). *)

From Stdlib Require Import ZArith Floats Uint63 Lia Bool Reals Lra.
From stdpp Require Import base option list gmap strings.

#[local] Set Warnings "-inexact-float".
#[local] Open Scope float_scope.

(** ** The platform and the world *)

Record Platform := {
  sin : float -> float;
  cos : float -> float;
  atan2 : float -> float -> float;
  (** what the k-th query of a clock returns: seconds since the epoch for
      [high_resolution_clock], a tick count for [steady_clock] *)
  high_resolution_clock : nat -> float;
  steady_clock : nat -> Z
}.

Record World := {
  noise_counter : Z;   (* static int noise_counter in Sensor::addNoise *)
  clock_queries : nat  (* how many times a clock has been read so far *)
}.

Definition M (A : Type) : Type := World -> A * World.

#[global] Instance M_ret : MRet M := fun A (a : A) w => (a, w).
#[global] Instance M_bind : MBind M :=
  fun A B (f : A -> M B) (m : M A) w => let '(a, w') := m w in f a w'.

(** [int] is a 32-bit two's complement integer; an [int] converted to
    [double] is exact. *)
Definition wrap_int (z : Z) : Z := ((z + 2 ^ 31) mod 2 ^ 32 - 2 ^ 31)%Z.

Definition double_of_int (z : Z) : float :=
  match z with
  | Z0 => 0
  | Zpos _ => PrimFloat.of_uint63 (Uint63.of_Z z)
  | Zneg _ => - PrimFloat.of_uint63 (Uint63.of_Z (- z))
  end.

(** A [double] converted to [int]: the fraction is discarded.  Where the
    result does not fit an [int], and for NaN and the infinities, C++
    leaves the conversion undefined; the conversion instruction of x86-64
    then gives [INT_MIN], and that is the value taken here. *)
Definition INT_MIN : Z := (- 2 ^ 31)%Z.

Definition int_of_double (x : float) : Z :=
  match Prim2SF x with
  | S754_zero _ => 0%Z
  | S754_finite s m e =>
      let magnitude := Z.shiftl (Zpos m) e in
      let z := if s then (- magnitude)%Z else magnitude in
      if ((INT_MIN <=? z) && (z <? 2 ^ 31))%Z then z else INT_MIN
  | S754_infinity _ | S754_nan => INT_MIN
  end.

(** [int abs(int)] of the C library.  [abs(INT_MIN)] overflows, which C
    leaves undefined as well; the machine's negation wraps around and
    gives [INT_MIN]. *)
Definition abs (j : Z) : Z := wrap_int (Z.abs j).

(** [std::clamp(v, lo, hi)]: [lo] if [v < lo], [hi] if [hi < v], else [v]. *)
Definition clamp (v lo hi : float) : float :=
  if v <? lo then lo else if hi <? v then hi else v.

Definition M_PI : float := 0x1.921fb54442d18p+1.

Module Utils.
Section WithPlatform.
Context (P : Platform).

Definition get_time : M float := fun w =>
  (high_resolution_clock P (clock_queries w),
   {| noise_counter := noise_counter w; clock_queries := S (clock_queries w) |}).

(** [std::chrono::steady_clock::now()] *)
Definition steady_now : M Z := fun w =>
  (steady_clock P (clock_queries w),
   {| noise_counter := noise_counter w; clock_queries := S (clock_queries w) |}).

(** Sleeping changes no state of the program. *)
Definition sleep_for (seconds : float) : M unit := mret tt.

End WithPlatform.
End Utils.

(** ** Sensor readings *)

Record JointState := {
  position : float;
  velocity : float;
  torque : float;
  temperature : float;
  timestamp : Z
}.

Definition JointState_new (P : Platform) : M JointState :=
  now ← Utils.steady_now P;
  mret {| position := 0.0; velocity := 0.0; torque := 0.0;
          temperature := 25.0; timestamp := now |}.

Record ImuData := {
  orientation : list float;          (* double[4], quaternion x y z w *)
  angular_velocity : list float;     (* double[3] *)
  linear_acceleration : list float;  (* double[3] *)
  imu_timestamp : Z
}.

Definition ImuData_new (P : Platform) : M ImuData :=
  now ← Utils.steady_now P;
  mret {| orientation := [0; 0; 0; 1];
          angular_velocity := [0; 0; 0];
          linear_acceleration := [0; 0; 9.81];
          imu_timestamp := now |}.

(** Reading an array element; every index the program uses is in range. *)
Definition at_ (a : list float) (i : nat) : float := nth i a 0.

(** ** Sensors *)

Module Sensor.
Record t := {
  name_ : string;
  noise_level_ : float;
  is_connected_ : bool
}.

Definition new (name : string) (noise_level : float) : t :=
  {| name_ := name; noise_level_ := noise_level; is_connected_ := true |}.

Definition isConnected (s : t) : bool := is_connected_ s.
Definition getName (s : t) : string := name_ s.

Section WithPlatform.
Context (P : Platform).

Definition addNoise (s : t) (value : float) : M float := fun w =>
  if noise_level_ s <=? 0 then (value, w)
  else
    let noise_counter' := wrap_int (noise_counter w + 1) in
    (value + noise_level_ s * sin P (double_of_int noise_counter' * 0.1),
     {| noise_counter := noise_counter'; clock_queries := clock_queries w |}).

End WithPlatform.
End Sensor.

Module JointSensor.
Record t := {
  base : Sensor.t;
  state_ : JointState
}.

Definition getState (s : t) : JointState := state_ s.
Definition setState (s : t) (state : JointState) : t :=
  {| base := base s; state_ := state |}.
Definition isConnected (s : t) : bool := Sensor.isConnected (base s).
Definition getName (s : t) : string := Sensor.getName (base s).

Section WithPlatform.
Context (P : Platform).

Definition new (name : string) (noise_level : float) : M t :=
  st ← JointState_new P;
  mret {| base := Sensor.new name noise_level; state_ := st |}.

Definition read (s : t) : M t :=
  let st := state_ s in
  t1 ← Utils.get_time P;
  position' ← Sensor.addNoise P (base s) (position st + 0.01 * sin P t1);
  t2 ← Utils.get_time P;
  velocity' ← Sensor.addNoise P (base s) (velocity st + 0.001 * cos P t2);
  t3 ← Utils.get_time P;
  torque' ← Sensor.addNoise P (base s) (torque st + 0.05 * sin P (t3 * 2));
  temperature' ← Sensor.addNoise P (base s)
                   (temperature st
                    + 0.0001 * double_of_int (abs (int_of_double torque')));
  now ← Utils.steady_now P;
  mret {| base := base s;
          state_ := {| position := position'; velocity := velocity';
                       torque := torque'; temperature := temperature';
                       timestamp := now |} |}.

End WithPlatform.
End JointSensor.

(** ** Actuator *)

Module Actuator.
Record t := {
  name_ : string;
  current_torque_ : float;
  max_torque_ : float;
  gear_ratio_ : float;
  efficiency_ : float
}.

Definition new (name : string) (max_torque gear_ratio : float) : t :=
  {| name_ := name; current_torque_ := 0.0; max_torque_ := max_torque;
     gear_ratio_ := gear_ratio; efficiency_ := 0.9 |}.

Definition setTorque (a : t) (torque : float) : M (bool * t) :=
  let torque := clamp torque (- max_torque_ a) (max_torque_ a) in
  let a := {| name_ := name_ a; current_torque_ := torque;
              max_torque_ := max_torque_ a; gear_ratio_ := gear_ratio_ a;
              efficiency_ := efficiency_ a |} in
  _ ← Utils.sleep_for 0.001;
  mret (true, a).

Definition getTorque (a : t) : float := current_torque_ a.
Definition getName (a : t) : string := name_ a.
Definition getMaxTorque (a : t) : float := max_torque_ a.
End Actuator.

Module ImuSensor.
Record t := {
  base : Sensor.t;
  data_ : ImuData
}.

Definition getData (s : t) : ImuData := data_ s.
Definition isConnected (s : t) : bool := Sensor.isConnected (base s).
Definition getName (s : t) : string := Sensor.getName (base s).

(** The loop [for (i = 0; i < 4; i++) orientation[i] /= norm]. *)
Definition divide_all (o : list float) (norm : float) : list float :=
  foldl (fun o i => <[i := at_ o i / norm]> o) o (seq 0 4).

Section WithPlatform.
Context (P : Platform).

Definition new (name : string) (noise_level : float) : M t :=
  d ← ImuData_new P;
  mret {| base := Sensor.new name noise_level; data_ := d |}.

Definition read (s : t) : M t :=
  let d := data_ s in
  t1 ← Utils.get_time P;
  w0 ← Sensor.addNoise P (base s) (0.1 * sin P t1);
  t2 ← Utils.get_time P;
  w1 ← Sensor.addNoise P (base s) (0.05 * sin P (t2 * 1.5));
  t3 ← Utils.get_time P;
  a2 ← Sensor.addNoise P (base s) (9.81 + 0.1 * cos P (t3 * 0.5));
  let angular_velocity' := <[1%nat := w1]> (<[0%nat := w0]> (angular_velocity d)) in
  let linear_acceleration' := <[2%nat := a2]> (linear_acceleration d) in
  let dt := 0.01 in
  let o := orientation d in
  let o := <[0%nat := at_ o 0 + at_ angular_velocity' 0 * dt * 0.5]> o in
  let o := <[1%nat := at_ o 1 + at_ angular_velocity' 1 * dt * 0.5]> o in
  let norm := PrimFloat.sqrt (at_ o 0 * at_ o 0 + at_ o 1 * at_ o 1
                    + at_ o 2 * at_ o 2 + at_ o 3 * at_ o 3) in
  let o := if 0 <? norm then divide_all o norm else o in
  now ← Utils.steady_now P;
  mret {| base := base s;
          data_ := {| orientation := o;
                      angular_velocity := angular_velocity';
                      linear_acceleration := linear_acceleration';
                      imu_timestamp := now |} |}.

End WithPlatform.
End ImuSensor.

(** ** Joint controller *)

Module JointController.
Record t := {
  name_ : string;
  actuator_ : Actuator.t;
  position_sensor_ : JointSensor.t;
  torque_sensor_ : JointSensor.t;
  target_position_ : float;
  target_velocity_ : float;
  kp_ : float;
  ki_ : float;
  kd_ : float;
  error_sum_ : float;
  last_error_ : float;
  min_position_ : float;
  max_position_ : float;
  max_temperature_ : float;
  max_velocity_ : float;
  enabled_ : bool
}.

Definition set_enabled (c : t) (b : bool) : t :=
  {| name_ := name_ c; actuator_ := actuator_ c;
     position_sensor_ := position_sensor_ c;
     torque_sensor_ := torque_sensor_ c;
     target_position_ := target_position_ c;
     target_velocity_ := target_velocity_ c;
     kp_ := kp_ c; ki_ := ki_ c; kd_ := kd_ c;
     error_sum_ := error_sum_ c; last_error_ := last_error_ c;
     min_position_ := min_position_ c; max_position_ := max_position_ c;
     max_temperature_ := max_temperature_ c;
     max_velocity_ := max_velocity_ c; enabled_ := b |}.

Definition set_target_position (c : t) (p : float) : t :=
  {| name_ := name_ c; actuator_ := actuator_ c;
     position_sensor_ := position_sensor_ c;
     torque_sensor_ := torque_sensor_ c;
     target_position_ := p;
     target_velocity_ := target_velocity_ c;
     kp_ := kp_ c; ki_ := ki_ c; kd_ := kd_ c;
     error_sum_ := error_sum_ c; last_error_ := last_error_ c;
     min_position_ := min_position_ c; max_position_ := max_position_ c;
     max_temperature_ := max_temperature_ c;
     max_velocity_ := max_velocity_ c; enabled_ := enabled_ c |}.

(** What one control step writes: the actuator, the position sensor and
    the two error terms. *)
Definition set_step (c : t) (a : Actuator.t) (s : JointSensor.t)
    (error_sum last_error : float) : t :=
  {| name_ := name_ c; actuator_ := a;
     position_sensor_ := s;
     torque_sensor_ := torque_sensor_ c;
     target_position_ := target_position_ c;
     target_velocity_ := target_velocity_ c;
     kp_ := kp_ c; ki_ := ki_ c; kd_ := kd_ c;
     error_sum_ := error_sum; last_error_ := last_error;
     min_position_ := min_position_ c; max_position_ := max_position_ c;
     max_temperature_ := max_temperature_ c;
     max_velocity_ := max_velocity_ c; enabled_ := enabled_ c |}.

Definition initialize (c : t) : bool * t := (true, set_enabled c true).

Definition setTargetPosition (c : t) (position : float) : t :=
  set_target_position c (clamp position (min_position_ c) (max_position_ c)).

Definition getState (c : t) : JointState :=
  JointSensor.getState (position_sensor_ c).

Definition getName (c : t) : string := name_ c.
Definition isEnabled (c : t) : bool := enabled_ c.

Definition isSafe (c : t) : bool :=
  let state := getState c in
  (temperature state <? max_temperature_ c)
  && (double_of_int (abs (int_of_double (velocity state)))
      <? max_velocity_ c)
  && (double_of_int (abs (int_of_double (position state)))
      <=? max_position_ c)
  && (min_position_ c
      <=? double_of_int (abs (int_of_double (position state)))).

Section WithPlatform.
Context (P : Platform).

Definition new (name : string) : M t :=
  position_sensor ← JointSensor.new P (name +:+ "_pos") 0.001;
  torque_sensor ← JointSensor.new P (name +:+ "_torque") 0.01;
  mret {| name_ := name;
          actuator_ := Actuator.new (name +:+ "_actuator") 50.0 100.0;
          position_sensor_ := position_sensor;
          torque_sensor_ := torque_sensor;
          target_position_ := 0.0; target_velocity_ := 0.0;
          kp_ := 100.0; ki_ := 10.0; kd_ := 5.0;
          error_sum_ := 0.0; last_error_ := 0.0;
          min_position_ := - M_PI; max_position_ := M_PI;
          max_temperature_ := 70.0; max_velocity_ := 5.0;
          enabled_ := false |}.

Definition update (c : t) (dt : float) : M t :=
  if negb (enabled_ c) then mret c
  else
    (* Read sensors *)
    position_sensor ← JointSensor.read P (position_sensor_ c);
    let state := JointSensor.getState position_sensor in
    (* Compute control error *)
    let error := target_position_ c - position state in
    let error_sum := error_sum_ c + error * dt in
    let error_derivative := (error - last_error_ c) / dt in
    (* Compute PID control output *)
    let torque_command :=
      kp_ c * error + ki_ c * error_sum + kd_ c * error_derivative in
    (* Apply velocity limiting *)
    let torque_command :=
      if max_velocity_ c
         <? double_of_int (abs (int_of_double (velocity state)))
      then 0
      else torque_command in
    (* Apply temperature-based limiting *)
    let torque_command :=
      if max_temperature_ c * 0.9 <? temperature state
      then torque_command * 0.5
      else torque_command in
    (* Send command to actuator *)
    r ← Actuator.setTorque (actuator_ c) torque_command;
    (* Update sensor state with new torque *)
    let state := {| position := position state;
                    velocity := velocity state;
                    torque := torque_command;
                    temperature := temperature state;
                    timestamp := timestamp state |} in
    mret (set_step c r.2 (JointSensor.setState position_sensor state)
                   error_sum error).

End WithPlatform.
End JointController.

(** ** Sensor fusion *)

(** [s.find(pat)]: the first position at which [pat] occurs in [s], [None]
    for [std::string::npos]. *)
Fixpoint find_from (pat s : string) (pos : nat) : option nat :=
  if String.prefix pat s then Some pos
  else match s with
       | EmptyString => None
       | String _ s' => find_from pat s' (S pos)
       end.

Definition find (s pat : string) : option nat := find_from pat s 0.

Module SensorFusion.
Record t := {
  joint_states_ : gmap string JointState;
  imu_data_ : gmap string ImuData;
  balance_estimate_ : float;
  confidence_ : float
}.

Definition new : t :=
  {| joint_states_ := ∅; imu_data_ := ∅;
     balance_estimate_ := 0.0; confidence_ := 1.0 |}.

Definition getBalanceEstimate (f : t) : float := balance_estimate_ f.
Definition getJointStates (f : t) : gmap string JointState := joint_states_ f.

Definition set_balance_estimate (f : t) (e : float) : t :=
  {| joint_states_ := joint_states_ f; imu_data_ := imu_data_ f;
     balance_estimate_ := e; confidence_ := confidence_ f |}.

Definition updateBalanceEstimate (f : t) (joint_position : float) : t :=
  let new_estimate := joint_position in
  set_balance_estimate f (0.7 * balance_estimate_ f + 0.3 * new_estimate).

(** [m[key]] of a [std::map], as far as the map goes: a key the map does
    not hold is inserted first, with a default-constructed value. *)
Definition subscript {A : Type} (default : M A) (m : gmap string A)
    (key : string) : M (gmap string A) :=
  match m !! key with
  | Some _ => mret m
  | None => d ← default; mret (<[key := d]> m)
  end.

Section WithPlatform.
Context (P : Platform).

Definition updateJointState (f : t) (joint_name : string)
    (state : JointState) : M t :=
  joint_states ← subscript (JointState_new P) (joint_states_ f) joint_name;
  let f := {| joint_states_ := <[joint_name := state]> joint_states;
              imu_data_ := imu_data_ f;
              balance_estimate_ := balance_estimate_ f;
              confidence_ := confidence_ f |} in
  mret (if find joint_name "hip" is Some _
        then updateBalanceEstimate f (position state)
        else f).

Definition updateBalanceEstimateFromImu (f : t) (orientation : list float)
    : t :=
  let roll :=
    atan2 P
      (2.0 * (at_ orientation 3 * at_ orientation 0
              + at_ orientation 1 * at_ orientation 2))
      (1.0 - 2.0 * (at_ orientation 0 * at_ orientation 0
                    + at_ orientation 1 * at_ orientation 1)) in
  set_balance_estimate f (0.8 * balance_estimate_ f + 0.2 * roll).

Definition updateImuData (f : t) (sensor_name : string) (data : ImuData)
    : M t :=
  imu_data ← subscript (ImuData_new P) (imu_data_ f) sensor_name;
  let f := {| joint_states_ := joint_states_ f;
              imu_data_ := <[sensor_name := data]> imu_data;
              balance_estimate_ := balance_estimate_ f;
              confidence_ := confidence_ f |} in
  mret (updateBalanceEstimateFromImu f (orientation data)).

End WithPlatform.
End SensorFusion.

(** ** Safety monitor *)

(** The monitor holds pointers to controllers and sensors that other code
    owns and mutates.  A pointer is an address; the [Store] maps the
    addresses in use to the objects they hold at a given moment.
    Dereferencing an address the store does not hold has no defined
    behaviour: the operation yields [None]. *)
Definition ptr := nat.

Record Store := {
  controllers : gmap nat JointController.t;
  joint_sensors : gmap nat JointSensor.t;
  imu_sensors : gmap nat ImuSensor.t
}.

Module SafetyMonitor.
Record t := {
  controllers_ : list ptr;
  joint_sensors_ : list ptr;
  imu_sensors_ : list ptr;
  emergency_stop_active_ : bool
}.

Definition new : t :=
  {| controllers_ := []; joint_sensors_ := []; imu_sensors_ := [];
     emergency_stop_active_ := false |}.

Definition addController (m : t) (controller : ptr) : t :=
  {| controllers_ := controllers_ m ++ [controller];
     joint_sensors_ := joint_sensors_ m;
     imu_sensors_ := imu_sensors_ m;
     emergency_stop_active_ := emergency_stop_active_ m |}.

Definition addJointSensor (m : t) (sensor : ptr) : t :=
  {| controllers_ := controllers_ m;
     joint_sensors_ := joint_sensors_ m ++ [sensor];
     imu_sensors_ := imu_sensors_ m;
     emergency_stop_active_ := emergency_stop_active_ m |}.

Definition addImuSensor (m : t) (sensor : ptr) : t :=
  {| controllers_ := controllers_ m;
     joint_sensors_ := joint_sensors_ m;
     imu_sensors_ := imu_sensors_ m ++ [sensor];
     emergency_stop_active_ := emergency_stop_active_ m |}.

Definition set_emergency_stop_active (m : t) (b : bool) : t :=
  {| controllers_ := controllers_ m;
     joint_sensors_ := joint_sensors_ m;
     imu_sensors_ := imu_sensors_ m;
     emergency_stop_active_ := b |}.

(** The three loops of [checkSafety]: each walks its pointers in order
    and stops at the first object that fails its test, which it returns. *)
Fixpoint first_unsafe (h : Store) (ps : list ptr) : option (option ptr) :=
  match ps with
  | [] => Some None
  | p :: ps =>
      controller ← controllers h !! p;
      if negb (JointController.isSafe controller) then Some (Some p)
      else first_unsafe h ps
  end.

Fixpoint first_disconnected_joint (h : Store) (ps : list ptr)
    : option (option ptr) :=
  match ps with
  | [] => Some None
  | p :: ps =>
      sensor ← joint_sensors h !! p;
      if negb (JointSensor.isConnected sensor) then Some (Some p)
      else first_disconnected_joint h ps
  end.

Fixpoint first_disconnected_imu (h : Store) (ps : list ptr)
    : option (option ptr) :=
  match ps with
  | [] => Some None
  | p :: ps =>
      sensor ← imu_sensors h !! p;
      if negb (ImuSensor.isConnected sensor) then Some (Some p)
      else first_disconnected_imu h ps
  end.

Definition checkSafety (m : t) (h : Store) : option (bool * t) :=
  (* Check if emergency stop is active *)
  if emergency_stop_active_ m then Some (false, m)
  else
    (* Check joint controllers *)
    u ← first_unsafe h (controllers_ m);
    if u is Some _ then Some (false, set_emergency_stop_active m true)
    else
      (* Check sensors *)
      d ← first_disconnected_joint h (joint_sensors_ m);
      if d is Some _ then Some (false, m)
      else
        d ← first_disconnected_imu h (imu_sensors_ m);
        if d is Some _ then Some (false, m)
        else Some (true, m).

Definition isEmergencyStopActive (m : t) : bool := emergency_stop_active_ m.

Definition triggerEmergencyStop (m : t) : t :=
  set_emergency_stop_active m true.

(** The public operations of the monitor and a run of them.  A
    [CheckSafety] carries the store as it is when the call is made. *)
Inductive op :=
| AddController (controller : ptr)
| AddJointSensor (sensor : ptr)
| AddImuSensor (sensor : ptr)
| CheckSafety (h : Store)
| IsEmergencyStopActive
| TriggerEmergencyStop.

(** What an operation returns: nothing, or a [bool]. *)
Definition step (m : t) (o : op) : option (option bool * t) :=
  match o with
  | AddController p => Some (None, addController m p)
  | AddJointSensor p => Some (None, addJointSensor m p)
  | AddImuSensor p => Some (None, addImuSensor m p)
  | CheckSafety h => r ← checkSafety m h; Some (Some r.1, r.2)
  | IsEmergencyStopActive => Some (Some (isEmergencyStopActive m), m)
  | TriggerEmergencyStop => Some (None, triggerEmergencyStop m)
  end.

(** The results of the calls of a run, in order, and the final monitor. *)
Fixpoint run (m : t) (os : list op) : option (list (option bool) * t) :=
  match os with
  | [] => Some ([], m)
  | o :: os =>
      r ← step m o;
      rs ← run r.2 os;
      Some (r.1 :: rs.1, rs.2)
  end.
End SafetyMonitor.

(** ** The humanoid controller *)

(** What a call is found to have done when the iterations of its loop are
    counted up to a bound: it has returned, it has used an object that is
    not there (an index out of range, a dangling pointer), or it is still
    in its loop when the bound is reached. *)
Inductive outcome (A : Type) : Type :=
| Returned (a : A)
| Undefined
| Running.

Arguments Returned {A} a.
Arguments Undefined {A}.
Arguments Running {A}.

Module HumanoidController.
Record t := {
  joint_controllers_ : list JointController.t;
  joint_sensors_ : list JointSensor.t;
  imu_sensors_ : list ImuSensor.t;
  sensor_fusion_ : SensorFusion.t;
  safety_monitor_ : SafetyMonitor.t;
  control_frequency_ : float;
  is_running_ : bool
}.

(** The safety monitor points into the three vectors: the address of an
    element is its index, and the store the monitor reads is the vectors
    as they are when it reads them. *)
Definition store (r : t) : Store :=
  {| controllers := map_seq 0 (joint_controllers_ r);
     joint_sensors := map_seq 0 (joint_sensors_ r);
     imu_sensors := map_seq 0 (imu_sensors_ r) |}.

Definition set_joint_controllers (r : t) (cs : list JointController.t) : t :=
  {| joint_controllers_ := cs; joint_sensors_ := joint_sensors_ r;
     imu_sensors_ := imu_sensors_ r; sensor_fusion_ := sensor_fusion_ r;
     safety_monitor_ := safety_monitor_ r;
     control_frequency_ := control_frequency_ r;
     is_running_ := is_running_ r |}.

Definition set_safety_monitor (r : t) (m : SafetyMonitor.t) : t :=
  {| joint_controllers_ := joint_controllers_ r;
     joint_sensors_ := joint_sensors_ r;
     imu_sensors_ := imu_sensors_ r; sensor_fusion_ := sensor_fusion_ r;
     safety_monitor_ := m;
     control_frequency_ := control_frequency_ r;
     is_running_ := is_running_ r |}.

Definition set_is_running (r : t) (b : bool) : t :=
  {| joint_controllers_ := joint_controllers_ r;
     joint_sensors_ := joint_sensors_ r;
     imu_sensors_ := imu_sensors_ r; sensor_fusion_ := sensor_fusion_ r;
     safety_monitor_ := safety_monitor_ r;
     control_frequency_ := control_frequency_ r;
     is_running_ := b |}.

Definition joint_names : list string :=
  ["left_hip"; "left_knee"; "left_ankle";
   "right_hip"; "right_knee"; "right_ankle"].

(** [for (auto& x : xs) safety_monitor_.add(&x)] *)
Definition register_all {A : Type}
    (add : SafetyMonitor.t -> ptr -> SafetyMonitor.t) (xs : list A)
    (m : SafetyMonitor.t) : SafetyMonitor.t :=
  foldl add m (seq 0 (length xs)).

(** The loop of [initialize]: it stops at the first controller that fails
    to initialize. *)
Fixpoint initialize_all (cs : list JointController.t)
    : bool * list JointController.t :=
  match cs with
  | [] => (true, [])
  | c :: cs =>
      let '(ok, c) := JointController.initialize c in
      if negb ok then (false, c :: cs)
      else let '(ok, cs) := initialize_all cs in (ok, c :: cs)
  end.

Definition initialize (r : t) : bool * t :=
  let '(ok, cs) := initialize_all (joint_controllers_ r) in
  (ok, set_joint_controllers r cs).

Definition stop (r : t) : t := set_is_running r false.

(** Of what [run] prints, the two reports that carry data are kept, as the
    values they show: the status line and the warning of a late cycle. *)
Inductive report :=
| Status (time left_hip_position right_hip_position balance : float)
    (is_safe : bool)
| TooLong (elapsed_time : float).

(** The robot and the locals of [run] that live across iterations. *)
Record run_state := {
  robot : t;
  last_time : Z;
  printed : list report
}.

Section WithPlatform.
Context (P : Platform).
(** The length in seconds, as a [double], of a number of ticks of the
    steady clock; how long a tick is, is the implementation's choice. *)
Context (seconds : Z -> float).

(** The first loop of the constructor. *)
Fixpoint emplace_joints (names : list string)
    (cs : list JointController.t) (ss : list JointSensor.t)
    : M (list JointController.t * list JointSensor.t) :=
  match names with
  | [] => mret (cs, ss)
  | name :: names =>
      c ← JointController.new P name;
      s ← JointSensor.new P (name +:+ "_pos_sensor") 0.01;
      emplace_joints names (cs ++ [c]) (ss ++ [s])
  end.

Definition new (frequency : float) : M t :=
  '(cs, ss) ← emplace_joints joint_names [] [];
  (* Add IMU sensors *)
  torso ← ImuSensor.new P "torso_imu" 0.001;
  head ← ImuSensor.new P "head_imu" 0.001;
  let imus := [torso; head] in
  (* Register with safety monitor *)
  let m := SafetyMonitor.new in
  let m := register_all SafetyMonitor.addController cs m in
  let m := register_all SafetyMonitor.addJointSensor ss m in
  let m := register_all SafetyMonitor.addImuSensor imus m in
  mret {| joint_controllers_ := cs; joint_sensors_ := ss;
          imu_sensors_ := imus; sensor_fusion_ := SensorFusion.new;
          safety_monitor_ := m; control_frequency_ := frequency;
          is_running_ := false |}.

(** The loop that feeds the joint states to the sensor fusion: [i] runs
    over the controllers and indexes the joint sensors as well. *)
Fixpoint fuse_joints (cs : list JointController.t) (ss : list JointSensor.t)
    (indices : list nat) (f : SensorFusion.t) : M (option SensorFusion.t) :=
  match indices with
  | [] => mret (Some f)
  | i :: indices =>
      match ss !! i, cs !! i with
      | Some s, Some c =>
          let state := JointSensor.getState s in
          f ← SensorFusion.updateJointState P f (JointController.getName c)
                state;
          fuse_joints cs ss indices f
      | _, _ => mret None
      end
  end.

(** The loop that feeds it the IMU samples. *)
Fixpoint fuse_imus (imus : list ImuSensor.t) (f : SensorFusion.t)
    : M SensorFusion.t :=
  match imus with
  | [] => mret f
  | s :: imus =>
      f ← SensorFusion.updateImuData P f (ImuSensor.getName s)
            (ImuSensor.getData s);
      fuse_imus imus f
  end.

(** The status line, printed when more than a second has gone by since the
    last one: what is printed so far and the time of the last line. *)
Definition print_status (l : run_state) (ss : list JointSensor.t)
    (f : SensorFusion.t) (is_safe : bool) (current_time : Z)
    : option (Z * list report) :=
  let elapsed := seconds (current_time - last_time l) in
  if 1.0 <? elapsed then
    left_hip ← ss !! 0%nat;
    right_hip ← ss !! 3%nat;
    let balance := SensorFusion.getBalanceEstimate f in
    Some (current_time,
          printed l ++ [Status (seconds current_time)
                          (position (JointSensor.getState left_hip))
                          (position (JointSensor.getState right_hip))
                          balance is_safe])
  else Some (last_time l, printed l).

(** The body of the control loop. *)
Definition iteration (dt : float) (l : run_state) : M (option run_state) :=
  let r := robot l in
  start_time ← Utils.steady_now P;
  (* Update all sensors *)
  joint_sensors ← mapM (JointSensor.read P) (joint_sensors_ r);
  imu_sensors ← mapM (ImuSensor.read P) (imu_sensors_ r);
  (* Update sensor fusion *)
  fusion ← fuse_joints (joint_controllers_ r) joint_sensors
             (seq 0 (length (joint_controllers_ r))) (sensor_fusion_ r);
  match fusion with
  | None => mret None
  | Some fusion =>
      fusion ← fuse_imus imu_sensors fusion;
      (* Update controllers *)
      joint_controllers ←
        mapM (fun c => JointController.update P c dt) (joint_controllers_ r);
      let r := {| joint_controllers_ := joint_controllers;
                  joint_sensors_ := joint_sensors;
                  imu_sensors_ := imu_sensors;
                  sensor_fusion_ := fusion;
                  safety_monitor_ := safety_monitor_ r;
                  control_frequency_ := control_frequency_ r;
                  is_running_ := is_running_ r |} in
      (* Check safety *)
      match SafetyMonitor.checkSafety (safety_monitor_ r) (store r) with
      | None => mret None
      | Some (is_safe, monitor) =>
          let r := set_safety_monitor r monitor in
          (* Print status periodically *)
          current_time ← Utils.steady_now P;
          match print_status l joint_sensors fusion is_safe current_time with
          | None => mret None
          | Some (last_time, printed) =>
              (* Control timing *)
              end_time ← Utils.steady_now P;
              let elapsed_time := seconds (end_time - start_time) in
              if elapsed_time <? dt then
                _ ← Utils.sleep_for (dt - elapsed_time);
                mret (Some {| robot := r; last_time := last_time;
                              printed := printed |})
              else
                mret (Some {| robot := r; last_time := last_time;
                              printed := printed ++ [TooLong elapsed_time] |})
          end
      end
  end.

(** The control loop, cut off after [fuel] iterations. *)
Fixpoint loop (fuel : nat) (dt : float) (l : run_state)
    : M (outcome run_state) :=
  if is_running_ (robot l)
     && negb (SafetyMonitor.isEmergencyStopActive (safety_monitor_ (robot l)))
  then
    match fuel with
    | O => mret Running
    | S fuel =>
        l ← iteration dt l;
        match l with
        | None => mret Undefined
        | Some l => loop fuel dt l
        end
    end
  else mret (Returned l).

(** [run]: the robot it leaves and what it has printed. *)
Definition run (fuel : nat) (r : t) : M (outcome (t * list report)) :=
  let '(ok, r) := initialize r in
  if negb ok then mret (Returned (r, []))
  else
    let r := set_is_running r true in
    let dt := 1.0 / control_frequency_ r in
    last_time ← Utils.steady_now P;
    o ← loop fuel dt {| robot := r; last_time := last_time; printed := [] |};
    mret match o with
         | Returned l => Returned (robot l, printed l)
         | Undefined => Undefined
         | Running => Running
         end.

(** [main]: the controller is built at 200 Hz and run; nothing in the
    program throws, and [main] returns 0 once [run] has returned. *)
Definition main (fuel : nat) : M (outcome Z) :=
  robot_controller ← new 200.0;
  o ← run fuel robot_controller;
  mret match o with
       | Returned _ => Returned 0%Z
       | Undefined => Undefined
       | Running => Running
       end.

End WithPlatform.
End HumanoidController.

(** ** Vocabulary of the properties *)

(** The joint state a call of [update] measures: what its position sensor
    holds once [update] has read it. *)
Definition measured (P : Platform) (c : JointController.t) (w : World)
    : JointState :=
  JointSensor.getState (JointSensor.read P (JointController.position_sensor_ c) w).1.

(** [commands a a' tau]: the actuator [a'] is the actuator [a] after the
    call [setTorque(tau)]. *)
Definition commands (a a' : Actuator.t) (tau : float) : Prop :=
  forall w, Actuator.setTorque a tau w = ((true, a'), w).

(** [within lo hi x]: [lo <= x <= hi]. *)
Definition within (lo hi x : float) : bool := (lo <=? x) && (x <=? hi).

(** The values that are not finite numbers: NaN and the two infinities. *)
Definition SFnonfinite (x : spec_float) : bool :=
  match x with
  | S754_nan | S754_infinity _ => true
  | S754_zero _ | S754_finite _ _ _ => false
  end.

(** A platform on which the simulated signals are flat, and a world at its
    start. *)
Definition still : Platform :=
  {| sin := fun _ => 0; cos := fun _ => 0; atan2 := fun _ _ => 0;
     high_resolution_clock := fun k => PrimFloat.of_uint63 (Uint63.of_Z (Z.of_nat k));
     steady_clock := fun k => Z.of_nat k |}.

Definition world0 : World := {| noise_counter := 0; clock_queries := 0 |}.

(** The same platform when the orientations it is asked about have a roll
    of 0.1 rad. *)
Definition rolled : Platform :=
  {| sin := sin still; cos := cos still; atan2 := fun _ _ => 0.1;
     high_resolution_clock := high_resolution_clock still;
     steady_clock := steady_clock still |}.

(** The same platform when [sin] is at its maximum. *)
Definition peak : Platform :=
  {| sin := fun _ => 1; cos := cos still; atan2 := atan2 still;
     high_resolution_clock := high_resolution_clock still;
     steady_clock := steady_clock still |}.

(** The roll of an orientation quaternion [x y z w]:
    [atan2(2(w x + y z), 1 - 2(x^2 + y^2))]. *)
Definition roll (P : Platform) (o : list float) : float :=
  atan2 P (2 * (at_ o 3 * at_ o 0 + at_ o 1 * at_ o 2))
          (1 - 2 * (at_ o 0 * at_ o 0 + at_ o 1 * at_ o 1)).

(** A joint name identifies a hip joint when it contains [hip]. *)
Definition names_hip (joint_name : string) : Prop :=
  is_Some (find joint_name "hip").

(** The raw PID output of a control step of length [dt] on a measured joint
    state: [kp * error + ki * integral + kd * derivative], for the error,
    the integral and the derivative of that step. *)
Definition raw_pid_output (c : JointController.t) (state : JointState)
    (dt : float) : float :=
  let error := JointController.target_position_ c - position state in
  let integral := JointController.error_sum_ c + error * dt in
  let derivative := (error - JointController.last_error_ c) / dt in
  JointController.kp_ c * error + JointController.ki_ c * integral
  + JointController.kd_ c * derivative.

(** The test of the velocity interlock, as [update] makes it: [abs] of the
    measured velocity, which is the absolute value of the velocity without
    its fraction, exceeds the controller's limit.  Thermal derating is
    engaged when the measured temperature exceeds nine tenths of its
    limit. *)
Definition interlock_engaged (c : JointController.t) (state : JointState)
    : bool :=
  JointController.max_velocity_ c
  <? double_of_int (abs (int_of_double (velocity state))).

(** The measured velocity exceeds the limit in absolute value. *)
Definition velocity_exceeds_limit (c : JointController.t)
    (state : JointState) : bool :=
  JointController.max_velocity_ c <? PrimFloat.abs (velocity state).

Definition derating_engaged (c : JointController.t) (state : JointState)
    : bool :=
  JointController.max_temperature_ c * 0.9 <? temperature state.

(** The torque command once the interlock and the derating have been
    applied to the raw PID output. *)
Definition limited_command (c : JointController.t) (state : JointState)
    (dt : float) : float :=
  let tau := if interlock_engaged c state then 0
             else raw_pid_output c state dt in
  if derating_engaged c state then tau * 0.5 else tau.

(** What a guard against [dt = 0] would give: the call is rejected, leaving
    the controller as it was, or a usable step is taken in place of 0, so
    that the call acts as [update(dt')] for a positive finite [dt']. *)
Definition zero_dt_guarded (P : Platform) (c : JointController.t) (w : World)
    : Prop :=
  (JointController.update P c 0 w).1 = c
  \/ exists dt', (0 <? dt') = true /\ is_finite dt' = true
       /\ (JointController.update P c 0 w).1 = (JointController.update P c dt' w).1.

(** The objects registered with a monitor, as a store holds them. *)
Definition live (m : SafetyMonitor.t) (h : Store) : Prop :=
  (forall p, p ∈ SafetyMonitor.controllers_ m -> is_Some (controllers h !! p))
  /\ (forall p, p ∈ SafetyMonitor.joint_sensors_ m -> is_Some (joint_sensors h !! p))
  /\ (forall p, p ∈ SafetyMonitor.imu_sensors_ m -> is_Some (imu_sensors h !! p)).

Definition some_controller_unsafe (m : SafetyMonitor.t) (h : Store) : Prop :=
  exists p c, p ∈ SafetyMonitor.controllers_ m /\ controllers h !! p = Some c
              /\ JointController.isSafe c = false.

Definition all_controllers_safe (m : SafetyMonitor.t) (h : Store) : Prop :=
  forall p c, p ∈ SafetyMonitor.controllers_ m -> controllers h !! p = Some c ->
              JointController.isSafe c = true.

Definition some_sensor_disconnected (m : SafetyMonitor.t) (h : Store) : Prop :=
  (exists p s, p ∈ SafetyMonitor.joint_sensors_ m /\ joint_sensors h !! p = Some s
               /\ JointSensor.isConnected s = false)
  \/ (exists p s, p ∈ SafetyMonitor.imu_sensors_ m /\ imu_sensors h !! p = Some s
                  /\ ImuSensor.isConnected s = false).

Definition all_sensors_connected (m : SafetyMonitor.t) (h : Store) : Prop :=
  (forall p s, p ∈ SafetyMonitor.joint_sensors_ m -> joint_sensors h !! p = Some s ->
               JointSensor.isConnected s = true)
  /\ (forall p s, p ∈ SafetyMonitor.imu_sensors_ m -> imu_sensors h !! p = Some s ->
                  ImuSensor.isConnected s = true).

(** ** Sample objects *)

(** A controller as its constructor and [initialize] leave it. *)
Definition fresh_controller (name : string) : JointController.t :=
  (JointController.initialize (JointController.new still name world0).1).2.

(** The same controller once its joint has reached a given state. *)
Definition controller_at (c : JointController.t) (state : JointState)
    : JointController.t :=
  JointController.set_step c (JointController.actuator_ c)
    (JointSensor.setState (JointController.position_sensor_ c) state)
    (JointController.error_sum_ c) (JointController.last_error_ c).

Definition overheated : JointState :=
  {| position := 0; velocity := 0; torque := 0; temperature := 80;
     timestamp := 0 |}.

Definition fresh_joint_sensor (name : string) : JointSensor.t :=
  (JointSensor.new still name 0.01 world0).1.

Definition fresh_imu_sensor (name : string) : ImuSensor.t :=
  (ImuSensor.new still name 0.001 world0).1.

(** A joint sensor whose [isConnected] answers [false]. *)
Definition unplugged (s : JointSensor.t) : JointSensor.t :=
  {| JointSensor.base :=
       {| Sensor.name_ := Sensor.name_ (JointSensor.base s);
          Sensor.noise_level_ := Sensor.noise_level_ (JointSensor.base s);
          Sensor.is_connected_ := false |};
     JointSensor.state_ := JointSensor.state_ s |}.

(** A controller told to go to 1 rad while its joint is still at 0, and
    joint states at which the interlock and the derating both engage, at
    which the velocity is beyond the limit by a fraction, and at which the
    derating engages alone. *)
Definition hip_to_one : JointController.t :=
  JointController.setTargetPosition (fresh_controller "left_hip") 1.0.

Definition fast_and_hot : JointState :=
  {| position := 0; velocity := 6; torque := 0; temperature := 80;
     timestamp := 0 |}.

Definition brisk : JointState :=
  {| position := 0; velocity := 5.5; torque := 0; temperature := 25;
     timestamp := 0 |}.

Definition hot : JointState :=
  {| position := 0; velocity := 0; torque := 0; temperature := 65;
     timestamp := 0 |}.

(** A monitor with two controllers, a joint sensor and an IMU registered,
    and three stores for it: all well, the knee overheated, the joint
    sensor unplugged. *)
Definition monitor2 : SafetyMonitor.t :=
  SafetyMonitor.addImuSensor
    (SafetyMonitor.addJointSensor
       (SafetyMonitor.addController
          (SafetyMonitor.addController SafetyMonitor.new 0%nat) 1%nat) 2%nat) 3%nat.

Definition store_ok : Store :=
  {| controllers := {[ 0%nat := fresh_controller "left_hip";
                       1%nat := fresh_controller "left_knee" ]};
     joint_sensors := {[ 2%nat := fresh_joint_sensor "left_hip_pos_sensor" ]};
     imu_sensors := {[ 3%nat := fresh_imu_sensor "torso_imu" ]} |}.

Definition store_overheated : Store :=
  {| controllers :=
       {[ 0%nat := fresh_controller "left_hip";
          1%nat := controller_at (fresh_controller "left_knee") overheated ]};
     joint_sensors := joint_sensors store_ok;
     imu_sensors := imu_sensors store_ok |}.

Definition store_unplugged : Store :=
  {| controllers := controllers store_ok;
     joint_sensors :=
       {[ 2%nat := unplugged (fresh_joint_sensor "left_hip_pos_sensor") ]};
     imu_sensors := imu_sensors store_ok |}.

(** ** Binary64 values as real numbers *)

Definition pow2 (e : Z) : R := powerRZ 2 e.

Definition sign (s : bool) : R := if s then (-1)%R else 1%R.

(** The number a finite value stands for; 0 for the others. *)
Definition SF2R (x : spec_float) : R :=
  match x with
  | S754_finite s m e => (sign s * (IZR (Zpos m) * pow2 e))%R
  | _ => 0%R
  end.

Definition SFfinite (x : spec_float) : bool :=
  match x with
  | S754_zero _ | S754_finite _ _ _ => true
  | _ => false
  end.

Definition B2R (x : float) : R := SF2R (Prim2SF x).

Definition finite (x : float) : Prop := is_finite x = true.

(** A mantissa and an exponent as a value: zero, a finite number, or an
    infinity when the exponent is out of range. *)
Definition pack (sx : bool) (m e : Z) : spec_float :=
  match m with
  | Z0 => S754_zero sx
  | Zpos p => if (e <=? 971)%Z then S754_finite sx p e else S754_infinity sx
  | Zneg _ => S754_nan
  end.

(** The relative and the absolute error of one rounding, and a bound on
    both. *)
Definition eps : R := pow2 (-52).
Definition eta : R := pow2 (-1074).
Definition u : R := (1 / 10 ^ 15)%R.

(** ** The orientation of an IMU *)

(** The two steps [ImuSensor::read] takes on the orientation: the angular
    velocity is integrated into the first two components, and the
    quaternion is divided by its norm. *)
Definition integrate (o angular_velocity : list float) : list float :=
  let o := <[0%nat := at_ o 0 + at_ angular_velocity 0 * 0.01 * 0.5]> o in
  <[1%nat := at_ o 1 + at_ angular_velocity 1 * 0.01 * 0.5]> o.

Definition normalize (o : list float) : list float :=
  let norm := PrimFloat.sqrt (at_ o 0 * at_ o 0 + at_ o 1 * at_ o 1
                              + at_ o 2 * at_ o 2 + at_ o 3 * at_ o 3) in
  if 0 <? norm then ImuSensor.divide_all o norm else o.

(** The sum of the squares of the four components, and the Euclidean norm,
    as real numbers. *)
Definition sum_sq (o : list float) : R :=
  (B2R (at_ o 0) * B2R (at_ o 0) + B2R (at_ o 1) * B2R (at_ o 1)
   + B2R (at_ o 2) * B2R (at_ o 2) + B2R (at_ o 3) * B2R (at_ o 3))%R.

Definition norm (o : list float) : R := R_sqrt.sqrt (sum_sq o).

(** A quaternion of four finite components whose norm is 1 within
    [10^-9]. *)
Definition unit_norm (o : list float) : Prop :=
  length o = 4%nat /\ Forall finite o
  /\ (Rabs (norm o - 1) <= 1 / 10 ^ 9)%R.

Definition unit_quaternion (tol : R) (o : list float) : Prop :=
  length o = 4%nat /\ Forall finite o
  /\ (- tol <= sum_sq o - 1 <= tol)%R.

(** What the proof asks of the platform: on a finite argument [sin] gives
    a finite number between -1 and 1; the clock gives finite times, below
    [2^64] seconds. *)
Definition signals_bounded (P : Platform) : Prop :=
  forall t, finite t ->
    finite (sin P t) /\ (-1 <= B2R (sin P t) <= 1)%R.

Definition clock_bounded (P : Platform) : Prop :=
  forall k, finite (high_resolution_clock P k)
            /\ (Rabs (B2R (high_resolution_clock P k)) <= pow2 64)%R.

(** And of the sensor: a noise level that is a finite number between -1 and
    1. *)
Definition noise_bounded (s : Sensor.t) : Prop :=
  finite (Sensor.noise_level_ s)
  /\ (-1 <= B2R (Sensor.noise_level_ s) <= 1)%R.

Definition rate_bounded (a : float) : Prop :=
  finite a /\ (-1.14 <= B2R a <= 1.14)%R.

(** The states of an IMU sensor: as constructed, or after a call of
    [read], in whatever world the call is made. *)
Inductive reachable (P : Platform) (name : string) (noise_level : float)
    : ImuSensor.t -> Prop :=
| reachable_new (w : World) :
    reachable P name noise_level (ImuSensor.new P name noise_level w).1
| reachable_read (s : ImuSensor.t) (w : World) :
    reachable P name noise_level s ->
    reachable P name noise_level (ImuSensor.read P s w).1.

Definition invariant (s : ImuSensor.t) : Prop :=
  noise_bounded (ImuSensor.base s)
  /\ length (angular_velocity (ImuSensor.data_ s)) = 3%nat
  /\ unit_quaternion (1 / 10 ^ 10) (orientation (ImuSensor.data_ s)).

(** ** Vocabulary of the further properties *)

(** The [double]s on which [abs] is defined: the numbers whose whole part
    lies strictly between [-2^31] and [2^31], so that the conversion to
    [int] and the negation of the result are both defined. *)
Definition in_int_range (x : float) : bool :=
  match Prim2SF x with
  | S754_zero _ => true
  | S754_finite _ m e => (Z.shiftl (Zpos m) e <? 2 ^ 31)%Z
  | S754_infinity _ | S754_nan => false
  end.

(** [pat] occurs in [s] as a substring. *)
Definition contains (s pat : string) : Prop :=
  exists pre post, s = pre +:+ pat +:+ post.

(** IMU data in which the components [read] never writes are 0. *)
Definition planar (d : ImuData) : Prop :=
  (exists x y w, orientation d = [x; y; 0; w])
  /\ (exists a b, angular_velocity d = [a; b; 0])
  /\ (exists c, linear_acceleration d = [0; 0; c]).

(** A robot as the constructor shapes it. *)
Definition assembled (r : HumanoidController.t) : Prop :=
  map JointController.getName (HumanoidController.joint_controllers_ r)
  = HumanoidController.joint_names
  /\ length (HumanoidController.joint_sensors_ r) = 6%nat
  /\ length (HumanoidController.imu_sensors_ r) = 2%nat
  /\ SafetyMonitor.controllers_ (HumanoidController.safety_monitor_ r)
     = seq 0 6
  /\ SafetyMonitor.joint_sensors_ (HumanoidController.safety_monitor_ r)
     = seq 0 6
  /\ SafetyMonitor.imu_sensors_ (HumanoidController.safety_monitor_ r)
     = seq 0 2
  /\ Forall (fun s => JointSensor.isConnected s = true)
       (HumanoidController.joint_sensors_ r)
  /\ Forall (fun s => ImuSensor.isConnected s = true)
       (HumanoidController.imu_sensors_ r).

(** A report that does not announce an emergency. *)
Definition all_clear (rep : HumanoidController.report) : Prop :=
  match rep with
  | HumanoidController.Status _ _ _ _ is_safe => is_safe = true
  | HumanoidController.TooLong _ => True
  end.

(** Whether the emergency stop of a robot is active. *)
Definition emergency (r : HumanoidController.t) : bool :=
  SafetyMonitor.isEmergencyStopActive (HumanoidController.safety_monitor_ r).

(** A platform whose [cos] signal is so strong that the first reading of
    a joint sensor shows a velocity of 6 rad/s. *)
Definition jolt : Platform :=
  {| sin := sin still; cos := fun _ => 6000; atan2 := atan2 still;
     high_resolution_clock := high_resolution_clock still;
     steady_clock := steady_clock still |}.

(** The seconds of a steady clock that ticks in nanoseconds. *)
Definition nanoseconds (ticks : Z) : float :=
  double_of_int ticks / 1e9.

(** A joint at rest at its target, as the constructor leaves it. *)
Definition at_rest (c : JointController.t) : Prop :=
  JointController.target_position_ c = 0
  /\ JointController.error_sum_ c = 0
  /\ JointController.last_error_ c = 0
  /\ JointController.kp_ c = 100
  /\ JointController.ki_ c = 10
  /\ JointController.kd_ c = 5
  /\ JointController.max_velocity_ c = 5
  /\ JointController.max_temperature_ c = 70
  /\ JointController.max_position_ c = M_PI
  /\ JointController.min_position_ c = - M_PI
  /\ Sensor.noise_level_
       (JointSensor.base (JointController.position_sensor_ c)) = 0.001
  /\ position (JointController.getState c) = 0
  /\ velocity (JointController.getState c) = 0
  /\ torque (JointController.getState c) = 0
  /\ temperature (JointController.getState c) = 25.

(** The whole part of the absolute value of a number; 0 for the values
    that are no numbers. *)
Definition whole_part (x : float) : Z :=
  match Prim2SF x with
  | S754_finite _ m e => Z.shiftl (Zpos m) e
  | _ => 0%Z
  end.

(** * Facts about binary64 *)

Module Binary64.

(** ** Comparison *)

Lemma SFcompare_antisym (x y : spec_float) :
  SFcompare y x = option_map CompOpp (SFcompare x y).
Proof.
  destruct x as [sx|sx| |sx mx ex], y as [sy|sy| |sy my ey]; simpl;
    try destruct sx; try destruct sy; try reflexivity;
    rewrite (Z.compare_antisym ey ex);
    pose proof (Pos.compare_cont_antisym mx my Eq) as H; simpl in H;
    destruct (ey ?= ex)%Z; simpl; try reflexivity.
  - now rewrite <- H.
  - now rewrite H.
Qed.

Lemma SFcompare_refl (x : spec_float) :
  x <> S754_nan -> SFcompare x x = Some Eq.
Proof.
  destruct x as [sx|sx| |sx mx ex]; simpl; intros Hx;
    try destruct sx; try reflexivity; try congruence;
    rewrite Z.compare_refl; fold (Pos.compare mx mx);
    now rewrite Pos.compare_refl.
Qed.

Lemma SFcompare_nan (x y : spec_float) :
  x <> S754_nan -> y <> S754_nan -> exists c, SFcompare x y = Some c.
Proof.
  destruct x as [sx|sx| |sx mx ex], y as [sy|sy| |sy my ey]; simpl;
    intros Hx Hy; try congruence; eauto.
Qed.

Lemma is_nan_spec (x : float) :
  is_nan x = false <-> Prim2SF x <> S754_nan.
Proof.
  unfold is_nan. rewrite FloatAxioms.eqb_spec. unfold SFeqb. split.
  - intros H Hn. rewrite Hn in H. discriminate.
  - intros H. now rewrite SFcompare_refl.
Qed.

Lemma leb_refl (x : float) : is_nan x = false -> (x <=? x) = true.
Proof.
  intros H%is_nan_spec. rewrite FloatAxioms.leb_spec. unfold SFleb.
  now rewrite SFcompare_refl.
Qed.

(** Of two numbers, one is below the other. *)
Lemma leb_total (x y : float) :
  is_nan x = false -> is_nan y = false -> (x <? y) = false ->
  (y <=? x) = true.
Proof.
  intros Hx%is_nan_spec Hy%is_nan_spec. rewrite FloatAxioms.ltb_spec, FloatAxioms.leb_spec.
  unfold SFltb, SFleb. rewrite (SFcompare_antisym (Prim2SF x) (Prim2SF y)).
  destruct (SFcompare_nan _ _ Hx Hy) as [c ->]. now destruct c.
Qed.

Lemma ltb_leb (x y : float) : (x <? y) = true -> (x <=? y) = true.
Proof.
  rewrite FloatAxioms.ltb_spec, FloatAxioms.leb_spec. unfold SFltb, SFleb.
  now destruct (SFcompare _ _) as [[]|].
Qed.

Lemma leb_not_ltb (x y : float) : (x <=? y) = true -> (y <? x) = false.
Proof.
  rewrite FloatAxioms.ltb_spec, FloatAxioms.leb_spec. unfold SFltb, SFleb.
  rewrite (SFcompare_antisym (Prim2SF x) (Prim2SF y)).
  now destruct (SFcompare _ _) as [[]|].
Qed.

Lemma leb_is_nan_l (x y : float) : (x <=? y) = true -> is_nan x = false.
Proof.
  rewrite FloatAxioms.leb_spec. unfold SFleb. intros H. apply is_nan_spec.
  intros Hn. rewrite Hn in H. discriminate.
Qed.

Lemma leb_is_nan_r (x y : float) : (x <=? y) = true -> is_nan y = false.
Proof.
  rewrite FloatAxioms.leb_spec. unfold SFleb. intros H. apply is_nan_spec.
  intros Hn. rewrite Hn in H. now destruct (Prim2SF x).
Qed.

Lemma is_nan_opp (x : float) : is_nan (- x) = is_nan x.
Proof.
  destruct (is_nan x) eqn:Hx.
  - apply not_false_iff_true. apply not_false_iff_true in Hx.
    intros H. apply Hx. apply is_nan_spec. apply is_nan_spec in H.
    rewrite FloatAxioms.opp_spec in H. now destruct (Prim2SF x).
  - apply is_nan_spec. apply is_nan_spec in Hx. rewrite FloatAxioms.opp_spec.
    now destruct (Prim2SF x).
Qed.

(** A bound that is not negative lies above its opposite. *)
Lemma opp_leb_self (m : float) : (0 <=? m) = true -> (- m <=? m) = true.
Proof.
  rewrite !FloatAxioms.leb_spec, FloatAxioms.opp_spec. unfold SFleb.
  change (Prim2SF 0) with (S754_zero false).
  destruct (Prim2SF m) as [s|s| |s mx ex]; simpl; try destruct s;
    try reflexivity; try discriminate.
Qed.

(** ** Clamping *)

Lemma clamp_within (v lo hi : float) :
  is_nan v = false -> (lo <=? hi) = true ->
  within lo hi (clamp v lo hi) = true.
Proof.
  intros Hv Hb. unfold within, clamp.
  pose proof (leb_is_nan_l _ _ Hb) as Hlo.
  pose proof (leb_is_nan_r _ _ Hb) as Hhi.
  destruct (v <? lo) eqn:H1.
  - now rewrite leb_refl, Hb.
  - destruct (hi <? v) eqn:H2.
    + now rewrite Hb, leb_refl.
    + now rewrite !leb_total.
Qed.

Lemma clamp_id (v lo hi : float) :
  within lo hi v = true -> clamp v lo hi = v.
Proof.
  unfold within, clamp. intros [H1 H2]%andb_true_iff.
  now rewrite (leb_not_ltb _ _ H1), (leb_not_ltb _ _ H2).
Qed.

(** ** Values that are not finite *)

Lemma is_finite_spec (x : float) :
  is_finite x = negb (SFnonfinite (Prim2SF x)).
Proof.
  unfold is_finite, is_nan, is_infinity.
  rewrite !FloatAxioms.eqb_spec, FloatAxioms.abs_spec.
  change (Prim2SF infinity) with (S754_infinity false). unfold SFeqb.
  destruct (Prim2SF x) as [s|s| |s m e] eqn:Hx; try reflexivity;
    rewrite SFcompare_refl by discriminate; reflexivity.
Qed.

Lemma not_finite_spec (x : float) :
  is_finite x = false <-> SFnonfinite (Prim2SF x) = true.
Proof. rewrite is_finite_spec. now destruct (SFnonfinite _). Qed.

(** Dividing by zero gives NaN or an infinity. *)
Lemma div_zero_not_finite (x : float) : is_finite (x / 0) = false.
Proof.
  apply not_finite_spec. rewrite FloatAxioms.div_spec.
  change (Prim2SF 0) with (S754_zero false).
  now destruct (Prim2SF x).
Qed.

Lemma mul_not_finite_r (x y : float) :
  is_finite y = false -> is_finite (x * y) = false.
Proof.
  rewrite !not_finite_spec, FloatAxioms.mul_spec.
  now destruct (Prim2SF x), (Prim2SF y).
Qed.

Lemma mul_not_finite_l (x y : float) :
  is_finite x = false -> is_finite (x * y) = false.
Proof.
  rewrite !not_finite_spec, FloatAxioms.mul_spec.
  now destruct (Prim2SF x), (Prim2SF y).
Qed.

Lemma add_not_finite_r (x y : float) :
  is_finite y = false -> is_finite (x + y) = false.
Proof.
  rewrite !not_finite_spec, FloatAxioms.add_spec.
  destruct (Prim2SF x) as [s|s| |s m e], (Prim2SF y) as [s'|s'| |s' m' e'];
    try destruct s; try destruct s'; try discriminate; reflexivity.
Qed.

(** ** Zero and a positive finite number *)

Lemma pos_finite_spec (d : float) :
  (0 <? d) = true -> is_finite d = true ->
  exists m e, Prim2SF d = S754_finite false m e.
Proof.
  rewrite FloatAxioms.ltb_spec, is_finite_spec.
  change (Prim2SF 0) with (S754_zero false). unfold SFltb.
  destruct (Prim2SF d) as [s|s| |s m e]; simpl; try discriminate.
  destruct s; [discriminate|eauto].
Qed.

Lemma zero_mul_pos (d : float) :
  (0 <? d) = true -> is_finite d = true -> 0 * d = 0.
Proof.
  intros Hp Hf. destruct (pos_finite_spec d Hp Hf) as (m & e & Hd).
  apply Prim2SF_inj. rewrite FloatAxioms.mul_spec, Hd. reflexivity.
Qed.

Lemma zero_div_pos (d : float) :
  (0 <? d) = true -> is_finite d = true -> 0 / d = 0.
Proof.
  intros Hp Hf. destruct (pos_finite_spec d Hp Hf) as (m & e & Hd).
  apply Prim2SF_inj. rewrite FloatAxioms.div_spec, Hd. reflexivity.
Qed.

End Binary64.

(** * Rounding in binary64

    The operations of [SpecFloat] against the real numbers: each result is
    finite and within [eps * |r| + eta] of the exact result [r], as long as
    [r] is below [2^1000] in magnitude. *)

Module Rounding.
#[local] Open Scope Z_scope.

(** ** Digits *)

Lemma digits2_pos_size (p : positive) : digits2_pos p = Pos.size p.
Proof. induction p; simpl; congruence. Qed.

Lemma digits2_pos_bounds (p : positive) :
  2 ^ (Zpos (digits2_pos p) - 1) <= Zpos p < 2 ^ Zpos (digits2_pos p).
Proof.
  induction p as [p IH|p IH|]; simpl digits2_pos.
  - rewrite Pos2Z.inj_succ. replace (Z.succ (Zpos (digits2_pos p)) - 1)
      with (Z.succ (Zpos (digits2_pos p) - 1)) by lia.
    rewrite !Z.pow_succ_r by lia. lia.
  - rewrite Pos2Z.inj_succ. replace (Z.succ (Zpos (digits2_pos p)) - 1)
      with (Z.succ (Zpos (digits2_pos p) - 1)) by lia.
    rewrite !Z.pow_succ_r by lia. lia.
  - simpl. lia.
Qed.

Lemma Zdigits2_bounds (m : Z) :
  0 < m -> 2 ^ (Zdigits2 m - 1) <= m < 2 ^ Zdigits2 m.
Proof. destruct m; try lia. intros _. apply digits2_pos_bounds. Qed.

Lemma Zdigits2_nonneg (m : Z) : 0 <= Zdigits2 m.
Proof. destruct m; simpl; lia. Qed.

Lemma Zdigits2_pos (m : Z) : 0 < m -> 0 < Zdigits2 m.
Proof. destruct m; simpl; lia. Qed.

Lemma Zdigits2_le (m d : Z) : 0 <= d -> 0 <= m < 2 ^ d -> Zdigits2 m <= d.
Proof.
  intros Hd [H1 H2]. destruct (Z.eq_dec m 0) as [->|]; [simpl; lia|].
  pose proof (Zdigits2_bounds m ltac:(lia)) as [H3 H4].
  destruct (Z_lt_le_dec d (Zdigits2 m)); [|lia].
  assert (2 ^ d <= 2 ^ (Zdigits2 m - 1)) by (apply Z.pow_le_mono_r; lia). lia.
Qed.

Lemma Zdigits2_ge (m d : Z) : 2 ^ (d - 1) <= m -> 0 < m -> d <= Zdigits2 m.
Proof.
  intros H1 Hm. pose proof (Zdigits2_bounds m Hm) as [H3 H4].
  pose proof (Zdigits2_pos m Hm) as H5.
  destruct (Z_lt_le_dec (Zdigits2 m) d); [|lia].
  assert (2 ^ Zdigits2 m <= 2 ^ (d - 1)) by (apply Z.pow_le_mono_r; lia).
  lia.
Qed.

(** ** Shifting right *)

Lemma shr_1_m (mrs : shr_record) :
  0 <= shr_m mrs -> shr_m (shr_1 mrs) = shr_m mrs / 2.
Proof.
  destruct mrs as [m r s]. simpl. intros Hm.
  destruct m as [|[p|p|]|p]; simpl; try reflexivity; try lia.
  - rewrite Pos2Z.inj_xI. apply Z.div_unique with 1; lia.
  - rewrite Pos2Z.inj_xO. apply Z.div_unique with 0; lia.
Qed.

Lemma iter_shr_1_m (p : positive) (mrs : shr_record) :
  0 <= shr_m mrs ->
  shr_m (SpecFloat.iter_pos shr_1 p mrs) = shr_m mrs / 2 ^ Zpos p
  /\ 0 <= shr_m (SpecFloat.iter_pos shr_1 p mrs).
Proof.
  revert mrs. induction p as [p IH|p IH|]; intros mrs Hm; simpl SpecFloat.iter_pos.
  - pose proof (shr_1_m mrs Hm) as H1.
    assert (H1' : 0 <= shr_m (shr_1 mrs)) by (rewrite H1; apply Z.div_pos; lia).
    destruct (IH _ H1') as [H2 H2'].
    destruct (IH _ H2') as [H3 H3']. split; [|exact H3'].
    rewrite H3, H2, H1. rewrite !Z.div_div by lia.
    f_equal. rewrite Pos2Z.inj_xI, Z.pow_add_r, Z.pow_mul_r by lia.
    change (2 ^ 2) with 4. change (2 ^ 1) with 2.
    replace (4 ^ Zpos p) with (2 ^ Zpos p * 2 ^ Zpos p)
      by (rewrite <- Z.pow_add_r by lia; replace (Zpos p + Zpos p) with (2 * Zpos p) by lia; rewrite Z.pow_mul_r by lia; reflexivity).
    lia.
  - destruct (IH _ Hm) as [H2 H2'].
    destruct (IH _ H2') as [H3 H3']. split; [|exact H3'].
    rewrite H3, H2. rewrite !Z.div_div by lia.
    f_equal. rewrite Pos2Z.inj_xO.
    rewrite <- Z.pow_add_r by lia. f_equal. lia.
  - pose proof (shr_1_m mrs Hm) as H1. split.
    + rewrite H1. reflexivity.
    + rewrite H1. apply Z.div_pos; lia.
Qed.

(** ** Rounding to binary64 *)

Abbreviation fexp64 := (SpecFloat.fexp prec emax).

Lemma fexp64_eq (e : Z) : fexp64 e = Z.max (e - 53) (-1074).
Proof. reflexivity. Qed.

Lemma shr_fexp_spec (m e : Z) (l : location) :
  0 <= m ->
  let n := fexp64 (Zdigits2 m + e) - e in
  exists mrs,
    shr_fexp prec emax m e l = (mrs, e + Z.max n 0)
    /\ shr_m mrs = m / 2 ^ Z.max n 0
    /\ (n <= 0 -> loc_of_shr_record mrs = l).
Proof.
  intros Hm n. unfold shr_fexp, shr. fold n.
  assert (Hrec : shr_m (shr_record_of_loc m l) = m) by (now destruct l as [|[]]).
  assert (Hloc : loc_of_shr_record (shr_record_of_loc m l) = l)
    by (now destruct l as [|[]]).
  destruct n as [|p|p] eqn:Hn.
  - eexists. split; [rewrite Z.add_0_r; reflexivity|].
    split; [rewrite Hrec; simpl; now rewrite Z.div_1_r | now intros _].
  - destruct (iter_shr_1_m p (shr_record_of_loc m l)) as [H1 _];
      [rewrite Hrec; lia|].
    eexists. split; [reflexivity|]. rewrite Hrec in H1.
    split; [exact H1 | lia].
  - eexists. split; [rewrite Z.add_0_r; reflexivity|].
    split; [rewrite Hrec; simpl; now rewrite Z.div_1_r | now intros _].
Qed.

Lemma round_nearest_even_cases (m : Z) (l : location) :
  round_nearest_even m l = m \/ round_nearest_even m l = m + 1.
Proof.
  destruct l as [|[]]; simpl; auto. destruct (Z.even m); auto.
Qed.

Lemma binary_round_aux_spec (sx : bool) (mx ex : Z) (lx : location) :
  0 <= mx ->
  let e1 := Z.max ex (fexp64 (Zdigits2 mx + ex)) in
  let m1 := mx / 2 ^ (e1 - ex) in
  exists m2 m3 e3,
    (m2 = m1 \/ m2 = m1 + 1)
    /\ (lx = loc_Exact -> e1 = ex -> m2 = mx)
    /\ m2 = m3 * 2 ^ (e3 - e1)
    /\ e1 <= e3 <= e1 + 1
    /\ 0 <= m3
    /\ binary_round_aux prec emax sx mx ex lx = pack sx m3 e3.
Proof.
  intros Hmx e1 m1.
  pose proof (fexp64_eq (Zdigits2 mx + ex)) as Hf.
  destruct (shr_fexp_spec mx ex lx Hmx) as (mrs & Hs & Hm & Hl).
  set (n := fexp64 (Zdigits2 mx + ex) - ex) in *.
  assert (He1 : ex + Z.max n 0 = e1) by (unfold e1, n; lia).
  assert (Hn : Z.max n 0 = e1 - ex) by lia.
  rewrite He1 in Hs. rewrite Hn in Hm. fold m1 in Hm.
  assert (Hm1 : 0 <= m1 < 2 ^ 53).
  { split; [apply Z.div_pos; [lia|apply Z.pow_pos_nonneg; lia]|].
    destruct (Z.eq_dec mx 0) as [->|Hne].
    { unfold m1. rewrite Z.div_0_l; [lia|]. apply Z.pow_nonzero; lia. }
    pose proof (Zdigits2_bounds mx ltac:(lia)) as [_ Hd].
    pose proof (Zdigits2_pos mx ltac:(lia)) as Hd0.
    apply Z.div_lt_upper_bound; [apply Z.pow_pos_nonneg; lia|].
    rewrite <- Z.pow_add_r by lia.
    eapply Z.lt_le_trans; [exact Hd|]. apply Z.pow_le_mono_r; lia. }
  set (m2 := round_nearest_even (shr_m mrs) (loc_of_shr_record mrs)).
  assert (Hm2 : m2 = m1 \/ m2 = m1 + 1)
    by (unfold m2; rewrite Hm; apply round_nearest_even_cases).
  assert (Hm2' : 0 <= m2 <= 2 ^ 53) by lia.
  destruct (shr_fexp_spec m2 e1 loc_Exact ltac:(lia)) as (mrs' & Hs' & Hm' & _).
  set (n' := fexp64 (Zdigits2 m2 + e1) - e1) in *.
  pose proof (fexp64_eq (Zdigits2 m2 + e1)) as Hf'.
  assert (He : -1074 <= e1) by lia.
  assert (Hcases : (m2 < 2 ^ 53 /\ n' <= 0) \/ (m2 = 2 ^ 53 /\ n' = 1)).
  { destruct (Z_lt_le_dec m2 (2 ^ 53)) as [Hlt|Hge].
    - left. split; [exact Hlt|].
      pose proof (Zdigits2_le m2 53 ltac:(lia) ltac:(lia)). lia.
    - right. assert (m2 = 2 ^ 53) as -> by lia. split; [reflexivity|].
      change (Zdigits2 (2 ^ 53)) with 54 in *. lia. }
  exists m2, (shr_m mrs'), (e1 + Z.max n' 0).
  split; [exact Hm2|]. split.
  { intros -> He1'. unfold m2. rewrite Hl by lia. simpl.
    rewrite Hm. unfold m1. rewrite He1', Z.sub_diag. simpl.
    now rewrite Z.div_1_r. }
  split.
  { rewrite Hm'. destruct Hcases as [[_ Hn']|[-> ->]].
    - rewrite Z.max_r by lia. simpl. rewrite Z.div_1_r.
      replace (e1 + 0 - e1) with 0 by lia. simpl. lia.
    - replace (e1 + Z.max 1 0 - e1) with 1 by lia. reflexivity. }
  split; [destruct Hcases as [[_ Hn']|[_ ->]]; lia|].
  split; [rewrite Hm'; apply Z.div_pos; [lia|apply Z.pow_pos_nonneg; lia]|].
  unfold binary_round_aux. rewrite Hs. fold m2. rewrite Hs'.
  unfold pack. destruct (shr_m mrs'); reflexivity.
Qed.

(** ** Values *)

#[local] Open Scope R_scope.

Lemma pow2_pos (e : Z) : 0 < pow2 e.
Proof. apply powerRZ_lt. lra. Qed.

Lemma pow2_add (a b : Z) : pow2 (a + b) = pow2 a * pow2 b.
Proof. apply powerRZ_add. lra. Qed.

Lemma pow2_IZR (n : Z) : (0 <= n)%Z -> pow2 n = IZR (2 ^ n).
Proof.
  intros Hn. unfold pow2. destruct n as [|p|p]; [reflexivity| |lia].
  now rewrite <- Zpower_pos_powerRZ.
Qed.

Lemma pow2_ge_1 (n : Z) : (0 <= n)%Z -> 1 <= pow2 n.
Proof.
  intros Hn. rewrite pow2_IZR by exact Hn. apply IZR_le.
  pose proof (Z.pow_pos_nonneg 2 n). lia.
Qed.

Lemma pow2_le (a b : Z) : (a <= b)%Z -> pow2 a <= pow2 b.
Proof.
  intros Hab. replace b with (a + (b - a))%Z by lia. rewrite pow2_add.
  pose proof (pow2_pos a). pose proof (pow2_ge_1 (b - a) ltac:(lia)). nra.
Qed.

Lemma pow2_lt (a b : Z) : (a < b)%Z -> pow2 a < pow2 b.
Proof.
  intros Hab. replace b with (a + 1 + (b - a - 1))%Z by lia.
  rewrite !pow2_add.
  assert (H1 : pow2 1 = 2) by (unfold pow2; simpl; lra). rewrite H1.
  pose proof (pow2_pos a). pose proof (pow2_ge_1 (b - a - 1) ltac:(lia)). nra.
Qed.

Lemma pow2_lt_inv (a b : Z) : pow2 a < pow2 b -> (a < b)%Z.
Proof.
  intros H. destruct (Z_lt_le_dec a b); [assumption|].
  pose proof (pow2_le b a ltac:(lia)). lra.
Qed.

Lemma SF2R_pack (sx : bool) (m e : Z) :
  (0 <= m)%Z -> (e <= 971)%Z ->
  SFfinite (pack sx m e) = true
  /\ SF2R (pack sx m e) = sign sx * (IZR m * pow2 e).
Proof.
  intros Hm He. unfold pack. destruct m as [|p|p]; [|..].
  - simpl. split; [reflexivity|]. lra.
  - apply Z.leb_le in He. rewrite He. simpl. split; reflexivity.
  - lia.
Qed.

(** Rounding a number [r] known by a mantissa [mx] below it at exponent
    [ex]: the result is finite with the sign asked for, and differs from
    [r] by at most [eps * r + eta]. *)
Lemma binary_round_aux_real (sx : bool) (mx ex : Z) (lx : location) (r : R) :
  (0 <= mx)%Z ->
  (ex <= fexp64 (Zdigits2 mx + ex))%Z ->
  (mx = 0%Z -> (ex <= -1021)%Z) ->
  IZR mx * pow2 ex <= r <= IZR (mx + 1) * pow2 ex ->
  r < pow2 1000 ->
  exists a : R,
    SFfinite (binary_round_aux prec emax sx mx ex lx) = true
    /\ SF2R (binary_round_aux prec emax sx mx ex lx) = sign sx * a
    /\ 0 <= a
    /\ Rabs (a - r) <= eps * r + eta.
Proof.
  intros Hmx Hn H0 [Hr1 Hr2] Hr.
  destruct (binary_round_aux_spec sx mx ex lx Hmx)
    as (m2 & m3 & e3 & Hm2 & _ & Hm3 & He3 & Hm3' & ->).
  pose proof (fexp64_eq (Zdigits2 mx + ex)) as Hf.
  set (e1 := Z.max ex (fexp64 (Zdigits2 mx + ex))) in *.
  set (m1 := (mx / 2 ^ (e1 - ex))%Z) in *.
  assert (He1 : e1 = fexp64 (Zdigits2 mx + ex)) by lia.
  set (n := (e1 - ex)%Z) in *.
  assert (Hn0 : (0 <= n)%Z) by lia.
  (* m1 brackets mx *)
  assert (Hdiv : (m1 * 2 ^ n <= mx < (m1 + 1) * 2 ^ n)%Z).
  { pose proof (Z.pow_pos_nonneg 2 n ltac:(lia) Hn0) as Hp.
    pose proof (Z.div_mod mx (2 ^ n) ltac:(lia)) as Hdm.
    pose proof (Z.mod_pos_bound mx (2 ^ n) Hp). fold m1 in Hdm. nia. }
  assert (Hex : pow2 e1 = IZR (2 ^ n) * pow2 ex).
  { rewrite <- pow2_IZR by exact Hn0. rewrite <- pow2_add. f_equal. lia. }
  pose proof (pow2_pos ex) as Hpex. pose proof (pow2_pos e1) as Hpe1.
  assert (Hb1 : IZR m1 * pow2 e1 <= r).
  { rewrite Hex, <- Rmult_assoc, <- mult_IZR.
    apply Rle_trans with (2 := Hr1). apply Rmult_le_compat_r; [lra|].
    apply IZR_le. lia. }
  assert (Hb2 : r <= IZR (m1 + 1) * pow2 e1).
  { rewrite Hex, <- Rmult_assoc, <- mult_IZR.
    apply Rle_trans with (1 := Hr2). apply Rmult_le_compat_r; [lra|].
    apply IZR_le. lia. }
  (* the error is at most one unit in the last place *)
  assert (Hval : IZR m3 * pow2 e3 = IZR m2 * pow2 e1).
  { rewrite Hm3, mult_IZR, <- pow2_IZR by lia. rewrite Rmult_assoc, <- pow2_add.
    do 2 f_equal. lia. }
  assert (Herr : Rabs (IZR m2 * pow2 e1 - r) <= pow2 e1).
  { rewrite plus_IZR in Hb2. apply Rabs_le.
    destruct Hm2 as [->| ->]; [|rewrite plus_IZR]; split; nra. }
  (* one unit in the last place is small against r *)
  assert (Hulp : pow2 e1 <= eps * r + eta).
  { unfold eps, eta. pose proof (pow2_pos (-1074)) as Hpe.
    pose proof (pow2_pos (-52)) as Hps.
    assert (0 <= r) by (pose proof (IZR_le 0 mx Hmx); nra).
    destruct (Z.eq_dec e1 (-1074)%Z) as [->|Hne]; [nra|].
    destruct (Z.eq_dec mx 0%Z) as [->|Hmx0]; [simpl in *; specialize (H0 eq_refl); lia|].
    assert (He1' : e1 = (Zdigits2 mx + ex - 53)%Z) by lia.
    pose proof (Zdigits2_bounds mx ltac:(lia)) as [Hd _].
    pose proof (Zdigits2_pos mx ltac:(lia)) as Hd0.
    assert (pow2 e1 <= pow2 (-52) * (IZR mx * pow2 ex)); [|nra].
    apply IZR_le in Hd. rewrite <- pow2_IZR in Hd by lia.
    replace e1 with (-52 + ((Zdigits2 mx - 1) + ex))%Z by lia.
    rewrite !pow2_add. apply Rmult_le_compat_l; [lra|].
    apply Rmult_le_compat_r; lra. }
  (* no overflow *)
  assert (He3' : (e3 <= 971)%Z).
  { destruct (Z.eq_dec e1 (-1074)%Z) as [|Hne]; [lia|].
    destruct (Z.eq_dec mx 0%Z) as [->|Hmx0]; [simpl in *; specialize (H0 eq_refl); lia|].
    pose proof (Zdigits2_bounds mx ltac:(lia)) as [Hd _].
    pose proof (Zdigits2_pos mx ltac:(lia)) as Hd0.
    apply IZR_le in Hd. rewrite <- pow2_IZR in Hd by lia.
    assert (pow2 (Zdigits2 mx - 1 + ex) < pow2 1000).
    { rewrite pow2_add. nra. }
    apply pow2_lt_inv in H. lia. }
  destruct (SF2R_pack sx m3 e3 Hm3' He3') as [Hfin Hv].
  exists (IZR m3 * pow2 e3). split; [exact Hfin|]. split; [exact Hv|].
  split.
  - pose proof (pow2_pos e3). pose proof (IZR_le 0 m3 Hm3'). nra.
  - rewrite Hval. lra.
Qed.

(** ** Valid values *)

Lemma valid_finite (s : bool) (m : positive) (e : Z) :
  valid_binary (S754_finite s m e) = true ->
  e = fexp64 (Zdigits2 (Zpos m) + e) /\ (e <= 971)%Z.
Proof.
  simpl. unfold bounded, canonical_mantissa.
  intros [H1 H2]%andb_true_iff. apply Z.eqb_eq in H1. apply Z.leb_le in H2.
  split; [now symmetry|exact H2].
Qed.

Lemma sign_xorb (a b : bool) : sign (xorb a b) = sign a * sign b.
Proof. destruct a, b; simpl; lra. Qed.

Lemma Rabs_sign (s : bool) (a : R) : 0 <= a -> Rabs (sign s * a) = a.
Proof.
  intros Ha. destruct s; simpl.
  - replace (-1 * a) with (- a) by lra. rewrite Rabs_Ropp. now apply Rabs_pos_eq.
  - rewrite Rmult_1_l. now apply Rabs_pos_eq.
Qed.

Lemma Rabs_sign_sub (s : bool) (a r : R) :
  Rabs (sign s * a - sign s * r) = Rabs (a - r).
Proof.
  destruct s; simpl.
  - replace (-1 * a - -1 * r) with (- (a - r)) by lra. apply Rabs_Ropp.
  - f_equal. lra.
Qed.

(** ** Multiplication *)

Lemma Zdigits2_mul (a b : positive) :
  (Zdigits2 (Zpos a) + Zdigits2 (Zpos b) - 1 <= Zdigits2 (Zpos (a * b)))%Z.
Proof.
  pose proof (Zdigits2_bounds (Zpos a) ltac:(lia)) as [Ha _].
  pose proof (Zdigits2_bounds (Zpos b) ltac:(lia)) as [Hb _].
  pose proof (Zdigits2_pos (Zpos a) ltac:(lia)).
  pose proof (Zdigits2_pos (Zpos b) ltac:(lia)).
  apply Zdigits2_ge; [|lia].
  replace (Zdigits2 (Zpos a) + Zdigits2 (Zpos b) - 1 - 1)%Z
    with ((Zdigits2 (Zpos a) - 1) + (Zdigits2 (Zpos b) - 1))%Z by lia.
  rewrite Z.pow_add_r by lia. rewrite Pos2Z.inj_mul.
  apply Z.mul_le_mono_nonneg; try lia; apply Z.pow_nonneg; lia.
Qed.

Lemma SFmul_model (x y : spec_float) :
  valid_binary x = true -> valid_binary y = true ->
  SFfinite x = true -> SFfinite y = true ->
  Rabs (SF2R x * SF2R y) < pow2 1000 ->
  SFfinite (SF64mul x y) = true
  /\ Rabs (SF2R (SF64mul x y) - SF2R x * SF2R y)
     <= eps * Rabs (SF2R x * SF2R y) + eta.
Proof.
  intros Vx Vy Fx Fy Hb.
  assert (Heta : 0 <= eta) by (apply Rlt_le, pow2_pos).
  assert (Hz : forall r, r = 0 -> Rabs (0 - r) <= eps * Rabs r + eta).
  { intros r ->. rewrite Rminus_0_r, Rabs_R0. lra. }
  destruct x as [sx|sx| |sx mx ex], y as [sy|sy| |sy my ey];
    try discriminate; simpl SF64mul;
    try (split; [reflexivity|]; apply Hz; simpl; lra).
  destruct (valid_finite _ _ _ Vx) as [Hex _].
  destruct (valid_finite _ _ _ Vy) as [Hey _].
  rewrite fexp64_eq in Hex, Hey.
  pose proof (Zdigits2_mul mx my) as Hd.
  set (r := IZR (Zpos mx) * pow2 ex * (IZR (Zpos my) * pow2 ey)).
  assert (Hr : SF2R (S754_finite sx mx ex) * SF2R (S754_finite sy my ey)
               = sign (xorb sx sy) * r).
  { simpl. rewrite sign_xorb. unfold r. ring. }
  assert (Hr0 : 0 <= r).
  { unfold r. pose proof (pow2_pos ex). pose proof (pow2_pos ey).
    pose proof (IZR_lt 0 (Zpos mx) ltac:(lia)).
    pose proof (IZR_lt 0 (Zpos my) ltac:(lia)).
    apply Rmult_le_pos; apply Rmult_le_pos; lra. }
  assert (Hr' : r = IZR (Zpos (mx * my)) * pow2 (ex + ey)).
  { unfold r. rewrite Pos2Z.inj_mul, mult_IZR, pow2_add. ring. }
  rewrite Hr in *. rewrite Rabs_sign in * by exact Hr0.
  destruct (binary_round_aux_real (xorb sx sy) (Zpos (mx * my)) (ex + ey)
              loc_Exact r) as (a & Hfin & Hv & Ha & Herr).
  - lia.
  - rewrite fexp64_eq.
    pose proof (Zdigits2_pos (Zpos mx) ltac:(lia)).
    pose proof (Zdigits2_pos (Zpos my) ltac:(lia)). lia.
  - intros H; discriminate H.
  - rewrite Hr', plus_IZR. pose proof (pow2_pos (ex + ey)). split; nra.
  - exact Hb.
  - split; [exact Hfin|]. unfold SF64mul, SFmul. rewrite Hv.
    now rewrite Rabs_sign_sub.
Qed.

(** ** Addition and subtraction *)

Lemma Pos_iter_xO (m d : positive) :
  Zpos (Pos.iter xO m d) = (Zpos m * 2 ^ Zpos d)%Z.
Proof.
  induction d as [|d IH] using Pos.peano_ind.
  - simpl. lia.
  - rewrite Pos.iter_succ, Pos2Z.inj_xO, IH, Pos2Z.inj_succ.
    rewrite Z.pow_succ_r by lia. lia.
Qed.

Lemma shl_align_spec (m : positive) (e e' : Z) :
  (e' <= e)%Z ->
  Zpos (shl_align m e e').1 = (Zpos m * 2 ^ (e - e'))%Z
  /\ (shl_align m e e').2 = e'.
Proof.
  intros He. unfold shl_align. destruct (e' - e)%Z as [|d|d] eqn:Hd; simpl.
  - replace (e - e')%Z with 0%Z by lia. split; lia.
  - lia.
  - rewrite Pos_iter_xO. replace (e - e')%Z with (Zpos d) by lia. split; lia.
Qed.

Lemma shl_align_id (m : positive) (e e' : Z) :
  (e <= e')%Z -> shl_align m e e' = (m, e).
Proof.
  intros He. unfold shl_align. destruct (e' - e)%Z as [|d|d] eqn:Hd; auto. lia.
Qed.

Lemma Zdigits2_shift (m k : Z) :
  (0 < m)%Z -> (0 <= k)%Z -> Zdigits2 (m * 2 ^ k) = (Zdigits2 m + k)%Z.
Proof.
  intros Hm Hk. pose proof (Zdigits2_bounds m Hm) as [H1 H2].
  pose proof (Zdigits2_pos m Hm) as Hd.
  pose proof (Z.pow_pos_nonneg 2 k ltac:(lia) Hk) as Hp.
  apply Z.le_antisymm.
  - apply Zdigits2_le; [lia|]. split; [lia|].
    rewrite Z.pow_add_r by lia. nia.
  - apply Zdigits2_ge; [|nia].
    replace (Zdigits2 m + k - 1)%Z with ((Zdigits2 m - 1) + k)%Z by lia.
    rewrite Z.pow_add_r by lia. nia.
Qed.

Lemma binary_round_real (sx : bool) (m : positive) (e : Z) :
  IZR (Zpos m) * pow2 e < pow2 1000 ->
  exists a : R,
    SFfinite (binary_round prec emax sx m e) = true
    /\ SF2R (binary_round prec emax sx m e) = sign sx * a
    /\ 0 <= a
    /\ Rabs (a - IZR (Zpos m) * pow2 e)
       <= eps * (IZR (Zpos m) * pow2 e) + eta.
Proof.
  intros Hb. unfold binary_round.
  set (t := fexp64 (Zpos (digits2_pos m) + e)).
  change (Zpos (digits2_pos m)) with (Zdigits2 (Zpos m)) in t.
  destruct (Z_lt_le_dec t e) as [Hlt|Hge].
  - destruct (shl_align_spec m e t ltac:(lia)) as [Hm He].
    destruct (shl_align m e t) as [mz ez]. simpl in Hm, He. subst ez.
    assert (Hd : Zdigits2 (Zpos mz) = (Zdigits2 (Zpos m) + (e - t))%Z)
      by (rewrite Hm; apply Zdigits2_shift; lia).
    assert (Hv : IZR (Zpos mz) * pow2 t = IZR (Zpos m) * pow2 e).
    { rewrite Hm, mult_IZR, <- pow2_IZR by lia.
      rewrite Rmult_assoc, <- pow2_add. do 2 f_equal. lia. }
    rewrite <- Hv in *.
    apply binary_round_aux_real; try lia.
    + rewrite Hd. replace (Zdigits2 (Zpos m) + (e - t) + t)%Z
        with (Zdigits2 (Zpos m) + e)%Z by lia. fold t. lia.
    + rewrite plus_IZR. pose proof (pow2_pos t). split; nra.
    + exact Hb.
  - rewrite (shl_align_id m e t Hge).
    apply binary_round_aux_real; try lia.
    + rewrite plus_IZR. pose proof (pow2_pos e). split; nra.
    + exact Hb.
Qed.

Lemma binary_normalize_real (m e : Z) (sz : bool) :
  Rabs (IZR m * pow2 e) < pow2 1000 ->
  SFfinite (binary_normalize prec emax m e sz) = true
  /\ Rabs (SF2R (binary_normalize prec emax m e sz) - IZR m * pow2 e)
     <= eps * Rabs (IZR m * pow2 e) + eta.
Proof.
  intros Hb. pose proof (pow2_pos e) as Hpe.
  assert (Heta : 0 <= eta) by (apply Rlt_le, pow2_pos).
  destruct m as [|p|p]; simpl binary_normalize.
  - simpl. split; [reflexivity|].
    rewrite Rmult_0_l, Rminus_0_r, Rabs_R0. lra.
  - assert (H0 : 0 <= IZR (Zpos p) * pow2 e)
      by (pose proof (IZR_lt 0 (Zpos p) ltac:(lia)); nra).
    rewrite (Rabs_pos_eq _ H0) in Hb |- *.
    destruct (binary_round_real false p e Hb) as (a & Hf & Hv & Ha & He).
    split; [exact Hf|]. rewrite Hv. unfold sign. rewrite Rmult_1_l. exact He.
  - assert (H0 : 0 <= IZR (Zpos p) * pow2 e)
      by (pose proof (IZR_lt 0 (Zpos p) ltac:(lia)); nra).
    assert (Hn : IZR (Zneg p) * pow2 e = - (IZR (Zpos p) * pow2 e)).
    { change (Zneg p) with (- Zpos p)%Z. rewrite opp_IZR. ring. }
    rewrite Hn, Rabs_Ropp, (Rabs_pos_eq _ H0) in Hb |- *.
    destruct (binary_round_real true p e Hb) as (a & Hf & Hv & Ha & He).
    split; [exact Hf|]. rewrite Hv. unfold sign.
    replace (-1 * a - - (IZR (Zpos p) * pow2 e))
      with (- (a - IZR (Zpos p) * pow2 e)) by ring.
    now rewrite Rabs_Ropp.
Qed.

Lemma cond_Zopp_IZR (s : bool) (m : Z) :
  IZR (cond_Zopp s m) = sign s * IZR m.
Proof. destruct s; simpl; [rewrite opp_IZR|]; ring. Qed.

Lemma aligned_value (s : bool) (m : positive) (e e' : Z) :
  (e' <= e)%Z ->
  IZR (cond_Zopp s (Zpos (shl_align m e e').1)) * pow2 e'
  = SF2R (S754_finite s m e).
Proof.
  intros He. destruct (shl_align_spec m e e' He) as [-> _].
  rewrite cond_Zopp_IZR, mult_IZR, <- pow2_IZR by lia. simpl.
  rewrite !Rmult_assoc, <- pow2_add. do 3 f_equal. lia.
Qed.

Lemma SFadd_model (x y : spec_float) :
  SFfinite x = true -> SFfinite y = true ->
  Rabs (SF2R x + SF2R y) < pow2 1000 ->
  SFfinite (SF64add x y) = true
  /\ Rabs (SF2R (SF64add x y) - (SF2R x + SF2R y))
     <= eps * Rabs (SF2R x + SF2R y) + eta.
Proof.
  intros Fx Fy Hb.
  assert (Heta : 0 <= eta) by (apply Rlt_le, pow2_pos).
  assert (Heps : 0 <= eps) by (apply Rlt_le, pow2_pos).
  assert (Hz : forall a r, a = r -> Rabs (a - r) <= eps * Rabs r + eta).
  { intros a r ->. rewrite Rminus_diag, Rabs_R0.
    pose proof (Rabs_pos r). nra. }
  destruct x as [sx|sx| |sx mx ex], y as [sy|sy| |sy my ey];
    try discriminate; unfold SF64add, SFadd.
  - split; [now destruct sx, sy|]. apply Hz. destruct sx, sy; simpl; lra.
  - split; [reflexivity|]. apply Hz. simpl; lra.
  - split; [reflexivity|]. apply Hz. simpl; lra.
  - set (ez := Z.min ex ey).
    set (m := (cond_Zopp sx (Zpos (shl_align mx ex ez).1)
               + cond_Zopp sy (Zpos (shl_align my ey ez).1))%Z).
    assert (Hm : IZR m * pow2 ez
                 = SF2R (S754_finite sx mx ex) + SF2R (S754_finite sy my ey)).
    { unfold m. rewrite plus_IZR, Rmult_plus_distr_r.
      rewrite !aligned_value by (unfold ez; lia). reflexivity. }
    rewrite <- Hm in *. now apply binary_normalize_real.
Qed.

Lemma SFsub_model (x y : spec_float) :
  SFfinite x = true -> SFfinite y = true ->
  Rabs (SF2R x - SF2R y) < pow2 1000 ->
  SFfinite (SF64sub x y) = true
  /\ Rabs (SF2R (SF64sub x y) - (SF2R x - SF2R y))
     <= eps * Rabs (SF2R x - SF2R y) + eta.
Proof.
  intros Fx Fy Hb.
  assert (Heta : 0 <= eta) by (apply Rlt_le, pow2_pos).
  assert (Heps : 0 <= eps) by (apply Rlt_le, pow2_pos).
  assert (Hz : forall a r, a = r -> Rabs (a - r) <= eps * Rabs r + eta).
  { intros a r ->. rewrite Rminus_diag, Rabs_R0.
    pose proof (Rabs_pos r). nra. }
  destruct x as [sx|sx| |sx mx ex], y as [sy|sy| |sy my ey];
    try discriminate; unfold SF64sub, SFsub.
  - split; [now destruct sx, sy|]. apply Hz. destruct sx, sy; simpl; lra.
  - split; [reflexivity|]. apply Hz. destruct sy; simpl; lra.
  - split; [reflexivity|]. apply Hz. simpl; lra.
  - set (ez := Z.min ex ey).
    set (m := (cond_Zopp sx (Zpos (shl_align mx ex ez).1)
               - cond_Zopp sy (Zpos (shl_align my ey ez).1))%Z).
    assert (Hm : IZR m * pow2 ez
                 = SF2R (S754_finite sx mx ex) - SF2R (S754_finite sy my ey)).
    { unfold m. rewrite minus_IZR, Rmult_minus_distr_r.
      rewrite !aligned_value by (unfold ez; lia). reflexivity. }
    rewrite <- Hm in *. now apply binary_normalize_real.
Qed.

(** ** Division *)

Lemma SFdiv_core_binary_spec (m1 m2 : positive) (e1 e2 : Z) :
  exists q e' l,
    SFdiv_core_binary prec emax (Zpos m1) e1 (Zpos m2) e2 = (q, e', l)
    /\ (0 <= q)%Z
    /\ (e' <= fexp64 (Zdigits2 q + e'))%Z
    /\ (q = 0%Z -> (e' <= -1021)%Z)
    /\ IZR q * pow2 e'
       <= IZR (Zpos m1) * pow2 e1 / (IZR (Zpos m2) * pow2 e2)
       <= IZR (q + 1) * pow2 e'.
Proof.
  unfold SFdiv_core_binary.
  set (d1 := Zdigits2 (Zpos m1)). set (d2 := Zdigits2 (Zpos m2)).
  set (T := (d1 + e1 - (d2 + e2))%Z).
  set (e' := Z.min (fexp64 T) (e1 - e2)).
  set (s := (e1 - e2 - e')%Z).
  assert (Hs : (0 <= s)%Z) by (unfold s, e'; lia).
  set (m' := match s with
             | Zpos _ => Z.shiftl (Zpos m1) s
             | Z0 => Zpos m1
             | Zneg _ => 0%Z
             end).
  assert (Hm' : m' = (Zpos m1 * 2 ^ s)%Z).
  { unfold m'. destruct s as [|p|p] eqn:Es; [simpl; lia| |lia].
    now rewrite Z.shiftl_mul_pow2 by lia. }
  pose proof (Z_div_mod m' (Zpos m2) ltac:(lia)) as Hdm.
  destruct (Z.div_eucl m' (Zpos m2)) as [q r]. destruct Hdm as [Hq Hr].
  exists q, e', (new_location (Zpos m2) r).
  split; [reflexivity|].
  pose proof (Z.pow_pos_nonneg 2 s ltac:(lia) Hs) as Hps.
  assert (Hq0 : (0 <= q)%Z) by nia.
  pose proof (Zdigits2_bounds (Zpos m1) ltac:(lia)) as [Hd1 _].
  pose proof (Zdigits2_bounds (Zpos m2) ltac:(lia)) as [_ Hd2].
  pose proof (Zdigits2_pos (Zpos m1) ltac:(lia)) as Hd1'.
  pose proof (Zdigits2_pos (Zpos m2) ltac:(lia)) as Hd2'.
  fold d1 in Hd1, Hd1'. fold d2 in Hd2, Hd2'.
  (* the quotient has enough digits *)
  assert (Hdq : (d1 + s - d2 <= Zdigits2 q)%Z).
  { destruct (Z_lt_le_dec (d1 + s - d2) 1) as [Hsmall|Hbig].
    - pose proof (Zdigits2_nonneg q). lia.
    - assert (Hge : (2 ^ (d1 + s - d2 - 1) <= q)%Z).
      { assert (H1 : (2 ^ (d1 - 1) * 2 ^ s <= m')%Z) by nia.
        replace (2 ^ (d1 - 1) * 2 ^ s)%Z
          with (2 ^ (d1 + s - d2 - 1) * 2 ^ d2)%Z in H1
          by (rewrite <- !Z.pow_add_r by lia; f_equal; lia).
        pose proof (Z.pow_pos_nonneg 2 (d1 + s - d2 - 1) ltac:(lia) ltac:(lia)).
        nia. }
      apply Zdigits2_ge; [exact Hge|].
      pose proof (Z.pow_pos_nonneg 2 (d1 + s - d2 - 1) ltac:(lia) ltac:(lia)).
      lia. }
  pose proof (fexp64_eq T) as HfT.
  pose proof (fexp64_eq (Zdigits2 q + e')) as Hfq.
  split; [exact Hq0|]. split; [unfold s, T in *; lia|].
  split.
  { intros ->. simpl in Hdq. unfold s, T in *. lia. }
  (* the quotient brackets the ratio *)
  pose proof (pow2_pos e1) as Hp1. pose proof (pow2_pos e2) as Hp2.
  pose proof (pow2_pos e') as Hp'.
  pose proof (IZR_lt 0 (Zpos m2) ltac:(lia)) as Hm2.
  assert (Hratio : IZR (Zpos m1) * pow2 e1 / (IZR (Zpos m2) * pow2 e2)
                   = IZR m' / IZR (Zpos m2) * pow2 e').
  { rewrite Hm', mult_IZR, <- pow2_IZR by exact Hs.
    replace e1 with (s + e' + e2)%Z at 1 by (unfold s; lia).
    rewrite !pow2_add. field. lra. }
  rewrite Hratio.
  assert (Hlo : IZR q <= IZR m' / IZR (Zpos m2)).
  { apply Rmult_le_reg_r with (IZR (Zpos m2)); [exact Hm2|].
    unfold Rdiv. rewrite Rmult_assoc, Rinv_l, Rmult_1_r by lra.
    rewrite <- mult_IZR. apply IZR_le. lia. }
  assert (Hhi : IZR m' / IZR (Zpos m2) <= IZR (q + 1)).
  { apply Rmult_le_reg_r with (IZR (Zpos m2)); [exact Hm2|].
    unfold Rdiv. rewrite Rmult_assoc, Rinv_l, Rmult_1_r by lra.
    rewrite <- mult_IZR. apply IZR_le. lia. }
  split; apply Rmult_le_compat_r; lra.
Qed.

Lemma SFdiv_model (x y : spec_float) :
  SFfinite x = true -> SFfinite y = true ->
  SF2R y <> 0 ->
  Rabs (SF2R x / SF2R y) < pow2 1000 ->
  SFfinite (SF64div x y) = true
  /\ Rabs (SF2R (SF64div x y) - SF2R x / SF2R y)
     <= eps * Rabs (SF2R x / SF2R y) + eta.
Proof.
  intros Fx Fy Hy Hb.
  assert (Heta : 0 <= eta) by (apply Rlt_le, pow2_pos).
  destruct x as [sx|sx| |sx mx ex], y as [sy|sy| |sy my ey];
    try discriminate; try (simpl in Hy; lra); unfold SF64div, SFdiv.
  - split; [reflexivity|]. simpl. unfold Rdiv.
    rewrite Rmult_0_l, Rminus_0_r, Rabs_R0. lra.
  - destruct (SFdiv_core_binary_spec mx my ex ey)
      as (q & e' & l & -> & Hq & Hn & H0 & Hbr).
    set (r := IZR (Zpos mx) * pow2 ex / (IZR (Zpos my) * pow2 ey)) in *.
    pose proof (pow2_pos ex). pose proof (pow2_pos ey).
    pose proof (IZR_lt 0 (Zpos mx) ltac:(lia)).
    pose proof (IZR_lt 0 (Zpos my) ltac:(lia)).
    assert (Hr0 : 0 <= r).
    { unfold r. apply Rlt_le, Rdiv_lt_0_compat; apply Rmult_lt_0_compat; lra. }
    assert (Hr : SF2R (S754_finite sx mx ex) / SF2R (S754_finite sy my ey)
                 = sign (xorb sx sy) * r).
    { simpl. rewrite sign_xorb. unfold r. destruct sx, sy; simpl; field; nra. }
    rewrite Hr in *. rewrite Rabs_sign in * by exact Hr0.
    destruct (binary_round_aux_real (xorb sx sy) q e' l r Hq Hn H0 Hbr Hb)
      as (a & Hfin & Hv & Ha & Herr).
    split; [exact Hfin|]. rewrite Hv. now rewrite Rabs_sign_sub.
Qed.

(** ** Square root *)

Lemma SFsqrt_core_binary_spec (m : positive) (e : Z) :
  exists q e' l,
    SFsqrt_core_binary prec emax (Zpos m) e = (q, e', l)
    /\ (0 < q)%Z
    /\ (e' <= fexp64 (Zdigits2 q + e'))%Z
    /\ IZR q * pow2 e'
       <= R_sqrt.sqrt (IZR (Zpos m) * pow2 e)
       <= IZR (q + 1) * pow2 e'.
Proof.
  unfold SFsqrt_core_binary.
  set (d := Zdigits2 (Zpos m)).
  set (e' := Z.min (fexp64 (Z.div2 (d + e + 1))) (Z.div2 e)).
  set (s := (e - 2 * e')%Z).
  assert (He2 : (2 * Z.div2 e <= e)%Z).
  { rewrite Z.div2_div. pose proof (Z.mul_div_le e 2 ltac:(lia)). lia. }
  assert (Hs : (0 <= s)%Z) by (unfold s, e'; lia).
  set (m' := match s with
             | Zpos _ => Z.shiftl (Zpos m) s
             | Z0 => Zpos m
             | Zneg _ => 0%Z
             end).
  assert (Hm' : m' = (Zpos m * 2 ^ s)%Z).
  { unfold m'. destruct s as [|p|p] eqn:Es; [simpl; lia| |lia].
    now rewrite Z.shiftl_mul_pow2 by lia. }
  pose proof (Z.pow_pos_nonneg 2 s ltac:(lia) Hs) as Hps.
  assert (Hm'0 : (0 < m')%Z) by nia.
  pose proof (Z.sqrtrem_spec m' ltac:(lia)) as Hsq.
  destruct (Z.sqrtrem m') as [q r]. destruct Hsq as [Hq Hr].
  eexists q, e', _. split; [reflexivity|].
  assert (Hq0 : (0 < q)%Z) by nia.
  split; [exact Hq0|].
  (* digits of the root *)
  set (D := (d + s)%Z).
  assert (HD : Zdigits2 m' = D) by (rewrite Hm'; apply Zdigits2_shift; lia).
  pose proof (Zdigits2_bounds m' Hm'0) as [HD1 _]. rewrite HD in HD1.
  pose proof (Zdigits2_pos (Zpos m) ltac:(lia)) as Hd0. fold d in Hd0.
  set (c := Z.div2 (D + 1)).
  assert (Hc : (2 * c <= D + 1 /\ D <= 2 * c)%Z).
  { unfold c. rewrite Z.div2_div.
    pose proof (Z.div_mod (D + 1) 2 ltac:(lia)).
    pose proof (Z.mod_pos_bound (D + 1) 2 ltac:(lia)). lia. }
  assert (Hdq : (c <= Zdigits2 q)%Z).
  { apply Zdigits2_ge; [|exact Hq0].
    destruct (Z_lt_le_dec q (2 ^ (c - 1))) as [Hlt|]; [|assumption].
    exfalso.
    assert (H1 : ((q + 1) * (q + 1) <= 2 ^ (c - 1) * 2 ^ (c - 1))%Z) by nia.
    rewrite <- Z.pow_add_r in H1 by lia.
    assert (H2 : (2 ^ (c - 1 + (c - 1)) <= 2 ^ (D - 1))%Z)
      by (apply Z.pow_le_mono_r; lia).
    nia. }
  split.
  { assert (Hce : (c + e' = Z.div2 (d + e + 1))%Z).
    { unfold c, D, s. rewrite !Z.div2_div.
      replace (d + (e - 2 * e') + 1)%Z with (d + e + 1 + (- e') * 2)%Z by lia.
      rewrite Z.div_add by lia. lia. }
    pose proof (fexp64_eq (Zdigits2 q + e')) as Hfq.
    pose proof (fexp64_eq (Z.div2 (d + e + 1))) as Hfd.
    unfold e' in *. lia. }
  (* the root brackets the square root *)
  pose proof (pow2_pos e') as Hp'.
  assert (Hval : IZR (Zpos m) * pow2 e = IZR m' * (pow2 e' * pow2 e')).
  { rewrite Hm', mult_IZR, <- pow2_IZR by exact Hs.
    rewrite <- pow2_add, Rmult_assoc, <- pow2_add. do 2 f_equal.
    unfold s. lia. }
  rewrite Hval, sqrt_mult_alt by (apply IZR_le; lia).
  rewrite sqrt_square by lra.
  assert (Hlo : IZR q <= R_sqrt.sqrt (IZR m')).
  { rewrite <- (sqrt_square (IZR q)) by (apply IZR_le; lia).
    apply sqrt_le_1_alt. rewrite <- mult_IZR. apply IZR_le. lia. }
  assert (Hhi : R_sqrt.sqrt (IZR m') <= IZR (q + 1)).
  { rewrite <- (sqrt_square (IZR (q + 1))) by (apply IZR_le; lia).
    apply sqrt_le_1_alt. rewrite <- mult_IZR. apply IZR_le. nia. }
  split; apply Rmult_le_compat_r; lra.
Qed.

Lemma SFsqrt_model (x : spec_float) :
  SFfinite x = true ->
  0 <= SF2R x ->
  R_sqrt.sqrt (SF2R x) < pow2 1000 ->
  SFfinite (SF64sqrt x) = true
  /\ 0 <= SF2R (SF64sqrt x)
  /\ Rabs (SF2R (SF64sqrt x) - R_sqrt.sqrt (SF2R x))
     <= eps * R_sqrt.sqrt (SF2R x) + eta.
Proof.
  intros Fx Hx Hb.
  assert (Heta : 0 <= eta) by (apply Rlt_le, pow2_pos).
  destruct x as [sx|sx| |sx mx ex]; try discriminate;
    unfold SF64sqrt, SFsqrt.
  - simpl. rewrite sqrt_0, Rminus_0_r, Rabs_R0. repeat split; lra.
  - destruct sx.
    { exfalso. simpl in Hx. pose proof (pow2_pos ex).
      pose proof (IZR_lt 0 (Zpos mx) ltac:(lia)). nra. }
    destruct (SFsqrt_core_binary_spec mx ex) as (q & e' & l & -> & Hq & Hn & Hbr).
    assert (Hv : SF2R (S754_finite false mx ex) = IZR (Zpos mx) * pow2 ex)
      by (simpl; lra).
    rewrite Hv in *.
    destruct (binary_round_aux_real false q e' l _ ltac:(lia) Hn ltac:(lia) Hbr Hb)
      as (a & Hfin & Hva & Ha & Herr).
    rewrite Hva. unfold sign. rewrite Rmult_1_l.
    split; [exact Hfin|]. split; [exact Ha|exact Herr].
Qed.

(** ** Halving *)

#[local] Open Scope Z_scope.

Lemma shr_1_even (k : Z) :
  0 <= k ->
  shr_1 {| shr_m := 2 * k; shr_r := false; shr_s := false |}
  = {| shr_m := k; shr_r := false; shr_s := false |}.
Proof. destruct k as [|p|p]; [reflexivity|reflexivity|lia]. Qed.

Lemma iter_shr_1_exact (p : positive) (m : Z) :
  0 <= m ->
  SpecFloat.iter_pos shr_1 p
    {| shr_m := m * 2 ^ Zpos p; shr_r := false; shr_s := false |}
  = {| shr_m := m; shr_r := false; shr_s := false |}.
Proof.
  revert m. induction p as [p IH|p IH|]; intros m Hm; cbn [SpecFloat.iter_pos].
  - replace (m * 2 ^ Zpos p~1) with (2 * (m * 2 ^ Zpos p * 2 ^ Zpos p)).
    + rewrite shr_1_even by (pose proof (Z.pow_pos_nonneg 2 (Zpos p)); nia).
      rewrite IH by (pose proof (Z.pow_pos_nonneg 2 (Zpos p)); nia).
      now apply IH.
    + rewrite Pos2Z.inj_xI, Z.pow_add_r, Z.pow_mul_r by lia.
      change (2 ^ 2) with 4. change (2 ^ 1) with 2.
      replace (4 ^ Zpos p) with (2 ^ Zpos p * 2 ^ Zpos p); [lia|].
      rewrite <- Z.pow_add_r by lia.
      replace (Zpos p + Zpos p) with (2 * Zpos p) by lia.
      now rewrite Z.pow_mul_r by lia.
  - replace (m * 2 ^ Zpos p~0) with (m * 2 ^ Zpos p * 2 ^ Zpos p).
    + rewrite IH by (pose proof (Z.pow_pos_nonneg 2 (Zpos p)); nia).
      now apply IH.
    + rewrite Pos2Z.inj_xO, <- Z.mul_assoc, <- Z.pow_add_r by lia.
      do 2 f_equal. lia.
  - replace (m * 2 ^ 1) with (2 * m) by lia. now apply shr_1_even.
Qed.

(** Half of a normal number above the smallest binade: the same mantissa,
    the exponent one less. *)
Lemma SFmul_half (s : bool) (m : positive) (e : Z) :
  valid_binary (S754_finite s m e) = true ->
  -1073 <= e ->
  SF64mul (S754_finite s m e) (S754_finite false 4503599627370496 (-53))
  = S754_finite s m (e - 1).
Proof.
  intros V He. destruct (valid_finite _ _ _ V) as [Hc He'].
  rewrite fexp64_eq in Hc.
  assert (Hd : Zdigits2 (Zpos m) = 53) by lia.
  unfold SF64mul, SFmul. rewrite xorb_false_r.
  assert (Hm : Zpos (m * 4503599627370496) = Zpos m * 2 ^ 52)
    by (rewrite Pos2Z.inj_mul; reflexivity).
  assert (Hd' : Zdigits2 (Zpos (m * 4503599627370496)) = 105).
  { rewrite Hm, Zdigits2_shift by lia. lia. }
  unfold binary_round_aux, shr_fexp. rewrite Hd'.
  change (SpecFloat.fexp prec emax (105 + (e + -53)))
    with (fexp64 (105 + (e + -53))).
  rewrite fexp64_eq.
  replace (Z.max (105 + (e + -53) - 53) (-1074) - (e + -53)) with 52 by lia.
  unfold shr. cbn [shr_record_of_loc].
  rewrite Hm. change 52 with (Zpos 52).
  rewrite (iter_shr_1_exact 52 (Zpos m)) by lia.
  cbn [shr_m loc_of_shr_record round_nearest_even].
  rewrite Hd.
  change (SpecFloat.fexp prec emax (53 + (e + -53 + Zpos 52)))
    with (fexp64 (53 + (e + -53 + Zpos 52))).
  rewrite fexp64_eq.
  replace (Z.max (53 + (e + -53 + Zpos 52) - 53) (-1074) - (e + -53 + Zpos 52))
    with 0 by lia.
  cbn [shr_record_of_loc shr_m].
  replace (e + -53 + Zpos 52) with (e - 1) by lia.
  assert (Hle : (e - 1 <=? emax - prec) = true) by (apply Z.leb_le; change (emax - prec) with 971; lia).
  now rewrite Hle.
Qed.

#[local] Open Scope R_scope.

(** ** Two bounds *)

Lemma pow2_neg (n : Z) : (0 <= n)%Z -> pow2 (- n) = / IZR (2 ^ n).
Proof.
  intros Hn. unfold pow2. rewrite powerRZ_neg'. f_equal.
  now apply pow2_IZR.
Qed.

Lemma eps_small : eps <= 1 / 10 ^ 15.
Proof.
  unfold eps. change (pow2 (-52)) with (pow2 (- (52))).
  rewrite (pow2_neg 52) by lia.
  replace (2 ^ 52)%Z with 4503599627370496%Z by reflexivity. lra.
Qed.

Lemma eta_le_eps : eta <= eps.
Proof. apply pow2_le. lia. Qed.

Lemma pow2_1000_big : 1000 <= pow2 1000.
Proof.
  apply Rle_trans with (pow2 10); [|apply pow2_le; lia].
  rewrite pow2_IZR by lia. replace (2 ^ 10)%Z with 1024%Z by reflexivity. lra.
Qed.

Lemma model_u (v r : R) :
  Rabs (v - r) <= eps * Rabs r + eta -> Rabs (v - r) <= u * (Rabs r + 1).
Proof.
  intros H. pose proof eps_small. pose proof eta_le_eps.
  pose proof (Rabs_pos r). unfold u. nra.
Qed.

Lemma Rabs_le_inv (a b : R) : Rabs a <= b -> - b <= a <= b.
Proof.
  intros H. pose proof (Rle_abs a). pose proof (Rle_abs (- a)) as H1.
  rewrite Rabs_Ropp in H1. lra.
Qed.

(** ** The operations on floats *)

Lemma SFfinite_nonfinite (x : spec_float) :
  SFfinite x = negb (SFnonfinite x).
Proof. now destruct x. Qed.

Lemma finite_spec (x : float) : finite x <-> SFfinite (Prim2SF x) = true.
Proof.
  unfold finite. now rewrite Binary64.is_finite_spec, SFfinite_nonfinite.
Qed.

Lemma mul_model (x y : float) :
  finite x -> finite y ->
  Rabs (B2R x * B2R y) < pow2 1000 ->
  finite (x * y)%float
  /\ Rabs (B2R (x * y)%float - B2R x * B2R y)
     <= eps * Rabs (B2R x * B2R y) + eta.
Proof.
  rewrite !finite_spec. unfold B2R. rewrite FloatAxioms.mul_spec.
  apply SFmul_model; apply Prim2SF_valid.
Qed.

Lemma add_model (x y : float) :
  finite x -> finite y ->
  Rabs (B2R x + B2R y) < pow2 1000 ->
  finite (x + y)%float
  /\ Rabs (B2R (x + y)%float - (B2R x + B2R y))
     <= eps * Rabs (B2R x + B2R y) + eta.
Proof.
  rewrite !finite_spec. unfold B2R. rewrite FloatAxioms.add_spec.
  apply SFadd_model.
Qed.

Lemma div_model (x y : float) :
  finite x -> finite y -> B2R y <> 0 ->
  Rabs (B2R x / B2R y) < pow2 1000 ->
  finite (x / y)%float
  /\ Rabs (B2R (x / y)%float - B2R x / B2R y)
     <= eps * Rabs (B2R x / B2R y) + eta.
Proof.
  rewrite !finite_spec. unfold B2R. rewrite FloatAxioms.div_spec.
  apply SFdiv_model.
Qed.

Lemma sqrt_model (x : float) :
  finite x -> 0 <= B2R x -> R_sqrt.sqrt (B2R x) < pow2 1000 ->
  finite (PrimFloat.sqrt x)
  /\ 0 <= B2R (PrimFloat.sqrt x)
  /\ Rabs (B2R (PrimFloat.sqrt x) - R_sqrt.sqrt (B2R x))
     <= eps * R_sqrt.sqrt (B2R x) + eta.
Proof.
  rewrite !finite_spec. unfold B2R. rewrite FloatAxioms.sqrt_spec.
  apply SFsqrt_model.
Qed.

Lemma opp_model (x : float) :
  finite x -> finite (- x)%float /\ B2R (- x)%float = - B2R x.
Proof.
  rewrite !finite_spec. unfold B2R. rewrite FloatAxioms.opp_spec.
  destruct (Prim2SF x) as [s|s| |s m e]; simpl; intros H;
    try discriminate; (split; [reflexivity|]); try lra.
  destruct s; simpl; lra.
Qed.

(** An integer of 63 bits converts to a finite number below [2^64]. *)
Lemma of_uint63_model (n : int) :
  finite (of_uint63 n) /\ Rabs (B2R (of_uint63 n)) <= pow2 64.
Proof.
  rewrite finite_spec. unfold B2R. rewrite of_uint63_spec.
  pose proof (Uint63.to_Z_bounded n) as Hn. unfold wB in Hn.
  change (2 ^ Z.of_nat Uint63.size)%Z with (2 ^ 63)%Z in Hn.
  set (m := Uint63.to_Z n) in *.
  assert (Hm : 0 <= IZR m <= pow2 63).
  { rewrite pow2_IZR by lia. split; apply IZR_le; lia. }
  assert (H1 : pow2 0 = 1) by reflexivity.
  pose proof (pow2_le 63 1000 ltac:(lia)) as H63.
  assert (H64 : pow2 64 = 2 * pow2 63).
  { change 64%Z with (1 + 63)%Z. rewrite pow2_add.
    f_equal. unfold pow2. simpl. lra. }
  pose proof (pow2_pos 1000) as Hp.
  assert (H1000 : pow2 63 < pow2 1000) by (apply pow2_lt; lia).
  destruct (binary_normalize_real m 0 false) as [Hf He].
  { rewrite H1, Rmult_1_r, Rabs_pos_eq by lra. lra. }
  split; [exact Hf|].
  rewrite H1, Rmult_1_r in He. rewrite (Rabs_pos_eq (IZR m)) in He by lra.
  pose proof eps_small. pose proof eta_le_eps.
  assert (0 < eps) by apply pow2_pos. assert (0 < eta) by apply pow2_pos.
  apply Rabs_le. apply Rabs_le_inv in He.
  pose proof (pow2_ge_1 63 ltac:(lia)). split; nra.
Qed.

(** A finite float above zero compares so. *)
Lemma ltb_0_pos (x : float) :
  finite x -> 0 < B2R x -> (0 <? x)%float = true.
Proof.
  rewrite finite_spec. unfold B2R. rewrite FloatAxioms.ltb_spec.
  change (Prim2SF 0) with (S754_zero false).
  destruct (Prim2SF x) as [s|s| |s m e]; simpl; try discriminate; try lra.
  intros _ H. destruct s; [|reflexivity].
  pose proof (pow2_pos e). pose proof (IZR_lt 0 (Zpos m) ltac:(lia)).
  simpl in H. nra.
Qed.

Lemma mul_half_exact (x : float) :
  finite x -> (pow2 (-1021) <= Rabs (B2R x))%R ->
  finite (x * 0.5)%float /\ B2R (x * 0.5)%float = (B2R x / 2)%R.
Proof.
  rewrite !finite_spec. unfold B2R. rewrite FloatAxioms.mul_spec.
  pose proof (Prim2SF_valid x) as V.
  change (Prim2SF 0.5) with (S754_finite false 4503599627370496 (-53)).
  pose proof (pow2_pos (-1021)) as Hp.
  destruct (Prim2SF x) as [s|s| |s m e]; try discriminate.
  - simpl. rewrite Rabs_R0. lra.
  - intros _ Hx.
    destruct (valid_finite _ _ _ V) as [Hc _]. rewrite fexp64_eq in Hc.
    assert (He : (-1073 <= e)%Z).
    { cbn [SF2R] in Hx. rewrite Rabs_sign in Hx.
      2:{ pose proof (pow2_pos e). pose proof (IZR_lt 0 (Zpos m) ltac:(lia)).
          nra. }
      pose proof (Zdigits2_bounds (Zpos m) ltac:(lia)) as [_ Hd].
      assert (Hm : (Zpos m < 2 ^ 53)%Z).
      { eapply Z.lt_le_trans; [exact Hd|]. apply Z.pow_le_mono_r; lia. }
      apply IZR_lt in Hm. rewrite <- pow2_IZR in Hm by lia.
      pose proof (pow2_pos e) as Hpe.
      assert (H : (pow2 (-1021) < pow2 (53 + e))%R).
      { rewrite pow2_add. nra. }
      apply pow2_lt_inv in H. lia. }
    rewrite (SFmul_half s m e V He). split; [reflexivity|].
    cbn [SF2R]. replace e with (1 + (e - 1))%Z at 2 by lia.
    rewrite pow2_add. replace (pow2 1) with 2%R by (unfold pow2; simpl; lra).
    field.
Qed.

End Rounding.

(** * Bounds on rounded computations *)

Module Bounds.
Import Rounding.
#[local] Open Scope R_scope.

(** The models with the magnitudes bounded: the result is finite and the
    error at most [u * (B + 1)]. *)
Lemma mul_bound (x y : float) (B : R) :
  finite x -> finite y -> - B <= B2R x * B2R y <= B -> B <= 100 ->
  finite (x * y)%float
  /\ - (u * (B + 1)) <= B2R (x * y)%float - B2R x * B2R y <= u * (B + 1).
Proof.
  intros Fx Fy Hb HB. pose proof pow2_1000_big.
  assert (Ha : Rabs (B2R x * B2R y) <= B) by (apply Rabs_le; lra).
  destruct (mul_model x y Fx Fy) as [Hf He]; [lra|].
  split; [exact Hf|]. apply model_u in He. apply Rabs_le_inv.
  assert (0 <= u) by (unfold u; lra). nra.
Qed.

Lemma add_bound (x y : float) (B : R) :
  finite x -> finite y -> - B <= B2R x + B2R y <= B -> B <= 100 ->
  finite (x + y)%float
  /\ - (u * (B + 1)) <= B2R (x + y)%float - (B2R x + B2R y) <= u * (B + 1).
Proof.
  intros Fx Fy Hb HB. pose proof pow2_1000_big.
  assert (Ha : Rabs (B2R x + B2R y) <= B) by (apply Rabs_le; lra).
  destruct (add_model x y Fx Fy) as [Hf He]; [lra|].
  split; [exact Hf|]. apply model_u in He. apply Rabs_le_inv.
  assert (0 <= u) by (unfold u; lra). nra.
Qed.

Lemma div_bound (x y : float) (B : R) :
  finite x -> finite y -> B2R y <> 0 ->
  - B <= B2R x / B2R y <= B -> B <= 100 ->
  finite (x / y)%float
  /\ - (u * (B + 1)) <= B2R (x / y)%float - B2R x / B2R y <= u * (B + 1).
Proof.
  intros Fx Fy Hy Hb HB. pose proof pow2_1000_big.
  assert (Ha : Rabs (B2R x / B2R y) <= B) by (apply Rabs_le; lra).
  destruct (div_model x y Fx Fy Hy) as [Hf He]; [lra|].
  split; [exact Hf|]. apply model_u in He. apply Rabs_le_inv.
  assert (0 <= u) by (unfold u; lra). nra.
Qed.

Lemma sqrt_bound (x : float) (B : R) :
  finite x -> 0 <= B2R x -> R_sqrt.sqrt (B2R x) <= B -> B <= 100 ->
  finite (PrimFloat.sqrt x)
  /\ 0 <= B2R (PrimFloat.sqrt x)
  /\ - (u * (B + 1)) <= B2R (PrimFloat.sqrt x) - R_sqrt.sqrt (B2R x)
     <= u * (B + 1).
Proof.
  intros Fx Hx Hb HB. pose proof pow2_1000_big.
  destruct (sqrt_model x Fx Hx) as (Hf & H0 & He); [lra|].
  split; [exact Hf|]. split; [exact H0|].
  pose proof (sqrt_pos (B2R x)).
  pose proof eps_small. pose proof eta_le_eps.
  assert (0 <= eps) by (apply Rlt_le, pow2_pos).
  apply Rabs_le_inv in He. unfold u in *. nra.
Qed.

(** ** Constants *)

Lemma SF2R_finite_neg (m p : positive) :
  SF2R (S754_finite false m (Zneg p)) = IZR (Zpos m) / IZR (2 ^ Zpos p).
Proof.
  unfold SF2R, sign. change (Zneg p) with (- Zpos p)%Z.
  rewrite pow2_neg by lia. unfold Rdiv. ring.
Qed.

Ltac const_bounds c :=
  unfold finite, B2R;
  let v := eval vm_compute in (Prim2SF c) in
  change (Prim2SF c) with v;
  split; [reflexivity|];
  rewrite SF2R_finite_neg;
  match goal with
  | |- context [IZR (2 ^ ?p)] =>
      let q := eval vm_compute in (2 ^ p)%Z in change (2 ^ p)%Z with q
  end;
  lra.

Lemma const_0_1 : finite 0.1%float /\ 0.09 <= B2R 0.1%float <= 0.11.
Proof. const_bounds 0.1%float. Qed.

Lemma const_0_05 : finite 0.05%float /\ 0.04 <= B2R 0.05%float <= 0.06.
Proof. const_bounds 0.05%float. Qed.

Lemma const_0_01 : finite 0.01%float /\ 0.009 <= B2R 0.01%float <= 0.011.
Proof. const_bounds 0.01%float. Qed.

Lemma const_0_5 : finite 0.5%float /\ 0.5 <= B2R 0.5%float <= 0.5.
Proof. const_bounds 0.5%float. Qed.

(** ** The simulated angular velocity *)

Lemma u_small : 0 <= u <= 1 / 10 ^ 15.
Proof. unfold u. lra. Qed.

Lemma mul_finite (x y : float) (B : R) :
  finite x -> finite y ->
  Rabs (B2R x) <= pow2 64 -> Rabs (B2R y) <= 2 ->
  finite (x * y)%float.
Proof.
  intros Fx Fy Hx Hy. apply mul_model; try assumption.
  rewrite Rabs_mult.
  assert (H65 : pow2 65 = pow2 64 * 2).
  { change 65%Z with (64 + 1)%Z. rewrite pow2_add.
    f_equal. unfold pow2. simpl. lra. }
  pose proof (pow2_lt 65 1000 ltac:(lia)).
  pose proof (pow2_pos 64). pose proof (Rabs_pos (B2R x)).
  pose proof (Rabs_pos (B2R y)). nra.
Qed.

Lemma const_1_5 : finite 1.5%float /\ 1.5 <= B2R 1.5%float <= 1.5.
Proof. const_bounds 1.5%float. Qed.

Lemma double_of_int_model (z : Z) :
  finite (double_of_int z) /\ Rabs (B2R (double_of_int z)) <= pow2 64.
Proof.
  destruct z as [|p|p]; unfold double_of_int.
  - split; [reflexivity|]. replace (B2R 0%float) with 0 by reflexivity.
    rewrite Rabs_R0. apply Rlt_le, pow2_pos.
  - apply of_uint63_model.
  - destruct (of_uint63_model (Uint63.of_Z (- Zneg p))) as [F H].
    destruct (opp_model _ F) as [F' E]. split; [exact F'|].
    now rewrite E, Rabs_Ropp.
Qed.

Lemma addNoise_bound (P : Platform) (b : Sensor.t) (v : float) (w : World) :
  signals_bounded P -> noise_bounded b ->
  finite v -> -0.12 <= B2R v <= 0.12 ->
  finite (Sensor.addNoise P b v w).1
  /\ -1.14 <= B2R (Sensor.addNoise P b v w).1 <= 1.14.
Proof.
  intros HP [Fn Hn] Fv Hv. unfold Sensor.addNoise.
  destruct (Sensor.noise_level_ b <=? 0)%float; simpl; [split; [exact Fv|lra]|].
  set (c := wrap_int (noise_counter w + 1)).
  destruct (double_of_int_model c) as [Fc Hc].
  destruct const_0_1 as [F1 H1].
  assert (Ft : finite (double_of_int c * 0.1)%float).
  { apply (mul_finite _ _ 2 Fc F1 Hc). apply Rabs_le. lra. }
  destruct (HP _ Ft) as [Fs Hs]. pose proof u_small.
  set (t := (double_of_int c * 0.1)%float) in *.
  destruct (mul_bound (Sensor.noise_level_ b) (sin P t) 1 Fn Fs) as [Fm Hm];
    [nra|lra|].
  destruct (add_bound v (Sensor.noise_level_ b * sin P t)%float 1.13 Fv Fm)
    as [Fa Ha]; [nra|lra|].
  split; [exact Fa|]. nra.
Qed.

Lemma rate_bound (P : Platform) (c t : float) :
  signals_bounded P -> finite t -> finite c -> 0 <= B2R c <= 0.11 ->
  finite (c * sin P t)%float /\ -0.12 <= B2R (c * sin P t)%float <= 0.12.
Proof.
  intros HP Ft Fc Hc. destruct (HP t Ft) as [Fs Hs]. pose proof u_small.
  destruct (mul_bound c (sin P t) 0.11 Fc Fs) as [Fm Hm]; [nra|lra|].
  split; [exact Fm|]. nra.
Qed.

Lemma increment_bound (wv : float) :
  finite wv -> -1.14 <= B2R wv <= 1.14 ->
  finite (wv * 0.01 * 0.5)%float
  /\ -0.008 <= B2R (wv * 0.01 * 0.5)%float <= 0.008.
Proof.
  intros Fw Hw. pose proof u_small.
  destruct const_0_01 as [F1 H1]. destruct const_0_5 as [F5 H5].
  assert (Hp : -0.0126 <= B2R wv * B2R 0.01%float <= 0.0126) by nra.
  destruct (mul_bound wv 0.01 0.013 Fw F1) as [Fm Hm]; [lra|lra|].
  assert (E5 : B2R 0.5%float = 0.5) by lra.
  destruct (mul_bound (wv * 0.01) 0.5 0.007 Fm F5) as [Fm' Hm'];
    [rewrite E5; lra|lra|].
  split; [exact Fm'|]. rewrite E5 in Hm'. lra.
Qed.

(** ** Renormalising, over the reals *)

Lemma sqrt_le_1_03 (s : R) : 0 <= s <= 1.05 -> R_sqrt.sqrt s <= 1.03.
Proof.
  intros Hs. rewrite <- (sqrt_square 1.03) by lra.
  apply sqrt_le_1_alt. lra.
Qed.

Lemma sqrt_ge_0_97 (s : R) : 0.95 <= s -> 0.97 <= R_sqrt.sqrt s.
Proof.
  intros Hs. rewrite <- (sqrt_square 0.97) by lra.
  apply sqrt_le_1_alt. lra.
Qed.

Lemma quotient_bound (x n : R) :
  -1.02 <= x <= 1.02 -> 0.96 <= n -> -1.07 <= x / n <= 1.07.
Proof.
  intros Hx Hn.
  assert (Hi : 0 < / n <= 1.0417).
  { split; [apply Rinv_0_lt_compat; lra|].
    apply Rmult_le_reg_r with n; [lra|]. rewrite Rinv_l by lra. lra. }
  unfold Rdiv. nra.
Qed.

Lemma square_error (q t e b : R) :
  - e <= q - t <= e -> - b <= t <= b -> 0 <= e ->
  - (e * (2 * b + e)) <= q * q - t * t <= e * (2 * b + e).
Proof. intros Hq Ht He. split; nra. Qed.

(** Four components squared, summed, the root taken and each component
    divided by it, every operation within [e] of the exact one: the sum of
    the squares of the results is 1 within [100 * e]. *)
Lemma renormalize_real (e x0 x1 x2 x3 p0 p1 p2 p3 t1 t2 s n q0 q1 q2 q3 : R) :
  0 <= e <= 1 / 10 ^ 12 ->
  -1.02 <= x0 <= 1.02 -> -1.02 <= x1 <= 1.02 ->
  -1.02 <= x2 <= 1.02 -> -1.02 <= x3 <= 1.02 ->
  0.96 <= x0 * x0 + x1 * x1 + x2 * x2 + x3 * x3 <= 1.04 ->
  - e <= p0 - x0 * x0 <= e -> - e <= p1 - x1 * x1 <= e ->
  - e <= p2 - x2 * x2 <= e -> - e <= p3 - x3 * x3 <= e ->
  - e <= t1 - (p0 + p1) <= e ->
  - e <= t2 - (t1 + p2) <= e ->
  - e <= s - (t2 + p3) <= e ->
  0 <= s -> 0 <= n -> - e <= n - R_sqrt.sqrt s <= e ->
  - e <= q0 - x0 / n <= e -> - e <= q1 - x1 / n <= e ->
  - e <= q2 - x2 / n <= e -> - e <= q3 - x3 / n <= e ->
  - (100 * e) <= q0 * q0 + q1 * q1 + q2 * q2 + q3 * q3 - 1 <= 100 * e.
Proof.
  intros He H0 H1 H2 H3 HS Hp0 Hp1 Hp2 Hp3 Ht1 Ht2 Hs Hs0 Hn0 Hn Hq0 Hq1 Hq2 Hq3.
  set (S := x0 * x0 + x1 * x1 + x2 * x2 + x3 * x3) in *.
  assert (HsS : - (7 * e) <= s - S <= 7 * e) by (unfold S; lra).
  set (r := R_sqrt.sqrt s) in *.
  assert (Hr0 : 0 <= r) by apply sqrt_pos.
  assert (Hrr : r * r = s) by (apply sqrt_sqrt; exact Hs0).
  assert (Hr : 0.97 <= r <= 1.03).
  { unfold r. split; [apply sqrt_ge_0_97|apply sqrt_le_1_03]; lra. }
  assert (Hn' : 0.96 <= n <= 1.04) by lra.
  assert (Hnn : - (3 * e) <= n * n - s <= 3 * e).
  { replace (n * n - s) with ((n - r) * (n + r)) by (rewrite <- Hrr; ring).
    clear - He Hn Hr Hn'. split; nra. }
  assert (HnS : - (10 * e) <= n * n - S <= 10 * e) by lra.
  assert (Hnz : n <> 0) by lra.
  set (y0 := x0 / n) in *. set (y1 := x1 / n) in *.
  set (y2 := x2 / n) in *. set (y3 := x3 / n) in *.
  assert (Hy0 : -1.07 <= y0 <= 1.07) by (apply quotient_bound; lra).
  assert (Hy1 : -1.07 <= y1 <= 1.07) by (apply quotient_bound; lra).
  assert (Hy2 : -1.07 <= y2 <= 1.07) by (apply quotient_bound; lra).
  assert (Hy3 : -1.07 <= y3 <= 1.07) by (apply quotient_bound; lra).
  set (T := y0 * y0 + y1 * y1 + y2 * y2 + y3 * y3).
  assert (HT : T * (n * n) = S).
  { unfold T, S, y0, y1, y2, y3. field. exact Hnz. }
  assert (HT1 : - (11 * e) <= T - 1 <= 11 * e).
  { assert (Hnn' : 0.92 <= n * n) by (clear - Hn'; nra).
    assert (HTn : (T - 1) * (n * n) = S - n * n) by (rewrite <- HT; ring).
    clear - He Hnn' HTn HnS. split; nra. }
  pose proof (square_error q0 y0 e 1.07 Hq0 ltac:(lra) ltac:(lra)) as E0.
  pose proof (square_error q1 y1 e 1.07 Hq1 ltac:(lra) ltac:(lra)) as E1.
  pose proof (square_error q2 y2 e 1.07 Hq2 ltac:(lra) ltac:(lra)) as E2.
  pose proof (square_error q3 y3 e 1.07 Hq3 ltac:(lra) ltac:(lra)) as E3.
  assert (Hee : e * (2 * 1.07 + e) <= 3 * e) by (clear - He; nra).
  unfold T in HT1. lra.
Qed.

(** ** Renormalising, on floats *)

Lemma square_bound (x : float) :
  finite x -> -1.02 <= B2R x <= 1.02 ->
  finite (x * x)%float
  /\ - (6 * u) <= B2R (x * x)%float - B2R x * B2R x <= 6 * u.
Proof.
  intros Fx Hx. pose proof u_small.
  destruct (mul_bound x x 1.05 Fx Fx) as [Fm Hm]; [nra|lra|].
  split; [exact Fm|]. lra.
Qed.

Lemma renormalize_floats (x y z w : float) :
  finite x -> finite y -> finite z -> finite w ->
  -1.02 <= B2R x <= 1.02 -> -1.02 <= B2R y <= 1.02 ->
  -1.02 <= B2R z <= 1.02 -> -1.02 <= B2R w <= 1.02 ->
  0.96 <= sum_sq [x; y; z; w] <= 1.04 ->
  let norm := PrimFloat.sqrt (x * x + y * y + z * z + w * w)%float in
  (0 <? norm)%float = true
  /\ Forall finite [x / norm; y / norm; z / norm; w / norm]%float
  /\ - (1 / 10 ^ 12) <= sum_sq [x / norm; y / norm; z / norm; w / norm]%float - 1
     <= 1 / 10 ^ 12.
Proof.
  intros Fx Fy Fz Fw Hx Hy Hz Hw HS norm.
  unfold sum_sq, at_ in HS |- *. cbn [nth] in HS |- *.
  pose proof u_small as Hu.
  destruct (square_bound x Fx Hx) as [Fp0 Hp0].
  destruct (square_bound y Fy Hy) as [Fp1 Hp1].
  destruct (square_bound z Fz Hz) as [Fp2 Hp2].
  destruct (square_bound w Fw Hw) as [Fp3 Hp3].
  assert (Bx : 0 <= B2R x * B2R x <= 1.0404) by nra.
  assert (By : 0 <= B2R y * B2R y <= 1.0404) by nra.
  assert (Bz : 0 <= B2R z * B2R z <= 1.0404) by nra.
  assert (Bw : 0 <= B2R w * B2R w <= 1.0404) by nra.
  destruct (add_bound (x * x) (y * y) 2.2 Fp0 Fp1) as [Ft1 Ht1]; [lra|lra|].
  destruct (add_bound (x * x + y * y) (z * z) 3.3 Ft1 Fp2) as [Ft2 Ht2];
    [lra|lra|].
  destruct (add_bound (x * x + y * y + z * z) (w * w) 4.4 Ft2 Fp3)
    as [Fs Hs]; [lra|lra|].
  set (s := (x * x + y * y + z * z + w * w)%float) in *.
  assert (Hs' : 0.95 <= B2R s <= 1.05) by lra.
  destruct (sqrt_bound s 1.03 Fs) as (Fn & Hn0 & Hn);
    [lra|apply sqrt_le_1_03; lra|lra|]. fold norm in Fn, Hn0, Hn.
  assert (Hr : 0.97 <= R_sqrt.sqrt (B2R s)) by (apply sqrt_ge_0_97; lra).
  assert (Hn' : 0.96 <= B2R norm) by lra.
  assert (Hnz : B2R norm <> 0) by lra.
  pose proof (quotient_bound (B2R x) (B2R norm) Hx Hn') as Qx.
  pose proof (quotient_bound (B2R y) (B2R norm) Hy Hn') as Qy.
  pose proof (quotient_bound (B2R z) (B2R norm) Hz Hn') as Qz.
  pose proof (quotient_bound (B2R w) (B2R norm) Hw Hn') as Qw.
  destruct (div_bound x norm 1.07 Fx Fn Hnz) as [Fq0 Hq0]; [lra|lra|].
  destruct (div_bound y norm 1.07 Fy Fn Hnz) as [Fq1 Hq1]; [lra|lra|].
  destruct (div_bound z norm 1.07 Fz Fn Hnz) as [Fq2 Hq2]; [lra|lra|].
  destruct (div_bound w norm 1.07 Fw Fn Hnz) as [Fq3 Hq3]; [lra|lra|].
  split; [apply ltb_0_pos; [exact Fn|lra]|].
  split; [repeat constructor; assumption|].
  pose proof (renormalize_real (6 * u) (B2R x) (B2R y) (B2R z) (B2R w)
                (B2R (x * x)) (B2R (y * y)) (B2R (z * z)) (B2R (w * w))
                (B2R (x * x + y * y)) (B2R (x * x + y * y + z * z)) (B2R s)
                (B2R norm) (B2R (x / norm)) (B2R (y / norm))
                (B2R (z / norm)) (B2R (w / norm))) as H.
  assert (- (100 * (6 * u))
          <= B2R (x / norm) * B2R (x / norm) + B2R (y / norm) * B2R (y / norm)
             + B2R (z / norm) * B2R (z / norm) + B2R (w / norm) * B2R (w / norm)
             - 1 <= 100 * (6 * u)); [|lra].
  apply H; try lra.
Qed.

End Bounds.

(** * The actuator *)

Module ActuatorProps.
Import Actuator.

Lemma setTorque_eq (a : t) (c : float) (w : World) :
  setTorque a c w =
  ((true, {| name_ := name_ a;
             current_torque_ := clamp c (- max_torque_ a) (max_torque_ a);
             max_torque_ := max_torque_ a; gear_ratio_ := gear_ratio_ a;
             efficiency_ := efficiency_ a |}), w).
Proof. reflexivity. Qed.

Lemma commands_setTorque (a : t) (c : float) (w : World) :
  commands a (setTorque a c w).1.2 c.
Proof. intros w'. now rewrite !setTorque_eq. Qed.



(** A command that is not a number is stored as it is: both comparisons
    of [std::clamp] fail on it. *)
Remark setTorque_nan (a : t) (w : World) :
  is_nan (getTorque (setTorque a nan w).1.2) = true.
Proof.
  rewrite setTorque_eq. unfold getTorque, clamp. simpl.
  assert (H1 : (nan <? - max_torque_ a) = false).
  { rewrite FloatAxioms.ltb_spec. reflexivity. }
  assert (H2 : (max_torque_ a <? nan) = false).
  { rewrite FloatAxioms.ltb_spec. unfold SFltb.
    change (Prim2SF nan) with S754_nan.
    now destruct (Prim2SF (max_torque_ a)). }
  now rewrite H1, H2.
Qed.


End ActuatorProps.

(** * The safety monitor *)

Module SafetyMonitorProps.
Import SafetyMonitor.

(** ** The three loops *)

Lemma first_unsafe_none (h : Store) (ps : list ptr) :
  (forall p, p ∈ ps -> is_Some (controllers h !! p)) ->
  (forall p c, p ∈ ps -> controllers h !! p = Some c ->
               JointController.isSafe c = true) ->
  first_unsafe h ps = Some None.
Proof.
  induction ps as [|p ps IH]; intros Hlive Hsafe; simpl; [reflexivity|].
  destruct (Hlive p) as [c Hc]; [left|]. rewrite Hc. simpl.
  rewrite (Hsafe p c); [|left|assumption]. simpl.
  apply IH; intros; [apply Hlive | eapply Hsafe]; eauto; now right.
Qed.

Lemma first_unsafe_some (h : Store) (ps : list ptr) :
  (forall p, p ∈ ps -> is_Some (controllers h !! p)) ->
  (exists p c, p ∈ ps /\ controllers h !! p = Some c
               /\ JointController.isSafe c = false) ->
  exists p, first_unsafe h ps = Some (Some p).
Proof.
  induction ps as [|p ps IH]; intros Hlive (q & c & Hq & Hc & Hu).
  - inversion Hq.
  - simpl. destruct (Hlive p) as [c' Hc']; [left|]. rewrite Hc'. simpl.
    destruct (JointController.isSafe c') eqn:Hs; simpl; [|eauto].
    apply IH; [intros; apply Hlive; now right|].
    apply elem_of_cons in Hq as [->|Hq]; [congruence|eauto 6].
Qed.

Lemma first_disconnected_joint_none (h : Store) (ps : list ptr) :
  (forall p, p ∈ ps -> is_Some (joint_sensors h !! p)) ->
  (forall p s, p ∈ ps -> joint_sensors h !! p = Some s ->
               JointSensor.isConnected s = true) ->
  first_disconnected_joint h ps = Some None.
Proof.
  induction ps as [|p ps IH]; intros Hlive Hconn; simpl; [reflexivity|].
  destruct (Hlive p) as [s Hs]; [left|]. rewrite Hs. simpl.
  rewrite (Hconn p s); [|left|assumption]. simpl.
  apply IH; intros; [apply Hlive | eapply Hconn]; eauto; now right.
Qed.

Lemma first_disconnected_joint_some (h : Store) (ps : list ptr) :
  (forall p, p ∈ ps -> is_Some (joint_sensors h !! p)) ->
  (exists p s, p ∈ ps /\ joint_sensors h !! p = Some s
               /\ JointSensor.isConnected s = false) ->
  exists p, first_disconnected_joint h ps = Some (Some p).
Proof.
  induction ps as [|p ps IH]; intros Hlive (q & s & Hq & Hs & Hd).
  - inversion Hq.
  - simpl. destruct (Hlive p) as [s' Hs']; [left|]. rewrite Hs'. simpl.
    destruct (JointSensor.isConnected s') eqn:Hc; simpl; [|eauto].
    apply IH; [intros; apply Hlive; now right|].
    apply elem_of_cons in Hq as [->|Hq]; [congruence|eauto 6].
Qed.

Lemma first_disconnected_joint_total (h : Store) (ps : list ptr) :
  (forall p, p ∈ ps -> is_Some (joint_sensors h !! p)) ->
  is_Some (first_disconnected_joint h ps).
Proof.
  induction ps as [|p ps IH]; intros Hlive; simpl; [eauto|].
  destruct (Hlive p) as [s Hs]; [left|]. rewrite Hs. simpl.
  destruct (negb _); [eauto|]. apply IH. intros; apply Hlive; now right.
Qed.

Lemma first_disconnected_imu_none (h : Store) (ps : list ptr) :
  (forall p, p ∈ ps -> is_Some (imu_sensors h !! p)) ->
  (forall p s, p ∈ ps -> imu_sensors h !! p = Some s ->
               ImuSensor.isConnected s = true) ->
  first_disconnected_imu h ps = Some None.
Proof.
  induction ps as [|p ps IH]; intros Hlive Hconn; simpl; [reflexivity|].
  destruct (Hlive p) as [s Hs]; [left|]. rewrite Hs. simpl.
  rewrite (Hconn p s); [|left|assumption]. simpl.
  apply IH; intros; [apply Hlive | eapply Hconn]; eauto; now right.
Qed.

Lemma first_disconnected_imu_some (h : Store) (ps : list ptr) :
  (forall p, p ∈ ps -> is_Some (imu_sensors h !! p)) ->
  (exists p s, p ∈ ps /\ imu_sensors h !! p = Some s
               /\ ImuSensor.isConnected s = false) ->
  exists p, first_disconnected_imu h ps = Some (Some p).
Proof.
  induction ps as [|p ps IH]; intros Hlive (q & s & Hq & Hs & Hd).
  - inversion Hq.
  - simpl. destruct (Hlive p) as [s' Hs']; [left|]. rewrite Hs'. simpl.
    destruct (ImuSensor.isConnected s') eqn:Hc; simpl; [|eauto].
    apply IH; [intros; apply Hlive; now right|].
    apply elem_of_cons in Hq as [->|Hq]; [congruence|eauto 6].
Qed.

(** ** The latch *)

(** Once the emergency stop is active, no operation clears it, every
    operation is defined, and [checkSafety] answers [false]. *)
Lemma step_latched (m : t) (o : op) :
  emergency_stop_active_ m = true ->
  exists r m', step m o = Some (r, m')
               /\ emergency_stop_active_ m' = true
               /\ (forall h, o = CheckSafety h -> r = Some false).
Proof.
  intros Hm. destruct o; simpl; unfold checkSafety; rewrite ?Hm; simpl;
    eexists _, _; (split; [reflexivity|]); (split; [done|]);
    intros; congruence.
Qed.

Lemma run_latched (os : list op) (m : t) :
  emergency_stop_active_ m = true ->
  exists rs m', run m os = Some (rs, m')
                /\ emergency_stop_active_ m' = true
                /\ (forall i h, os !! i = Some (CheckSafety h) ->
                                rs !! i = Some (Some false)).
Proof.
  revert m. induction os as [|o os IH]; intros m Hm; simpl.
  - eexists _, _. split; [reflexivity|]. split; [done|]. intros i h Hi.
    now rewrite lookup_nil in Hi.
  - destruct (step_latched m o Hm) as (r & m1 & -> & Hm1 & Hr). simpl.
    destruct (IH m1 Hm1) as (rs & m2 & -> & Hm2 & Hrs). simpl.
    eexists _, _. split; [reflexivity|]. split; [done|].
    intros [|i] h Hi; simpl in *.
    + f_equal. apply (Hr h). congruence.
    + eauto.
Qed.

(** C1.  When a controller registered with the monitor is not safe at a call
    of [checkSafety], that call answers [false] and leaves the emergency
    stop active; after it, whatever operations of the monitor follow and
    whatever the joints' states are by then, every [checkSafety] answers
    [false] and the emergency stop is still active: no operation clears
    it. *)
Theorem checkSafety_latches (m : t) (h : Store) :
  live m h ->
  some_controller_unsafe m h ->
  exists m', checkSafety m h = Some (false, m')
    /\ emergency_stop_active_ m' = true
    /\ forall os : list op, exists rs m'',
         run m' os = Some (rs, m'')
         /\ emergency_stop_active_ m'' = true
         /\ (forall i h', os !! i = Some (CheckSafety h') ->
                          rs !! i = Some (Some false)).
Proof.
  intros (Hc & _ & _) Hu.
  assert (exists m', checkSafety m h = Some (false, m')
                     /\ emergency_stop_active_ m' = true) as (m' & Hm' & Ha).
  { unfold checkSafety. destruct (emergency_stop_active_ m) eqn:Hm; [eauto|].
    destruct (first_unsafe_some h (controllers_ m) Hc Hu) as [p ->]. simpl.
    eauto. }
  exists m'. split; [done|]. split; [done|].
  intros os. now apply run_latched.
Qed.

Lemma live_monitor2 (h : Store) :
  is_Some (controllers h !! 0%nat) -> is_Some (controllers h !! 1%nat) ->
  is_Some (joint_sensors h !! 2%nat) -> is_Some (imu_sensors h !! 3%nat) ->
  live monitor2 h.
Proof.
  intros H0 H1 H2 H3. repeat split; intros p Hp; simpl in Hp;
    repeat (apply elem_of_cons in Hp as [->|Hp]); try done;
    now apply elem_of_nil in Hp.
Qed.

Lemma checkSafety_latches_witness :
  exists m', checkSafety monitor2 store_overheated = Some (false, m')
    /\ emergency_stop_active_ m' = true
    /\ forall os : list op, exists rs m'',
         run m' os = Some (rs, m'')
         /\ emergency_stop_active_ m'' = true
         /\ (forall i h', os !! i = Some (CheckSafety h') ->
                          rs !! i = Some (Some false)).
Proof.
  apply (checkSafety_latches monitor2 store_overheated).
  - apply live_monitor2; eexists; vm_compute; reflexivity.
  - exists 1%nat, (controller_at (fresh_controller "left_knee") overheated).
    split; [|split]; [|vm_compute; reflexivity..].
    right. left.
Defined.

(** An example of the latch at work: the knee overheats, then cools down;
    the monitor answers [true], [false], [false]. *)
Example latch_run :
  (run monitor2 [CheckSafety store_ok; CheckSafety store_overheated;
                 CheckSafety store_ok]
   ≫= fun r => Some r.1)
  = Some [Some true; Some false; Some false].
Proof. vm_compute. reflexivity. Qed.

(** ** Disconnected sensors *)

(** C7.  With the emergency stop inactive and every registered controller
    safe, a registered sensor that is not connected makes [checkSafety]
    answer [false] and leaves the monitor as it was, the emergency stop
    still inactive; a later call that finds every sensor connected and every
    controller safe answers [true]. *)
Theorem disconnected_sensor_does_not_latch (m : t) (h : Store) :
  live m h ->
  emergency_stop_active_ m = false ->
  all_controllers_safe m h ->
  some_sensor_disconnected m h ->
  checkSafety m h = Some (false, m)
  /\ emergency_stop_active_ m = false
  /\ forall h', live m h' -> all_controllers_safe m h' ->
                all_sensors_connected m h' ->
                checkSafety m h' = Some (true, m).
Proof.
  intros (Hc & Hj & Hi) Hm Hsafe Hdis. split; [|split; [done|]].
  - unfold checkSafety. rewrite Hm.
    rewrite (first_unsafe_none h (controllers_ m) Hc Hsafe). simpl.
    destruct Hdis as [Hd|Hd].
    + now destruct (first_disconnected_joint_some h _ Hj Hd) as [p ->].
    + destruct (first_disconnected_joint_total h _ Hj) as [[p|] ->]; simpl;
        [done|].
      now destruct (first_disconnected_imu_some h _ Hi Hd) as [p ->].
  - intros h' (Hc' & Hj' & Hi') Hsafe' (Hcj & Hci).
    unfold checkSafety. rewrite Hm.
    rewrite (first_unsafe_none h' (controllers_ m) Hc' Hsafe'). simpl.
    rewrite (first_disconnected_joint_none h' _ Hj' Hcj). simpl.
    now rewrite (first_disconnected_imu_none h' _ Hi' Hci).
Qed.

Lemma all_controllers_safe_monitor2 (h : Store) :
  (forall c, controllers h !! 0%nat = Some c -> JointController.isSafe c = true) ->
  (forall c, controllers h !! 1%nat = Some c -> JointController.isSafe c = true) ->
  all_controllers_safe monitor2 h.
Proof.
  intros H0 H1 p c Hp Hc. simpl in Hp.
  repeat (apply elem_of_cons in Hp as [->|Hp]); eauto.
  now apply elem_of_nil in Hp.
Qed.

Lemma disconnected_sensor_does_not_latch_witness :
  checkSafety monitor2 store_unplugged = Some (false, monitor2)
  /\ emergency_stop_active_ monitor2 = false
  /\ checkSafety monitor2 store_ok = Some (true, monitor2).
Proof.
  destruct (disconnected_sensor_does_not_latch monitor2 store_unplugged)
    as (H1 & H2 & H3).
  - apply live_monitor2; eexists; vm_compute; reflexivity.
  - reflexivity.
  - apply all_controllers_safe_monitor2; intros c Hc; vm_compute in Hc;
      injection Hc as <-; vm_compute; reflexivity.
  - left. exists 2%nat, (unplugged (fresh_joint_sensor "left_hip_pos_sensor")).
    split; [|split]; [|vm_compute; reflexivity..].
    left.
  - split; [exact H1|]. split; [exact H2|]. apply H3.
    + apply live_monitor2; eexists; vm_compute; reflexivity.
    + apply all_controllers_safe_monitor2; intros c Hc; vm_compute in Hc;
        injection Hc as <-; vm_compute; reflexivity.
    + split; intros p s Hp Hs; simpl in Hp;
        repeat (apply elem_of_cons in Hp as [->|Hp]);
        try (now apply elem_of_nil in Hp);
        vm_compute in Hs; injection Hs as <-; vm_compute; reflexivity.
Defined.

End SafetyMonitorProps.

(** * The joint controller *)

Module JointControllerProps.
Import JointController.

(** One control step of an enabled controller, in terms of what it
    measures: the command sent to the actuator and recorded in the joint
    state is the limited command. *)
Lemma update_enabled (P : Platform) (c : t) (dt : float) (w : World) :
  enabled_ c = true ->
  let r := JointSensor.read P (position_sensor_ c) w in
  let state := measured P c w in
  let error := target_position_ c - position state in
  let tau := limited_command c state dt in
  update P c dt w =
  (set_step c (Actuator.setTorque (actuator_ c) tau r.2).1.2
     (JointSensor.setState r.1
        {| position := position state; velocity := velocity state;
           torque := tau; temperature := temperature state;
           timestamp := timestamp state |})
     (error_sum_ c + error * dt) error,
   r.2).
Proof.
  intros He. unfold update, measured. rewrite He. simpl.
  unfold mbind, M_bind at 1.
  destruct (JointSensor.read P (position_sensor_ c) w) as [ps w1]. simpl.
  reflexivity.
Qed.

Lemma update_disabled (P : Platform) (c : t) (dt : float) (w : World) :
  enabled_ c = false -> update P c dt w = (c, w).
Proof. intros He. unfold update. now rewrite He. Qed.

Lemma update_commands (P : Platform) (c : t) (dt : float) (w : World) :
  enabled_ c = true ->
  commands (actuator_ c) (actuator_ (update P c dt w).1)
           (limited_command c (measured P c w) dt).
Proof.
  intros He. rewrite (update_enabled P c dt w He). simpl.
  intros w'. reflexivity.
Qed.

(** ** The velocity interlock *)

(** When the test of the interlock succeeds on what an enabled controller
    measures, the command its control step arrives at is 0 and
    [setTorque(0)] is what the actuator receives, whatever the PID terms
    are and whether or not thermal derating engages as well. *)
Lemma interlock_zeroes_command (P : Platform) (c : t)
    (dt : float) (w : World) :
  enabled_ c = true ->
  interlock_engaged c (measured P c w) = true ->
  limited_command c (measured P c w) dt = 0
  /\ commands (actuator_ c) (actuator_ (update P c dt w).1) 0.
Proof.
  intros He Hv.
  assert (H0 : limited_command c (measured P c w) dt = 0).
  { unfold limited_command. rewrite Hv.
    now destruct (derating_engaged c (measured P c w)). }
  split; [exact H0|]. rewrite <- H0. now apply update_commands.
Qed.

Lemma interlock_zeroes_command_at_6 :
  let c := controller_at hip_to_one fast_and_hot in
  raw_pid_output c (measured still c world0) 0.005 = 1100.05
  /\ derating_engaged c (measured still c world0) = true
  /\ limited_command c (measured still c world0) 0.005 = 0
  /\ commands (actuator_ c) (actuator_ (update still c 0.005 world0).1) 0.
Proof.
  intros c. split; [reflexivity|]. split; [reflexivity|].
  apply (interlock_zeroes_command still c 0.005 world0); reflexivity.
Qed.

(** C2, where the code departs from it.  The test of the interlock is made
    on [abs(state.velocity)], and [abs] discards the fraction of its
    argument: a measured velocity of 5.5 rad/s is beyond the limit of 5,
    but the test compares 5 with 5 and the interlock stays off.  Told to go
    to 1 rad from rest, the controller then commands the raw PID output,
    1100.05 N.m, of which the actuator holds its maximum of 50, and not
    0. *)
Theorem velocity_interlock_discards_fraction :
  let c := controller_at hip_to_one brisk in
  let state := measured still c world0 in
  let c' := (update still c 0.005 world0).1 in
  enabled_ c = true
  /\ velocity state = 5.5
  /\ max_velocity_ c = 5
  /\ velocity_exceeds_limit c state = true
  /\ interlock_engaged c state = false
  /\ limited_command c state 0.005 = 1100.05
  /\ commands (actuator_ c) (actuator_ c') 1100.05
  /\ ~ commands (actuator_ c) (actuator_ c') 0
  /\ Actuator.getTorque (actuator_ c') = 50
  /\ torque (getState c') = 1100.05.
Proof.
  intros c state c'.
  assert (Hc : commands (actuator_ c) (actuator_ c') 1100.05).
  { subst c'. change 1100.05 with (limited_command c state 0.005).
    now apply update_commands. }
  split_and!; try reflexivity; [exact Hc|].
  intros H. specialize (H world0).
  apply (f_equal (fun r => Actuator.getTorque r.1.2 <? 1)) in H.
  vm_compute in H. discriminate H.
Qed.

(** ** Thermal derating *)

(** C5.  When an enabled controller measures a temperature above nine
    tenths of its limit and the velocity interlock is not engaged, the
    command its control step arrives at, and sends to the actuator, is the
    raw PID output times 0.5.  That product is exactly half of the output,
    as a real number, whenever the output is finite and not below [2^-1021]
    in magnitude, where halving would underflow.  The interlock is not
    engaged when the test [update] makes fails, as it does for every
    velocity within the limit. *)
Theorem thermal_derating_halves_command (P : Platform) (c : t)
    (dt : float) (w : World) :
  enabled_ c = true ->
  derating_engaged c (measured P c w) = true ->
  interlock_engaged c (measured P c w) = false ->
  let raw := raw_pid_output c (measured P c w) dt in
  limited_command c (measured P c w) dt = raw * 0.5
  /\ commands (actuator_ c) (actuator_ (update P c dt w).1) (raw * 0.5)
  /\ (finite raw -> (pow2 (-1021) <= Rabs (B2R raw))%R ->
      B2R (limited_command c (measured P c w) dt) = (B2R raw / 2)%R).
Proof.
  intros He Ht Hv raw.
  assert (H0 : limited_command c (measured P c w) dt = raw * 0.5).
  { unfold limited_command. now rewrite Hv, Ht. }
  split; [exact H0|]. split.
  - rewrite <- H0. now apply update_commands.
  - intros Hf Hm. rewrite H0. now apply Rounding.mul_half_exact.
Qed.

Lemma thermal_derating_halves_command_witness :
  let c := controller_at hip_to_one hot in
  raw_pid_output c (measured still c world0) 0.005 = 1100.05
  /\ limited_command c (measured still c world0) 0.005 = 550.025
  /\ commands (actuator_ c) (actuator_ (update still c 0.005 world0).1)
       550.025.
Proof.
  intros c. split; [reflexivity|].
  destruct (thermal_derating_halves_command still c 0.005 world0)
    as (H1 & H2 & _); [reflexivity..|].
  split; [exact H1 | exact H2].
Defined.

(** ** A step from rest *)

(** C9.  With target 0, gains 100, 10 and 5 and a step of 0.01, an enabled
    controller that starts from rest (no accumulated error, no previous
    error) and measures position 0 and velocity 0 sends [setTorque(0)] to
    the actuator. *)
Theorem update_from_rest (P : Platform) (c : t) (w : World) :
  enabled_ c = true ->
  target_position_ c = 0 ->
  kp_ c = 100 -> ki_ c = 10 -> kd_ c = 5 ->
  error_sum_ c = 0 -> last_error_ c = 0 ->
  position (measured P c w) = 0 ->
  velocity (measured P c w) = 0 ->
  limited_command c (measured P c w) 0.01 = 0
  /\ commands (actuator_ c) (actuator_ (update P c 0.01 w).1) 0.
Proof.
  intros He Ht Hp Hi Hd Hs Hl Hpos Hvel.
  assert (H0 : limited_command c (measured P c w) 0.01 = 0).
  { unfold limited_command, raw_pid_output.
    rewrite Ht, Hp, Hi, Hd, Hs, Hl, Hpos.
    now destruct (interlock_engaged _ _), (derating_engaged _ _). }
  split; [exact H0|]. rewrite <- H0. now apply update_commands.
Qed.

Lemma update_from_rest_witness :
  let c := fresh_controller "left_hip" in
  limited_command c (measured still c world0) 0.01 = 0
  /\ commands (actuator_ c) (actuator_ (update still c 0.01 world0).1) 0.
Proof.
  intros c. apply (update_from_rest still c world0); reflexivity.
Defined.

(** ** The torque recorded in the joint state *)

(** The actuator never holds more than its limit, whatever it is sent. *)
Lemma setTorque_not_above (a : Actuator.t) (tau : float) (w : World) :
  (0 <=? Actuator.max_torque_ a) = true ->
  (Actuator.max_torque_ a <? Actuator.getTorque (Actuator.setTorque a tau w).1.2)
  = false.
Proof.
  intros Hmax. rewrite ActuatorProps.setTorque_eq.
  unfold Actuator.getTorque, clamp. simpl.
  pose proof (Binary64.opp_leb_self _ Hmax) as Hb.
  destruct (tau <? - Actuator.max_torque_ a).
  - now apply Binary64.leb_not_ltb.
  - destruct (Actuator.max_torque_ a <? tau) eqn:H2; [|exact H2].
    apply Binary64.leb_not_ltb, Binary64.leb_refl.
    now apply (Binary64.leb_is_nan_r 0).
Qed.

(** C10.  After a control step of an enabled controller, the torque in the
    joint state its position sensor holds is the limited command, as it is
    before the actuator clamps it, while the actuator holds the clamped
    command, which is never above its limit.  The recorded torque can
    therefore exceed the limit: told to go to 1 rad from rest, the
    controller records 1100.05 N.m while its actuator holds 50. *)
Theorem recorded_torque_is_unclamped :
  (forall (P : Platform) (c : t) (dt : float) (w : World),
     enabled_ c = true ->
     let c' := (update P c dt w).1 in
     let tau := limited_command c (measured P c w) dt in
     let max_torque := Actuator.max_torque_ (actuator_ c) in
     torque (JointSensor.getState (position_sensor_ c')) = tau
     /\ Actuator.getTorque (actuator_ c') = clamp tau (- max_torque) max_torque
     /\ ((0 <=? max_torque) = true ->
         (max_torque <? Actuator.getTorque (actuator_ c')) = false))
  /\ (let c' := (update still hip_to_one 0.005 world0).1 in
      enabled_ hip_to_one = true
      /\ Actuator.getMaxTorque (actuator_ c') = 50
      /\ torque (getState c') = 1100.05
      /\ (Actuator.getMaxTorque (actuator_ c') <? torque (getState c')) = true
      /\ Actuator.getTorque (actuator_ c') = 50).
Proof.
  split.
  - intros P c dt w He c' tau max_torque. subst c'.
    rewrite (update_enabled P c dt w He). simpl. fold tau.
    split; [reflexivity|]. split; [reflexivity|].
    intros Hmax.
    apply (setTorque_not_above (actuator_ c) tau w Hmax).
  - vm_compute. repeat split.
Qed.

Lemma recorded_torque_is_unclamped_witness :
  let c' := (update still (controller_at hip_to_one hot) 0.005 world0).1 in
  torque (JointSensor.getState (position_sensor_ c')) = 550.025
  /\ Actuator.getTorque (actuator_ c') = 50.
Proof.
  intros c'.
  destruct (proj1 recorded_torque_is_unclamped still
              (controller_at hip_to_one hot) 0.005 world0 eq_refl)
    as (H1 & H2 & _).
  split; [exact H1 | exact H2].
Defined.

(** ** A step of length zero *)

Lemma raw_pid_output_zero_dt (c : t) (state : JointState) :
  is_finite (raw_pid_output c state 0) = false.
Proof.
  unfold raw_pid_output.
  apply Binary64.add_not_finite_r, Binary64.mul_not_finite_r,
    Binary64.div_zero_not_finite.
Qed.

(** C6, as the code has it.  [update] has no guard against [dt = 0]: it
    divides by [dt] as for any other step.  With [dt = 0] the division gives
    NaN or an infinity, so does the raw PID output, and, unless the velocity
    interlock puts 0 in its place, that value is the command sent to the
    actuator and recorded in the joint state. *)
Theorem zero_dt_is_divided_by (P : Platform) (c : t) (w : World) :
  enabled_ c = true ->
  interlock_engaged c (measured P c w) = false ->
  let tau := limited_command c (measured P c w) 0 in
  is_finite (raw_pid_output c (measured P c w) 0) = false
  /\ is_finite tau = false
  /\ commands (actuator_ c) (actuator_ (update P c 0 w).1) tau
  /\ torque (getState (update P c 0 w).1) = tau.
Proof.
  intros He Hv tau.
  pose proof (raw_pid_output_zero_dt c (measured P c w)) as Hraw.
  split; [exact Hraw|]. split; [|split].
  - subst tau. unfold limited_command. rewrite Hv.
    destruct (derating_engaged c (measured P c w)); [|exact Hraw].
    now apply Binary64.mul_not_finite_l.
  - now apply update_commands.
  - rewrite (update_enabled P c 0 w He). reflexivity.
Qed.

Lemma zero_dt_is_divided_by_witness :
  let c := fresh_controller "left_hip" in
  is_nan (raw_pid_output c (measured still c world0) 0) = true
  /\ is_finite (limited_command c (measured still c world0) 0) = false
  /\ is_nan (torque (getState (update still c 0 world0).1)) = true.
Proof.
  intros c.
  destruct (zero_dt_is_divided_by still c world0) as (_ & H2 & _ & H4);
    [reflexivity..|].
  split; [reflexivity|]. split; [exact H2|]. rewrite H4. reflexivity.
Defined.

(** From rest and with no error measured, the raw PID output of a positive
    finite step is 0. *)
Lemma raw_pid_output_at_rest (c : t) (state : JointState) (dt : float) :
  target_position_ c = 0 ->
  kp_ c = 100 -> ki_ c = 10 -> kd_ c = 5 ->
  error_sum_ c = 0 -> last_error_ c = 0 ->
  position state = 0 ->
  (0 <? dt) = true -> is_finite dt = true ->
  raw_pid_output c state dt = 0.
Proof.
  intros Ht Hp Hi Hd Hs Hl Hpos Hdt Hf. unfold raw_pid_output.
  rewrite Ht, Hp, Hi, Hd, Hs, Hl, Hpos.
  change (0 - 0) with 0. change (0 - 0) with 0.
  rewrite (Binary64.zero_mul_pos dt Hdt Hf), (Binary64.zero_div_pos dt Hdt Hf).
  reflexivity.
Qed.

(** With a positive finite step, the fresh controller commands 0. *)
Lemma fresh_controller_positive_dt (dt : float) :
  (0 <? dt) = true -> is_finite dt = true ->
  torque (getState (update still (fresh_controller "left_hip") dt world0).1)
  = 0.
Proof.
  intros Hp Hf. rewrite update_enabled by reflexivity. simpl.
  unfold limited_command.
  change (interlock_engaged _ _) with false.
  change (derating_engaged _ _) with false. simpl.
  now apply raw_pid_output_at_rest.
Qed.

(** C6, as stated, fails: on a fresh controller [update(0)] computes 0/0;
    the NaN reaches the actuator and the joint state, so the call was not
    rejected, and it differs from every call with a positive finite step,
    which commands 0. *)
Lemma zero_dt_not_guarded :
  let c := fresh_controller "left_hip" in
  let c' := (update still c 0 world0).1 in
  is_nan (torque (getState c')) = true
  /\ is_nan (Actuator.getTorque (actuator_ c')) = true
  /\ ~ zero_dt_guarded still c world0.
Proof.
  intros c c'. split; [reflexivity|]. split; [reflexivity|].
  assert (Hnan : is_nan (torque (getState (update still c 0 world0).1)) = true)
    by reflexivity.
  intros [Hrej | (dt' & Hp & Hf & Heq)].
  - rewrite Hrej in Hnan. discriminate Hnan.
  - rewrite Heq in Hnan. subst c.
    rewrite (fresh_controller_positive_dt dt' Hp Hf) in Hnan.
    discriminate Hnan.
Qed.

End JointControllerProps.

(** * Sensor fusion *)

Module SensorFusionProps.
Import SensorFusion.

(** What [m[key]] leaves: the map itself when it holds the key, the map
    with a default value at the key otherwise; the clock has been read in
    the second case. *)
Lemma subscript_spec {A : Type} (default : M A) (m : gmap string A)
    (key : string) (w : World) :
  subscript default m key w
  = match m !! key with
    | Some _ => (m, w)
    | None => (<[key := (default w).1]> m, (default w).2)
    end.
Proof.
  unfold subscript. destruct (m !! key); [reflexivity|].
  unfold mbind, M_bind. now destruct (default w).
Qed.

(** The assignment [m[key] = v] leaves [v] at the key, whether or not a
    default value has been there in between. *)
Lemma insert_subscript {A : Type} (default : M A) (m : gmap string A)
    (key : string) (v : A) (w : World) :
  <[key := v]> (subscript default m key w).1 = <[key := v]> m.
Proof.
  rewrite subscript_spec. destruct (m !! key); [reflexivity|].
  apply insert_insert_eq.
Qed.

Lemma updateJointState_eq (P : Platform) (f : t) (joint_name : string)
    (state : JointState) (w : World) :
  updateJointState P f joint_name state w
  = (let f' := {| joint_states_ := <[joint_name := state]> (joint_states_ f);
                  imu_data_ := imu_data_ f;
                  balance_estimate_ := balance_estimate_ f;
                  confidence_ := confidence_ f |} in
     if find joint_name "hip" is Some _
     then updateBalanceEstimate f' (position state) else f',
     (subscript (JointState_new P) (joint_states_ f) joint_name w).2).
Proof.
  rewrite <- (insert_subscript (JointState_new P) _ _ _ w).
  unfold updateJointState, mbind, M_bind.
  now destruct (subscript _ _ _ w).
Qed.

Lemma updateImuData_eq (P : Platform) (f : t) (sensor_name : string)
    (data : ImuData) (w : World) :
  updateImuData P f sensor_name data w
  = (updateBalanceEstimateFromImu P
       {| joint_states_ := joint_states_ f;
          imu_data_ := <[sensor_name := data]> (imu_data_ f);
          balance_estimate_ := balance_estimate_ f;
          confidence_ := confidence_ f |} (orientation data),
     (subscript (ImuData_new P) (imu_data_ f) sensor_name w).2).
Proof.
  rewrite <- (insert_subscript (ImuData_new P) _ _ _ w).
  unfold updateImuData, mbind, M_bind.
  now destruct (subscript _ _ _ w).
Qed.

Lemma updateJointState_hip (P : Platform) (f : t) (joint_name : string)
    (state : JointState) (w : World) :
  names_hip joint_name ->
  getBalanceEstimate (updateJointState P f joint_name state w).1
  = 0.7 * getBalanceEstimate f + 0.3 * position state.
Proof.
  intros [i Hi]. rewrite updateJointState_eq. cbn [fst]. now rewrite Hi.
Qed.

Lemma updateJointState_other (P : Platform) (f : t) (joint_name : string)
    (state : JointState) (w : World) :
  find joint_name "hip" = None ->
  getBalanceEstimate (updateJointState P f joint_name state w).1
  = getBalanceEstimate f.
Proof.
  intros Hn. rewrite updateJointState_eq. cbn [fst]. now rewrite Hn.
Qed.

Lemma updateJointState_stored (P : Platform) (f : t) (joint_name : string)
    (state : JointState) (w : World) :
  getJointStates (updateJointState P f joint_name state w).1 !! joint_name
  = Some state.
Proof.
  rewrite updateJointState_eq. cbn [fst].
  destruct (find joint_name "hip"); simpl; apply lookup_insert_eq.
Qed.

Lemma updateImuData_estimate (P : Platform) (f : t) (sensor_name : string)
    (data : ImuData) (w : World) :
  getBalanceEstimate (updateImuData P f sensor_name data w).1
  = 0.8 * getBalanceEstimate f + 0.2 * roll P (orientation data).
Proof. rewrite updateImuData_eq. reflexivity. Qed.

(** C8.  An update with the state of a hip joint takes the balance estimate
    [e] to [0.7 * e + 0.3 * position], an update with an IMU sample takes it
    to [0.8 * e + 0.2 * roll], and successive updates compose in the order
    of the calls.  From an estimate of 0, a hip joint at 0.5 gives 0.15, and
    a roll of 0.1 then gives 0.14. *)
Theorem balance_estimate_fusion (P : Platform) (f : t)
    (joint_name sensor_name : string) (state : JointState) (data : ImuData)
    (w : World) :
  names_hip joint_name ->
  let r1 := updateJointState P f joint_name state w in
  let f1 := r1.1 in
  let f2 := (updateImuData P f1 sensor_name data r1.2).1 in
  getBalanceEstimate f1 = 0.7 * getBalanceEstimate f + 0.3 * position state
  /\ getBalanceEstimate f2
     = 0.8 * (0.7 * getBalanceEstimate f + 0.3 * position state)
       + 0.2 * roll P (orientation data)
  /\ (getBalanceEstimate f = 0 -> position state = 0.5 ->
      getBalanceEstimate f1 = 0.15
      /\ (roll P (orientation data) = 0.1 -> getBalanceEstimate f2 = 0.14)).
Proof.
  intros Hhip r1 f1 f2.
  assert (H1 : getBalanceEstimate f1
               = 0.7 * getBalanceEstimate f + 0.3 * position state)
    by now apply updateJointState_hip.
  assert (H2 : getBalanceEstimate f2
               = 0.8 * getBalanceEstimate f1 + 0.2 * roll P (orientation data))
    by apply updateImuData_estimate.
  split; [exact H1|]. split; [now rewrite H2, H1|].
  intros He Hp. rewrite He, Hp in H1. split; [exact H1|].
  intros Hr. rewrite H2, H1, Hr. reflexivity.
Qed.

Lemma balance_estimate_fusion_witness :
  let state := {| position := 0.5; velocity := 0; torque := 0;
                  temperature := 25; timestamp := 0 |} in
  let data := ImuSensor.getData (fresh_imu_sensor "torso_imu") in
  let r1 := updateJointState rolled SensorFusion.new "left_hip" state
              world0 in
  let f1 := r1.1 in
  let f2 := (updateImuData rolled f1 "torso_imu" data r1.2).1 in
  getBalanceEstimate f1 = 0.15 /\ getBalanceEstimate f2 = 0.14.
Proof.
  intros state data r1 f1 f2.
  destruct (balance_estimate_fusion rolled SensorFusion.new "left_hip"
              "torso_imu" state data world0) as (_ & _ & H).
  - exists 5%nat. reflexivity.
  - destruct H as [H1 H2]; [reflexivity..|].
    split; [exact H1 | apply H2; reflexivity].
Defined.

End SensorFusionProps.

(** * The IMU sensor *)

Module ImuSensorProps.
Import Rounding Bounds.
#[local] Open Scope float_scope.

#[local] Open Scope R_scope.

Lemma read_orientation (P : Platform) (s : ImuSensor.t) (w : World) :
  signals_bounded P -> clock_bounded P -> noise_bounded (ImuSensor.base s) ->
  exists a0 a1 : float,
    let s' := (ImuSensor.read P s w).1 in
    let av := <[1%nat := a1]>
                (<[0%nat := a0]> (angular_velocity (ImuSensor.data_ s))) in
    rate_bounded a0 /\ rate_bounded a1
    /\ ImuSensor.base s' = ImuSensor.base s
    /\ angular_velocity (ImuSensor.data_ s') = av
    /\ orientation (ImuSensor.data_ s')
       = normalize (integrate (orientation (ImuSensor.data_ s)) av).
Proof.
  intros HP HC Hn.
  unfold ImuSensor.read. unfold mbind, M_bind, mret, M_ret.
  unfold Utils.get_time, Utils.steady_now.
  match goal with
  | |- context [Sensor.addNoise P ?b ?v ?w0] =>
      pose proof (addNoise_bound P b v w0 HP Hn) as B0;
      destruct (Sensor.addNoise P b v w0) as [a0 wa]
  end.
  match goal with
  | |- context [Sensor.addNoise P ?b ?v ?w0] =>
      pose proof (addNoise_bound P b v w0 HP Hn) as B1;
      destruct (Sensor.addNoise P b v w0) as [a1 wb]
  end.
  match goal with
  | |- context [Sensor.addNoise P ?b ?v ?w0] =>
      destruct (Sensor.addNoise P b v w0) as [a2 wc]
  end.
  exists a0, a1. simpl in B0, B1.
  destruct const_0_1 as [F1 H1]. destruct const_0_05 as [F5 H5].
  destruct const_1_5 as [F15 H15].
  destruct (HC (clock_queries w)) as [Ft0 _].
  destruct (HC (clock_queries wa)) as [Ft1 Ht1].
  assert (Ft1' : finite (high_resolution_clock P (clock_queries wa) * 1.5)%float).
  { apply (mul_finite _ _ 2 Ft1 F15 Ht1). apply Rabs_le. lra. }
  split; [apply B0; apply rate_bound; auto; lra|].
  split; [apply B1; apply rate_bound; auto; lra|].
  repeat split.
Qed.

Lemma component_bound (a b c d : R) :
  a * a + b * b + c * c + d * d <= 1.0000000001 -> -1.001 <= a <= 1.001.
Proof. intros H. split; nra. Qed.

(** A component moved by a bounded increment. *)
Lemma moved_component (x dx : float) :
  finite x -> -1.001 <= B2R x <= 1.001 ->
  finite dx -> -0.008 <= B2R dx <= 0.008 ->
  finite (x + dx)%float
  /\ -1.02 <= B2R (x + dx)%float <= 1.02
  /\ -0.0164 <= B2R (x + dx)%float * B2R (x + dx)%float - B2R x * B2R x
     <= 0.0164.
Proof.
  intros Fx Hx Fd Hd. pose proof u_small.
  destruct (add_bound x dx 1.02 Fx Fd) as [Fa Ha]; [lra|lra|].
  split; [exact Fa|]. split; [lra|].
  pose proof (square_error (B2R (x + dx)%float) (B2R x) 0.0081 1.001
                ltac:(lra) ltac:(lra) ltac:(lra)). lra.
Qed.

Lemma integrate_eq (x y z w : float) (av : list float) :
  integrate [x; y; z; w] av
  = [x + at_ av 0 * 0.01 * 0.5; y + at_ av 1 * 0.01 * 0.5; z; w]%float.
Proof. reflexivity. Qed.

Lemma normalize_eq (a b c d : float) :
  normalize [a; b; c; d]
  = (let norm := PrimFloat.sqrt (a * a + b * b + c * c + d * d) in
     if 0 <? norm then [a / norm; b / norm; c / norm; d / norm]
     else [a; b; c; d])%float.
Proof. reflexivity. Qed.

Lemma normalize_integrate (o av : list float) :
  unit_quaternion (1 / 10 ^ 10) o ->
  rate_bounded (at_ av 0) -> rate_bounded (at_ av 1) ->
  unit_quaternion (1 / 10 ^ 12) (normalize (integrate o av)).
Proof.
  intros (Hlen & Hfin & HS) [F0 B0] [F1 B1].
  destruct o as [|x [|y [|z [|w [|]]]]]; try discriminate Hlen.
  inversion Hfin as [|? ? Fx Hfin1]; subst.
  inversion Hfin1 as [|? ? Fy Hfin2]; subst.
  inversion Hfin2 as [|? ? Fz Hfin3]; subst.
  inversion Hfin3 as [|? ? Fw _]; subst.
  unfold sum_sq, at_ in HS. cbn [nth] in HS.
  destruct (increment_bound _ F0 B0) as [Fdx Hdx].
  destruct (increment_bound _ F1 B1) as [Fdy Hdy].
  assert (Hx : -1.001 <= B2R x <= 1.001)
    by (apply (component_bound _ (B2R y) (B2R z) (B2R w)); lra).
  assert (Hy : -1.001 <= B2R y <= 1.001)
    by (apply (component_bound _ (B2R x) (B2R z) (B2R w)); lra).
  assert (Hz : -1.001 <= B2R z <= 1.001)
    by (apply (component_bound _ (B2R x) (B2R y) (B2R w)); lra).
  assert (Hw : -1.001 <= B2R w <= 1.001)
    by (apply (component_bound _ (B2R x) (B2R y) (B2R z)); lra).
  destruct (moved_component x _ Fx Hx Fdx Hdx) as (Fx1 & Bx1 & Ex1).
  destruct (moved_component y _ Fy Hy Fdy Hdy) as (Fy1 & By1 & Ey1).
  rewrite integrate_eq.
  set (x1 := (x + at_ av 0 * 0.01 * 0.5)%float) in *.
  set (y1 := (y + at_ av 1 * 0.01 * 0.5)%float) in *.
  destruct (renormalize_floats x1 y1 z w Fx1 Fy1 Fz Fw) as (Hpos & Hf & Hs);
    try lra.
  { unfold sum_sq, at_. cbn [nth]. lra. }
  rewrite normalize_eq. cbv zeta. rewrite Hpos.
  split; [reflexivity|]. split; [exact Hf|exact Hs].
Qed.

(** ** Every reachable sensor state *)

Lemma B2R_0 : finite 0%float /\ B2R 0%float = 0.
Proof. split; reflexivity. Qed.

Lemma B2R_1 : finite 1%float /\ B2R 1%float = 1.
Proof.
  split; [reflexivity|]. unfold B2R.
  change (Prim2SF 1) with (S754_finite false 4503599627370496 (-52)).
  rewrite SF2R_finite_neg.
  change (2 ^ 52)%Z with 4503599627370496%Z. lra.
Qed.

Lemma sqrt_near_1 (S t : R) :
  0 <= t <= 1 / 2 -> - t <= S - 1 <= t ->
  - t <= R_sqrt.sqrt S - 1 <= t.
Proof.
  intros Ht HS. pose proof (sqrt_pos S) as Hr.
  pose proof (sqrt_sqrt S ltac:(lra)) as Hrr.
  set (r := R_sqrt.sqrt S) in *. split; nra.
Qed.

Lemma unit_quaternion_norm (o : list float) :
  unit_quaternion (1 / 10 ^ 10) o -> unit_norm o.
Proof.
  intros (Hlen & Hfin & HS). split; [exact Hlen|]. split; [exact Hfin|].
  apply Rabs_le. unfold norm.
  pose proof (sqrt_near_1 (sum_sq o) (1 / 10 ^ 10) ltac:(lra) HS). lra.
Qed.

Lemma invariant_new (P : Platform) (name : string) (noise_level : float)
    (w : World) :
  finite noise_level -> -1 <= B2R noise_level <= 1 ->
  invariant (ImuSensor.new P name noise_level w).1.
Proof.
  intros Fn Hn. split; [split; assumption|]. split; [reflexivity|].
  simpl. destruct B2R_0 as [F0 E0]. destruct B2R_1 as [F1 E1].
  split; [reflexivity|]. split; [repeat constructor; assumption|].
  unfold sum_sq, at_. cbn [nth]. rewrite E0, E1. lra.
Qed.

Lemma invariant_read (P : Platform) (s : ImuSensor.t) (w : World) :
  signals_bounded P -> clock_bounded P ->
  invariant s -> invariant (ImuSensor.read P s w).1.
Proof.
  intros HP HC (Hn & Hlen & Hq).
  destruct (read_orientation P s w HP HC Hn) as (a0 & a1 & H0 & H1 & Hb & Hav & Ho).
  cbv zeta in Hb, Hav, Ho.
  destruct (angular_velocity (ImuSensor.data_ s)) as [|b0 [|b1 [|b2 [|]]]];
    try discriminate Hlen.
  split; [now rewrite Hb|]. split; [now rewrite Hav|].
  rewrite Ho.
  destruct (normalize_integrate (orientation (ImuSensor.data_ s))
              (<[1%nat:=a1]> (<[0%nat:=a0]> [b0; b1; b2])) Hq)
    as (Hl & Hf & Hs); [exact H0|exact H1|].
  split; [exact Hl|]. split; [exact Hf|]. lra.
Qed.

Lemma reachable_invariant (P : Platform) (name : string) (noise_level : float)
    (s : ImuSensor.t) :
  signals_bounded P -> clock_bounded P ->
  finite noise_level -> -1 <= B2R noise_level <= 1 ->
  reachable P name noise_level s -> invariant s.
Proof.
  intros HP HC Fn Hn Hr. induction Hr as [w|s w Hr IH].
  - now apply invariant_new.
  - now apply invariant_read.
Qed.

(** C4, as the code has it.  For a sensor whose noise level is a finite
    number between -1 and 1, on a platform whose [sin] stays between -1
    and 1 and whose clock gives finite times, the orientation the sensor
    holds has four finite components and a Euclidean norm equal to 1
    within [10^-9], in every state the sensor can reach: as constructed,
    with orientation (0, 0, 0, 1), and after every call of [read]. *)
Theorem read_keeps_unit_norm (P : Platform) (name : string)
    (noise_level : float) (s : ImuSensor.t) :
  signals_bounded P -> clock_bounded P ->
  finite noise_level -> -1 <= B2R noise_level <= 1 ->
  reachable P name noise_level s ->
  unit_norm (orientation (ImuSensor.getData s)).
Proof.
  intros HP HC Fn Hn Hr. apply unit_quaternion_norm.
  now destruct (reachable_invariant P name noise_level s HP HC Fn Hn Hr)
    as (_ & _ & H).
Qed.

Lemma const_0_001 : finite 0.001%float /\ 0.0009 <= B2R 0.001%float <= 0.0011.
Proof. const_bounds 0.001%float. Qed.

Lemma still_signals_bounded : signals_bounded still.
Proof.
  intros t _. simpl. destruct B2R_0 as [F0 E0]. split; [exact F0|].
  rewrite E0. lra.
Qed.

Lemma still_clock_bounded : clock_bounded still.
Proof. intros k. simpl. apply of_uint63_model. Qed.

Lemma peak_signals_bounded : signals_bounded peak.
Proof.
  intros t _. simpl. destruct B2R_1 as [F1 E1]. split; [exact F1|].
  rewrite E1. lra.
Qed.

Lemma peak_clock_bounded : clock_bounded peak.
Proof. intros k. simpl. apply of_uint63_model. Qed.

Lemma read_keeps_unit_norm_witness :
  let s0 := (ImuSensor.new peak "torso_imu" 0.001 world0).1 in
  let s2 := (ImuSensor.read peak (ImuSensor.read peak s0 world0).1
               world0).1 in
  (0 <? at_ (orientation (ImuSensor.getData s2)) 0)%float = true
  /\ (at_ (orientation (ImuSensor.getData s2)) 3 <? 1)%float = true
  /\ unit_norm (orientation (ImuSensor.getData s2)).
Proof.
  intros s0 s2. split; [reflexivity|]. split; [reflexivity|].
  apply (read_keeps_unit_norm peak "torso_imu" 0.001%float).
  - exact peak_signals_bounded.
  - exact peak_clock_bounded.
  - apply const_0_001.
  - pose proof const_0_001. lra.
  - apply reachable_read, reachable_read, reachable_new.
Defined.

(** C4, as stated, fails for a sensor built with a noise level of 1e300:
    the squares of the components overflow, the norm computed is infinite,
    and the division leaves the quaternion (0, 0, 0, 0), of norm 0, after
    the first call of [read]. *)
Lemma read_with_huge_noise_loses_norm :
  let s0 := (ImuSensor.new peak "torso_imu" 1e300 world0).1 in
  let s1 := (ImuSensor.read peak s0 world0).1 in
  orientation (ImuSensor.getData s0) = [0; 0; 0; 1]%float
  /\ reachable peak "torso_imu" 1e300 s1
  /\ orientation (ImuSensor.getData s1) = [0; 0; 0; 0]%float
  /\ ~ unit_norm (orientation (ImuSensor.getData s1)).
Proof.
  intros s0 s1.
  assert (Ho : orientation (ImuSensor.getData s1) = [0; 0; 0; 0]%float)
    by (vm_compute; reflexivity).
  split; [reflexivity|]. split; [apply reachable_read, reachable_new|].
  split; [exact Ho|]. rewrite Ho. intros (_ & _ & H).
  unfold norm, sum_sq, at_ in H. cbn [nth] in H.
  destruct B2R_0 as [_ E0]. rewrite E0 in H.
  replace (0 * 0 + 0 * 0 + 0 * 0 + 0 * 0) with 0 in H by ring.
  rewrite sqrt_0 in H. replace (0 - 1) with (Ropp 1) in H by ring.
  rewrite Rabs_Ropp, Rabs_R1 in H. lra.
Qed.

End ImuSensorProps.

(** * Further properties of the code *)

(** ** Order in binary64 *)

Module FloatOrder.

Ltac order_done :=
  eexists; split; [reflexivity|]; split; [discriminate|];
  first [tauto | intros [?|?]; congruence].

(** [SFcompare] orders the values that are numbers: two comparisons that
    do not point in opposite directions compose. *)
Lemma SFcompare_trans (x y z : spec_float) (c1 c2 : comparison) :
  SFcompare x y = Some c1 -> SFcompare y z = Some c2 ->
  c1 <> Gt -> c2 <> Gt ->
  exists c, SFcompare x z = Some c /\ c <> Gt
            /\ (c1 = Lt \/ c2 = Lt -> c = Lt).
Proof.
  intros H1 H2 N1 N2.
  destruct x as [sx|sx| |sx mx ex], y as [sy|sy| |sy my ey],
    z as [sz|sz| |sz mz ez]; simpl in *; try discriminate;
    try destruct sx; try destruct sy; try destruct sz; simpl in *;
    injection H1 as <-; injection H2 as <-; try congruence;
    try order_done;
    change (Pos.compare_cont Eq ?a ?b) with (Pos.compare a b) in *;
    revert N1 N2;
    destruct (Z.compare_spec ex ey), (Z.compare_spec ey ez),
      (Z.compare_spec ex ez); try lia; try congruence;
    destruct (Pos.compare_spec mx my), (Pos.compare_spec my mz),
      (Pos.compare_spec mx mz); simpl; try lia; try congruence;
    intros N1 N2; order_done.
Qed.

Lemma leb_trans (x y z : float) :
  (x <=? y) = true -> (y <=? z) = true -> (x <=? z) = true.
Proof.
  rewrite !FloatAxioms.leb_spec. unfold SFleb. intros H1 H2.
  destruct (SFcompare (Prim2SF x) (Prim2SF y)) as [c1|] eqn:E1; [|discriminate].
  destruct (SFcompare (Prim2SF y) (Prim2SF z)) as [c2|] eqn:E2; [|discriminate].
  destruct (SFcompare_trans _ _ _ _ _ E1 E2) as (c & -> & Hc & _).
  - now destruct c1.
  - now destruct c2.
  - now destruct c.
Qed.

Lemma leb_ltb_trans (x y z : float) :
  (x <=? y) = true -> (y <? z) = true -> (x <? z) = true.
Proof.
  rewrite !FloatAxioms.leb_spec, !FloatAxioms.ltb_spec. unfold SFleb, SFltb.
  intros H1 H2.
  destruct (SFcompare (Prim2SF x) (Prim2SF y)) as [c1|] eqn:E1; [|discriminate].
  destruct (SFcompare (Prim2SF y) (Prim2SF z)) as [c2|] eqn:E2; [|discriminate].
  destruct (SFcompare_trans _ _ _ _ _ E1 E2) as (c & -> & _ & Hc).
  - now destruct c1.
  - now destruct c2.
  - rewrite Hc; [reflexivity|]. right. now destruct c2.
Qed.

Lemma ltb_leb_trans (x y z : float) :
  (x <? y) = true -> (y <=? z) = true -> (x <? z) = true.
Proof.
  rewrite !FloatAxioms.leb_spec, !FloatAxioms.ltb_spec. unfold SFleb, SFltb.
  intros H1 H2.
  destruct (SFcompare (Prim2SF x) (Prim2SF y)) as [c1|] eqn:E1; [|discriminate].
  destruct (SFcompare (Prim2SF y) (Prim2SF z)) as [c2|] eqn:E2; [|discriminate].
  destruct (SFcompare_trans _ _ _ _ _ E1 E2) as (c & -> & _ & Hc).
  - now destruct c1.
  - now destruct c2.
  - rewrite Hc; [reflexivity|]. left. now destruct c1.
Qed.

End FloatOrder.

(** ** Conversions between [double] and [int] *)

Module Conversion.

Lemma wrap_int_small (z : Z) :
  (- 2 ^ 31 <= z < 2 ^ 31)%Z -> wrap_int z = z.
Proof.
  intros H. unfold wrap_int. rewrite Z.mod_small; lia.
Qed.

(** On such a [double], [abs] gives the whole part of the absolute
    value. *)
Lemma abs_int_of_double (x : float) :
  in_int_range x = true ->
  (0 <= abs (int_of_double x) < 2 ^ 31)%Z
  /\ abs (int_of_double x) = Z.abs (int_of_double x)
  /\ int_of_double x <> INT_MIN.
Proof.
  unfold in_int_range, int_of_double, abs, INT_MIN.
  destruct (Prim2SF x) as [s|s| |s m e]; try discriminate.
  - intros _. rewrite wrap_int_small; simpl; lia.
  - intros H%Z.ltb_lt.
    assert (H0 : (0 <= Z.shiftl (Z.pos m) e)%Z)
      by (apply Z.shiftl_nonneg; lia).
    set (M := Z.shiftl (Z.pos m) e) in *.
    destruct s.
    + replace ((- 2 ^ 31 <=? - M)%Z && (- M <? 2 ^ 31)%Z) with true
        by (symmetry; apply andb_true_iff; split;
            [apply Z.leb_le | apply Z.ltb_lt]; lia).
      rewrite wrap_int_small; lia.
    + replace ((- 2 ^ 31 <=? M)%Z && (M <? 2 ^ 31)%Z) with true
        by (symmetry; apply andb_true_iff; split;
            [apply Z.leb_le | apply Z.ltb_lt]; lia).
      rewrite wrap_int_small; lia.
Qed.

Lemma pack_nonneg (m e : Z) :
  (0 <= m)%Z -> SFleb (S754_zero false) (pack false m e) = true.
Proof.
  intros Hm. unfold pack. destruct m as [|p|p]; [reflexivity| |lia].
  now destruct (e <=? 971)%Z.
Qed.

(** An [int] that is not negative is converted to a [double] that is not
    negative. *)
Lemma double_of_int_nonneg (z : Z) :
  (0 <= z)%Z -> (0 <=? double_of_int z) = true.
Proof.
  intros Hz. destruct z as [|p|p]; [reflexivity| |lia].
  unfold double_of_int. rewrite FloatAxioms.leb_spec, FloatAxioms.of_uint63_spec.
  change (Prim2SF 0) with (S754_zero false).
  pose proof (Uint63.to_Z_bounded (Uint63.of_Z (Z.pos p))) as Hb.
  destruct (Uint63.to_Z (Uint63.of_Z (Z.pos p))) as [|q|q]; [reflexivity| |lia].
  unfold binary_normalize, binary_round.
  destruct (shl_align _ _ _) as [mz ez].
  destruct (Rounding.binary_round_aux_spec false (Z.pos mz) ez loc_Exact)
    as (m2 & m3 & e3 & _ & _ & _ & _ & H3 & ->); [lia|].
  now apply pack_nonneg.
Qed.

Lemma abs_nonneg (x : float) :
  in_int_range x = true ->
  (0 <=? double_of_int (abs (int_of_double x))) = true.
Proof.
  intros H. apply double_of_int_nonneg.
  now destruct (abs_int_of_double x H) as [[H0 _] _].
Qed.

End Conversion.

(** ** The limits of the actuator *)

Module ActuatorLimits.
Import Actuator.

(** X1.  With a limit that is not negative, a command above [max_torque]
    is stored as [max_torque] and a command below [-max_torque] as
    [-max_torque], the infinities included; [setTorque] leaves the limit as
    it is and answers [true]. *)
Theorem setTorque_saturates (a : t) (c : float) (w : World) :
  (0 <=? max_torque_ a) = true ->
  let r := setTorque a c w in
  ((max_torque_ a <? c) = true -> getTorque r.1.2 = max_torque_ a)
  /\ ((c <? - max_torque_ a) = true -> getTorque r.1.2 = - max_torque_ a)
  /\ getMaxTorque r.1.2 = getMaxTorque a
  /\ r.1.1 = true.
Proof.
  intros Hmax r. subst r. rewrite ActuatorProps.setTorque_eq.
  unfold getTorque, getMaxTorque, clamp. simpl.
  split; [|split; [|split; reflexivity]].
  - intros Hc. rewrite Hc.
    assert (H : (c <? - max_torque_ a) = false).
    { apply Binary64.leb_not_ltb, Binary64.ltb_leb.
      apply (FloatOrder.leb_ltb_trans _ (max_torque_ a)); [|exact Hc].
      now apply Binary64.opp_leb_self. }
    now rewrite H.
  - intros Hc. now rewrite Hc.
Qed.

Lemma setTorque_saturates_witness :
  let a := Actuator.new "left_hip_actuator" 50 100 in
  getTorque (setTorque a infinity world0).1.2 = 50
  /\ getTorque (setTorque a (-1100.05) world0).1.2 = -50.
Proof.
  intros a.
  destruct (setTorque_saturates a infinity world0) as (H1 & _);
    [reflexivity|].
  destruct (setTorque_saturates a (-1100.05) world0) as (_ & H2 & _);
    [reflexivity|].
  split; [apply H1 | apply H2]; reflexivity.
Defined.

End ActuatorLimits.

(** ** The limits of the joint controller *)

Module JointControllerLimits.
Import JointController.

(** X2.  With the joint limits in order and a request that is a number,
    [setTargetPosition] stores a target within the limits: the request
    itself when it is within them, the upper limit for a request above it,
    the lower limit for a request below it. *)
Theorem setTargetPosition_within_limits (c : t) (p : float) :
  (min_position_ c <=? max_position_ c) = true ->
  is_nan p = false ->
  let c' := setTargetPosition c p in
  within (min_position_ c) (max_position_ c) (target_position_ c') = true
  /\ (within (min_position_ c) (max_position_ c) p = true ->
      target_position_ c' = p)
  /\ ((max_position_ c <? p) = true -> target_position_ c' = max_position_ c)
  /\ ((p <? min_position_ c) = true -> target_position_ c' = min_position_ c).
Proof.
  intros Hlim Hp c'. subst c'. unfold setTargetPosition. simpl.
  split; [now apply Binary64.clamp_within|].
  split; [apply Binary64.clamp_id|]. unfold clamp. split.
  - intros Hc. rewrite Hc.
    assert (H : (p <? min_position_ c) = false).
    { apply Binary64.leb_not_ltb, Binary64.ltb_leb.
      now apply (FloatOrder.leb_ltb_trans _ (max_position_ c)). }
    now rewrite H.
  - intros Hc. now rewrite Hc.
Qed.

Lemma setTargetPosition_within_limits_witness :
  let c := fresh_controller "left_hip" in
  target_position_ (setTargetPosition c 10) = M_PI
  /\ target_position_ (setTargetPosition c (-10)) = - M_PI
  /\ target_position_ (setTargetPosition c 1) = 1.
Proof.
  intros c.
  destruct (setTargetPosition_within_limits c 10) as (_ & _ & H1 & _);
    [reflexivity..|].
  destruct (setTargetPosition_within_limits c (-10)) as (_ & _ & _ & H2);
    [reflexivity..|].
  destruct (setTargetPosition_within_limits c 1) as (_ & H3 & _);
    [reflexivity..|].
  split; [apply H1; reflexivity|]. split; [apply H2 | apply H3]; reflexivity.
Defined.

(** What [abs] gives is not negative: it is not below a lower limit that
    is not positive. *)
Lemma lower_limit_never_decides (c : t) :
  (min_position_ c <=? 0) = true ->
  in_int_range (position (getState c)) = true ->
  (min_position_ c
   <=? double_of_int (abs (int_of_double (position (getState c))))) = true.
Proof.
  intros Hmin Hr. apply (FloatOrder.leb_trans _ 0); [exact Hmin|].
  now apply Conversion.abs_nonneg.
Qed.

(** X3.  The last test of [isSafe] compares [abs] of the position with
    [min_position_]; with a lower limit that is not positive, as the
    constructor sets it, and a position on which [abs] is defined, that
    test never decides: [isSafe] is the conjunction of the three other
    tests. *)
Theorem isSafe_ignores_lower_limit (c : t) :
  (min_position_ c <=? 0) = true ->
  in_int_range (position (getState c)) = true ->
  isSafe c
  = (temperature (getState c) <? max_temperature_ c)
    && (double_of_int (abs (int_of_double (velocity (getState c))))
        <? max_velocity_ c)
    && (double_of_int (abs (int_of_double (position (getState c))))
        <=? max_position_ c).
Proof.
  intros Hmin Hr. unfold isSafe. cbv zeta.
  now rewrite (lower_limit_never_decides c Hmin Hr), !andb_true_r.
Qed.

Lemma isSafe_ignores_lower_limit_witness :
  let below := controller_at (fresh_controller "left_hip")
                 {| position := -3.5; velocity := 0; torque := 0;
                    temperature := 25; timestamp := 0 |} in
  let beyond := controller_at (fresh_controller "left_hip")
                  {| position := 4; velocity := 0; torque := 0;
                     temperature := 25; timestamp := 0 |} in
  (position (getState below) <? min_position_ below) = true
  /\ isSafe below = true
  /\ isSafe beyond = false.
Proof.
  intros below beyond. split; [reflexivity|].
  rewrite (isSafe_ignores_lower_limit below),
    (isSafe_ignores_lower_limit beyond); split; reflexivity.
Defined.

End JointControllerLimits.

(** ** The joint sensor *)

Module JointSensorProps.
Import JointSensor.

(** What [read] leaves of the sensor: its name, noise level and
    connection. *)
Lemma read_base (P : Platform) (s : t) (w : World) :
  base (read P s w).1 = base s.
Proof.
  unfold read. cbv zeta. unfold mbind, M_bind, Utils.get_time, Utils.steady_now.
  repeat match goal with
         | |- context [Sensor.addNoise P ?b ?v ?w] =>
             destruct (Sensor.addNoise P b v w)
         end.
  reflexivity.
Qed.

End JointSensorProps.

(** ** Control steps and the safety check *)

Module JointControllerSafety.
Import JointController.

Lemma update_state (P : Platform) (c : t) (dt : float) (w : World) :
  enabled_ c = true ->
  let state := measured P c w in
  getState (update P c dt w).1
  = {| position := position state; velocity := velocity state;
       torque := limited_command c state dt;
       temperature := temperature state; timestamp := timestamp state |}.
Proof.
  intros He. rewrite (JointControllerProps.update_enabled P c dt w He).
  reflexivity.
Qed.

Lemma update_limits (P : Platform) (c : t) (dt : float) (w : World) :
  let c' := (update P c dt w).1 in
  max_temperature_ c' = max_temperature_ c
  /\ max_velocity_ c' = max_velocity_ c
  /\ max_position_ c' = max_position_ c
  /\ min_position_ c' = min_position_ c
  /\ enabled_ c' = enabled_ c
  /\ name_ c' = name_ c.
Proof.
  destruct (enabled_ c) eqn:He.
  - rewrite (JointControllerProps.update_enabled P c dt w He). simpl.
    now rewrite He.
  - rewrite (JointControllerProps.update_disabled P c dt w He). simpl.
    now rewrite He.
Qed.

(** X5.  A control step in which the test of the velocity interlock
    succeeds leaves a controller that [isSafe] rejects: the velocity that
    zeroed the command is the velocity the safety check reads, through
    the same [abs]. *)
Theorem interlock_step_is_unsafe (P : Platform) (c : t) (dt : float)
    (w : World) :
  enabled_ c = true ->
  interlock_engaged c (measured P c w) = true ->
  isSafe (update P c dt w).1 = false.
Proof.
  intros He Hv. unfold isSafe. cbv zeta.
  destruct (update_limits P c dt w) as (_ & -> & _).
  rewrite (update_state P c dt w He). simpl.
  unfold interlock_engaged in Hv.
  rewrite (Binary64.leb_not_ltb _ _ (Binary64.ltb_leb _ _ Hv)).
  now rewrite andb_false_r.
Qed.

Lemma interlock_step_is_unsafe_witness :
  isSafe (update still (controller_at hip_to_one fast_and_hot) 0.005 world0).1
  = false.
Proof.
  apply (interlock_step_is_unsafe still (controller_at hip_to_one fast_and_hot)
           0.005 world0); reflexivity.
Defined.

End JointControllerSafety.

(** ** Substrings *)

Module Strings.

Lemma append_nil (s : string) : EmptyString +:+ s = s.
Proof. reflexivity. Qed.

Lemma append_cons (a : Ascii.ascii) (s t : string) :
  String a s +:+ t = String a (s +:+ t).
Proof. reflexivity. Qed.

Lemma prefix_spec (pat s : string) :
  String.prefix pat s = true <-> exists post, s = pat +:+ post.
Proof.
  revert s. induction pat as [|a pat IH]; intros s.
  - split; [eauto|now destruct s].
  - destruct s as [|b s]; simpl.
    { split; [discriminate|]. intros [post H]. discriminate H. }
    destruct (Ascii.ascii_dec a b) as [->|Hab].
    + rewrite IH. split; intros [post H]; exists post;
        rewrite append_cons in *; congruence.
    + split; [discriminate|]. intros [post H]. rewrite append_cons in H.
      congruence.
Qed.

Lemma find_from_Some (pat s : string) (pos n : nat) :
  find_from pat s pos = Some n -> contains s pat.
Proof.
  revert pos. induction s as [|a s IH]; intros pos; cbn [find_from].
  - destruct (String.prefix pat EmptyString) eqn:E; [|discriminate].
    intros _. apply prefix_spec in E as [post E]. now exists EmptyString, post.
  - destruct (String.prefix pat (String a s)) eqn:E.
    + intros _. apply prefix_spec in E as [post E]. now exists EmptyString, post.
    + intros H. apply IH in H as (pre & post & ->).
      now exists (String a pre), post.
Qed.

Lemma find_from_None (pat s : string) (pos : nat) :
  find_from pat s pos = None -> ~ contains s pat.
Proof.
  revert pos. induction s as [|a s IH]; intros pos; cbn [find_from].
  - destruct (String.prefix pat EmptyString) eqn:E; [discriminate|].
    intros _ (pre & post & H).
    destruct pre; [|rewrite append_cons in H; discriminate].
    rewrite append_nil in H.
    assert (String.prefix pat EmptyString = true) by (apply prefix_spec; eauto).
    congruence.
  - destruct (String.prefix pat (String a s)) eqn:E; [discriminate|].
    intros H (pre & post & H').
    destruct pre as [|b pre].
    + rewrite append_nil in H'.
      assert (String.prefix pat (String a s) = true)
        by (apply prefix_spec; eauto).
      congruence.
    + rewrite append_cons in H'. injection H' as -> ->.
      apply (IH _ H). now exists pre, post.
Qed.

Lemma names_hip_spec (joint_name : string) :
  names_hip joint_name <-> contains joint_name "hip".
Proof.
  unfold names_hip, find. split.
  - intros [n H]. now apply find_from_Some in H.
  - intros Hc. destruct (find_from "hip" joint_name 0) eqn:E; [eauto|].
    now apply find_from_None in E.
Qed.

End Strings.

(** ** The maps of the sensor fusion *)

Module SensorFusionMaps.
Import SensorFusion.

(** X7.  [updateJointState] moves the balance estimate, to
    [0.7 * estimate + 0.3 * position], exactly for the joints whose name
    contains [hip] somewhere; for every other name it leaves the estimate as
    it is. *)
Theorem balance_follows_hip_joints (P : Platform) (f : t)
    (joint_name : string) (state : JointState) (w : World) :
  (contains joint_name "hip" ->
   getBalanceEstimate (updateJointState P f joint_name state w).1
   = 0.7 * getBalanceEstimate f + 0.3 * position state)
  /\ (~ contains joint_name "hip" ->
      getBalanceEstimate (updateJointState P f joint_name state w).1
      = getBalanceEstimate f).
Proof.
  split; intros H.
  - apply Strings.names_hip_spec in H. now apply SensorFusionProps.updateJointState_hip.
  - apply SensorFusionProps.updateJointState_other.
    destruct (find joint_name "hip") eqn:E; [|reflexivity].
    exfalso. apply H, Strings.names_hip_spec. now exists n.
Qed.

Lemma balance_follows_hip_joints_witness :
  let state := {| position := 0.5; velocity := 0; torque := 0;
                  temperature := 25; timestamp := 0 |} in
  getBalanceEstimate
    (updateJointState still SensorFusion.new "my_hip_2" state world0).1 = 0.15
  /\ getBalanceEstimate
       (updateJointState still SensorFusion.new "left_knee" state world0).1
     = 0.
Proof.
  intros state.
  destruct (balance_follows_hip_joints still SensorFusion.new "my_hip_2" state
              world0) as [H1 _].
  destruct (balance_follows_hip_joints still SensorFusion.new "left_knee" state
              world0) as [_ H2].
  split.
  - rewrite H1; [reflexivity|]. now exists "my_", "_2".
  - rewrite H2; [reflexivity|].
    now apply (Strings.find_from_None "hip" "left_knee" 0).
Defined.

(** X8.  After [updateJointState(name, state)] the joint states hold [state]
    under [name] and what they held before under every other name: the
    names known are those known before and [name]; the IMU data are
    untouched. *)
Theorem updateJointState_lookup (P : Platform) (f : t)
    (joint_name other : string) (state : JointState) (w : World) :
  let f' := (updateJointState P f joint_name state w).1 in
  getJointStates f' !! joint_name = Some state
  /\ (other <> joint_name ->
      getJointStates f' !! other = getJointStates f !! other)
  /\ dom (getJointStates f') = {[ joint_name ]} ∪ dom (getJointStates f)
  /\ imu_data_ f' = imu_data_ f.
Proof.
  intros f'. subst f'. rewrite SensorFusionProps.updateJointState_eq.
  unfold getJointStates. cbn [fst].
  destruct (find joint_name "hip"); simpl;
    (split; [apply lookup_insert_eq|]);
    (split; [intros Hn; now apply lookup_insert_ne|]);
    (split; [apply dom_insert_L | reflexivity]).
Qed.

End SensorFusionMaps.

(** ** The verdict of the safety monitor *)

Module SafetyMonitorVerdict.
Import SafetyMonitor.

Lemma first_unsafe_inv (h : Store) (ps : list ptr) (r : option ptr) :
  first_unsafe h ps = Some r ->
  match r with
  | None => forall p c, p ∈ ps -> controllers h !! p = Some c ->
                        JointController.isSafe c = true
  | Some q => exists c, q ∈ ps /\ controllers h !! q = Some c
                        /\ JointController.isSafe c = false
  end.
Proof.
  induction ps as [|p ps IH]; simpl.
  - intros [= <-]. intros p c Hp. inversion Hp.
  - destruct (controllers h !! p) as [c|] eqn:Hc; [|discriminate]. simpl.
    destruct (JointController.isSafe c) eqn:Hs; simpl.
    + intros H. specialize (IH H). destruct r as [q|].
      * destruct IH as (c' & Hq & Hc' & Hs'). exists c'.
        split; [now right|done].
      * intros p' c' Hp' Hc'. apply elem_of_cons in Hp' as [->|Hp'];
          [congruence|eauto].
    + intros [= <-]. exists c. split; [left|done].
Qed.

Lemma first_disconnected_joint_inv (h : Store) (ps : list ptr)
    (r : option ptr) :
  first_disconnected_joint h ps = Some r ->
  match r with
  | None => forall p s, p ∈ ps -> joint_sensors h !! p = Some s ->
                        JointSensor.isConnected s = true
  | Some q => exists s, q ∈ ps /\ joint_sensors h !! q = Some s
                        /\ JointSensor.isConnected s = false
  end.
Proof.
  induction ps as [|p ps IH]; simpl.
  - intros [= <-]. intros p c Hp. inversion Hp.
  - destruct (joint_sensors h !! p) as [s|] eqn:Hc; [|discriminate]. simpl.
    destruct (JointSensor.isConnected s) eqn:Hs; simpl.
    + intros H. specialize (IH H). destruct r as [q|].
      * destruct IH as (c' & Hq & Hc' & Hs'). exists c'.
        split; [now right|done].
      * intros p' c' Hp' Hc'. apply elem_of_cons in Hp' as [->|Hp'];
          [congruence|eauto].
    + intros [= <-]. exists s. split; [left|done].
Qed.

Lemma first_disconnected_imu_inv (h : Store) (ps : list ptr)
    (r : option ptr) :
  first_disconnected_imu h ps = Some r ->
  match r with
  | None => forall p s, p ∈ ps -> imu_sensors h !! p = Some s ->
                        ImuSensor.isConnected s = true
  | Some q => exists s, q ∈ ps /\ imu_sensors h !! q = Some s
                        /\ ImuSensor.isConnected s = false
  end.
Proof.
  induction ps as [|p ps IH]; simpl.
  - intros [= <-]. intros p c Hp. inversion Hp.
  - destruct (imu_sensors h !! p) as [s|] eqn:Hc; [|discriminate]. simpl.
    destruct (ImuSensor.isConnected s) eqn:Hs; simpl.
    + intros H. specialize (IH H). destruct r as [q|].
      * destruct IH as (c' & Hq & Hc' & Hs'). exists c'.
        split; [now right|done].
      * intros p' c' Hp' Hc'. apply elem_of_cons in Hp' as [->|Hp'];
          [congruence|eauto].
    + intros [= <-]. exists s. split; [left|done].
Qed.

Lemma first_unsafe_total (h : Store) (ps : list ptr) :
  (forall p, p ∈ ps -> is_Some (controllers h !! p)) ->
  is_Some (first_unsafe h ps).
Proof.
  induction ps as [|p ps IH]; intros Hlive; simpl; [eauto|].
  destruct (Hlive p) as [s Hs]; [left|]. rewrite Hs. simpl.
  destruct (negb _); [eauto|]. apply IH. intros; apply Hlive; now right.
Qed.

Lemma first_disconnected_imu_total (h : Store) (ps : list ptr) :
  (forall p, p ∈ ps -> is_Some (imu_sensors h !! p)) ->
  is_Some (first_disconnected_imu h ps).
Proof.
  induction ps as [|p ps IH]; intros Hlive; simpl; [eauto|].
  destruct (Hlive p) as [s Hs]; [left|]. rewrite Hs. simpl.
  destruct (negb _); [eauto|]. apply IH. intros; apply Hlive; now right.
Qed.

(** The verdict of [checkSafety] and the monitor it leaves, with the
    registered objects live. *)
Lemma checkSafety_cases (m : t) (h : Store) :
  live m h ->
  (emergency_stop_active_ m = true /\ checkSafety m h = Some (false, m))
  \/ (emergency_stop_active_ m = false /\ some_controller_unsafe m h
      /\ checkSafety m h = Some (false, set_emergency_stop_active m true))
  \/ (emergency_stop_active_ m = false /\ all_controllers_safe m h
      /\ some_sensor_disconnected m h /\ checkSafety m h = Some (false, m))
  \/ (emergency_stop_active_ m = false /\ all_controllers_safe m h
      /\ all_sensors_connected m h /\ checkSafety m h = Some (true, m)).
Proof.
  intros (Hc & Hj & Hi). unfold checkSafety.
  destruct (emergency_stop_active_ m) eqn:Hm; [now left|]. right.
  destruct (first_unsafe_total h _ Hc) as [u Hu]. rewrite Hu. simpl.
  apply first_unsafe_inv in Hu. destruct u as [q|].
  { left. destruct Hu as (c & Hq & Hc' & Hs).
    split; [done|]. split; [now exists q, c|done]. }
  right.
  destruct (SafetyMonitorProps.first_disconnected_joint_total h _ Hj)
    as [d Hd].
  rewrite Hd. simpl. apply first_disconnected_joint_inv in Hd.
  destruct d as [q|].
  { left. destruct Hd as (s & Hq & Hs & Hn).
    split; [done|]. split; [exact Hu|]. split; [|done].
    left. now exists q, s. }
  destruct (first_disconnected_imu_total h _ Hi) as [d' Hd'].
  rewrite Hd'. simpl. apply first_disconnected_imu_inv in Hd'.
  destruct d' as [q|].
  { left. destruct Hd' as (s & Hq & Hs & Hn).
    split; [done|]. split; [exact Hu|]. split; [|done].
    right. now exists q, s. }
  right. split; [done|]. split; [exact Hu|]. split; [|done]. now split.
Qed.

Lemma unsafe_not_all_safe (m : t) (h : Store) :
  some_controller_unsafe m h -> ~ all_controllers_safe m h.
Proof.
  intros (p & c & Hp & Hc & Hs) Hall. rewrite (Hall p c Hp Hc) in Hs.
  discriminate.
Qed.

Lemma disconnected_not_all_connected (m : t) (h : Store) :
  some_sensor_disconnected m h -> ~ all_sensors_connected m h.
Proof.
  intros [(p & s & Hp & Hs & Hn)|(p & s & Hp & Hs & Hn)] [H1 H2].
  - rewrite (H1 p s Hp Hs) in Hn. discriminate.
  - rewrite (H2 p s Hp Hs) in Hn. discriminate.
Qed.

(** X9.  With the registered objects live, [checkSafety] answers; it answers
    [true] exactly when the emergency stop is not active, every registered
    controller is safe and every registered sensor is connected; the
    emergency stop is active afterwards exactly when it was before or some
    controller is not safe; the registrations are unchanged. *)
Theorem checkSafety_verdict (m : t) (h : Store) :
  live m h ->
  exists b m',
    checkSafety m h = Some (b, m')
    /\ (b = true <-> emergency_stop_active_ m = false
                     /\ all_controllers_safe m h
                     /\ all_sensors_connected m h)
    /\ (emergency_stop_active_ m' = true
        <-> emergency_stop_active_ m = true \/ some_controller_unsafe m h)
    /\ controllers_ m' = controllers_ m
    /\ joint_sensors_ m' = joint_sensors_ m
    /\ imu_sensors_ m' = imu_sensors_ m.
Proof.
  intros Hlive.
  destruct (checkSafety_cases m h Hlive)
    as [(Hm & ->)|[(Hm & Hu & ->)|[(Hm & Hs & Hd & ->)|(Hm & Hs & Hd & ->)]]];
    eexists _, _; (split; [reflexivity|]); simpl;
    (split; [|split; [|done]]).
  - split; [discriminate|]. intros (H & _). congruence.
  - split; [tauto|tauto].
  - split; [discriminate|]. intros (_ & H & _).
    now apply unsafe_not_all_safe in Hu.
  - split; [tauto|tauto].
  - split; [discriminate|]. intros (_ & _ & H).
    now apply disconnected_not_all_connected in Hd.
  - rewrite Hm. split; [discriminate|]. intros [H|H]; [discriminate|].
    now apply unsafe_not_all_safe in H.
  - tauto.
  - rewrite Hm. split; [discriminate|]. intros [H|H]; [discriminate|].
    now apply unsafe_not_all_safe in H.
Qed.

Lemma checkSafety_verdict_witness :
  exists b m',
    checkSafety monitor2 store_unplugged = Some (b, m')
    /\ (b = true <-> emergency_stop_active_ monitor2 = false
                     /\ all_controllers_safe monitor2 store_unplugged
                     /\ all_sensors_connected monitor2 store_unplugged)
    /\ (emergency_stop_active_ m' = true
        <-> emergency_stop_active_ monitor2 = true
            \/ some_controller_unsafe monitor2 store_unplugged)
    /\ controllers_ m' = controllers_ monitor2
    /\ joint_sensors_ m' = joint_sensors_ monitor2
    /\ imu_sensors_ m' = imu_sensors_ monitor2.
Proof.
  apply (checkSafety_verdict monitor2 store_unplugged).
  apply SafetyMonitorProps.live_monitor2; eexists; vm_compute; reflexivity.
Defined.

(** X10.  After [triggerEmergencyStop], whatever operations of the monitor
    follow, all of them are defined, whatever the registered pointers point
    to, every [checkSafety] answers [false] and the emergency stop stays
    active. *)
Theorem triggerEmergencyStop_latches (m : t) (os : list op) :
  exists rs m',
    run (triggerEmergencyStop m) os = Some (rs, m')
    /\ emergency_stop_active_ m' = true
    /\ (forall i h, os !! i = Some (CheckSafety h) ->
                    rs !! i = Some (Some false)).
Proof.
  apply SafetyMonitorProps.run_latched. reflexivity.
Qed.

End SafetyMonitorVerdict.

(** ** What the IMU never writes *)

Module ImuSensorShape.
Import ImuSensor.

Lemma zero_div_positive (d : float) : (0 <? d) = true -> 0 / d = 0.
Proof.
  rewrite FloatAxioms.ltb_spec. intros H.
  apply Prim2SF_inj. rewrite FloatAxioms.div_spec.
  change (Prim2SF 0) with (S754_zero false) in *.
  destruct (Prim2SF d) as [s|s| |s m e]; try discriminate;
    destruct s; try discriminate; reflexivity.
Qed.

(** What [read] writes, whatever the platform: two angular rates, one
    acceleration, and the orientation integrated and normalized. *)
Lemma read_writes (P : Platform) (s : t) (w : World) :
  exists a0 a1 a2 : float,
    let s' := (read P s w).1 in
    let av := <[1%nat := a1]>
                (<[0%nat := a0]> (angular_velocity (data_ s))) in
    base s' = base s
    /\ angular_velocity (data_ s') = av
    /\ linear_acceleration (data_ s')
       = <[2%nat := a2]> (linear_acceleration (data_ s))
    /\ orientation (data_ s')
       = normalize (integrate (orientation (data_ s)) av).
Proof.
  unfold read. unfold mbind, M_bind, mret, M_ret.
  unfold Utils.get_time, Utils.steady_now.
  repeat match goal with
         | |- context [Sensor.addNoise P ?b ?v ?w0] =>
             let a := fresh "a" in
             destruct (Sensor.addNoise P b v w0) as [a ?]
         end.
  exists a, a0, a1. repeat split.
Qed.

Lemma planar_read (P : Platform) (s : t) (w : World) :
  planar (data_ s) -> planar (data_ (read P s w).1).
Proof.
  intros ((x & y & q & Ho) & (a & b & Ha) & (c & Hl)).
  destruct (read_writes P s w) as (a0 & a1 & a2 & _ & Hav & Hla & Hor).
  cbv zeta in *. rewrite Ha in Hav. rewrite Hl in Hla.
  rewrite Ho, Ha in Hor. split; [|split].
  - rewrite Hor. cbn [list_insert insert]. rewrite ImuSensorProps.integrate_eq.
    rewrite ImuSensorProps.normalize_eq. cbv zeta.
    match goal with |- context [0 <? ?n] => destruct (0 <? n) eqn:Hn end.
    + rewrite (zero_div_positive _ Hn). eauto.
    + eauto.
  - rewrite Hav. simpl. eauto.
  - rewrite Hla. simpl. eauto.
Qed.

(** X11.  Whatever the platform and the noise level, in every state an IMU
    sensor reaches from its constructor by [read] the arrays keep their
    lengths and [read] has written only to the components it names: the z
    component of the orientation and of the angular velocity and the x and
    y components of the linear acceleration are still exactly 0. *)
Theorem read_never_yaws (P : Platform) (name : string) (noise_level : float)
    (s : t) :
  reachable P name noise_level s ->
  let d := getData s in
  length (orientation d) = 4%nat
  /\ length (angular_velocity d) = 3%nat
  /\ length (linear_acceleration d) = 3%nat
  /\ at_ (orientation d) 2 = 0
  /\ at_ (angular_velocity d) 2 = 0
  /\ at_ (linear_acceleration d) 0 = 0
  /\ at_ (linear_acceleration d) 1 = 0.
Proof.
  intros Hr. assert (Hp : planar (data_ s)).
  { induction Hr as [w|s w _ IH].
    - split; [|split]; simpl; eauto.
    - now apply planar_read. }
  destruct Hp as ((x & y & q & Ho) & (a & b & Ha) & (c & Hl)).
  unfold getData. cbv zeta. rewrite Ho, Ha, Hl. repeat split.
Qed.

Lemma read_never_yaws_witness :
  let s0 := (ImuSensor.new peak "torso_imu" 0.001 world0).1 in
  let s := (read peak (read peak s0 world0).1 world0).1 in
  at_ (orientation (getData s)) 2 = 0
  /\ at_ (angular_velocity (getData s)) 0 <> 0.
Proof.
  intros s0 s. split.
  - apply (read_never_yaws peak "torso_imu" 0.001 s).
    apply reachable_read, reachable_read. apply (reachable_new _ _ _ world0).
  - vm_compute. discriminate.
Defined.

End ImuSensorShape.

(** ** The humanoid controller *)

Module HumanoidControllerProps.
Import HumanoidController.

Lemma bind_eq {A B : Type} (m : M A) (k : A -> M B) (w : World) :
  (m ≫= k) w = k (m w).1 (m w).2.
Proof. unfold mbind, M_bind. now destruct (m w). Qed.

Lemma mapM_cons {A B : Type} (f : A -> M B) (x : A) (l : list A) (w : World) :
  mapM f (x :: l) w
  = ((f x w).1 :: (mapM f l (f x w).2).1, (mapM f l (f x w).2).2).
Proof.
  simpl. rewrite bind_eq. rewrite bind_eq. reflexivity.
Qed.

(** A loop over a vector, in the state monad: each element of the result
    is the corresponding element after the call, made in some world. *)
Lemma mapM_each {A B : Type} (f : A -> M B) (l : list A) (w : World) :
  Forall2 (fun x y => exists w', y = (f x w').1) l (mapM f l w).1.
Proof.
  revert w. induction l as [|x l IH]; intros w.
  - constructor.
  - rewrite mapM_cons. simpl. constructor; [eauto|apply IH].
Qed.

Lemma new_eq (P : Platform) (frequency : float) (w : World) :
  exists cs ss imus,
    (new P frequency w).1
    = {| joint_controllers_ := cs; joint_sensors_ := ss; imu_sensors_ := imus;
         sensor_fusion_ := SensorFusion.new;
         safety_monitor_ :=
           {| SafetyMonitor.controllers_ := seq 0 6;
              SafetyMonitor.joint_sensors_ := seq 0 6;
              SafetyMonitor.imu_sensors_ := seq 0 2;
              SafetyMonitor.emergency_stop_active_ := false |};
         control_frequency_ := frequency; is_running_ := false |}
    /\ map JointController.getName cs = joint_names
    /\ Forall (fun c => JointController.isEnabled c = false) cs
    /\ map JointSensor.getName ss
       = map (fun name => name +:+ "_pos_sensor") joint_names
    /\ Forall (fun s => JointSensor.isConnected s = true) ss
    /\ map ImuSensor.getName imus = ["torso_imu"; "head_imu"]
    /\ Forall (fun s => ImuSensor.isConnected s = true) imus.
Proof.
  eexists _, _, _. split; [vm_compute; reflexivity|].
  vm_compute. repeat split; repeat constructor.
Qed.

Lemma assembled_lengths (r : t) :
  assembled r ->
  length (joint_controllers_ r) = 6%nat
  /\ length (joint_sensors_ r) = 6%nat
  /\ length (imu_sensors_ r) = 2%nat.
Proof.
  intros (Hn & Hs & Hi & _). split; [|done].
  rewrite <- (length_map JointController.getName), Hn. reflexivity.
Qed.

Lemma assembled_live (r : t) :
  assembled r -> live (safety_monitor_ r) (store r).
Proof.
  intros Ha. destruct (assembled_lengths r Ha) as (Lc & Ls & Li).
  destruct Ha as (_ & _ & _ & Hc & Hj & Hi & _).
  unfold live, store. simpl. rewrite Hc, Hj, Hi.
  repeat split; intros p Hp; apply elem_of_seq in Hp;
    rewrite lookup_map_seq_0; apply lookup_lt_is_Some; lia.
Qed.

Lemma fuse_joints_step (P : Platform) (cs : list JointController.t)
    (ss : list JointSensor.t) (i : nat) (indices : list nat)
    (f : SensorFusion.t) (w : World) (s : JointSensor.t)
    (c : JointController.t) :
  ss !! i = Some s -> cs !! i = Some c ->
  let r := SensorFusion.updateJointState P f (JointController.getName c)
             (JointSensor.getState s) w in
  fuse_joints P cs ss (i :: indices) f w
  = fuse_joints P cs ss indices r.1 r.2.
Proof.
  intros Hs Hc. cbn [fuse_joints]. rewrite Hs, Hc. apply bind_eq.
Qed.

Lemma fuse_joints_total (P : Platform) (cs : list JointController.t)
    (ss : list JointSensor.t) (indices : list nat) (f : SensorFusion.t)
    (w : World) :
  Forall (fun i => (i < length cs)%nat /\ (i < length ss)%nat) indices ->
  is_Some (fuse_joints P cs ss indices f w).1.
Proof.
  revert f w. induction indices as [|i indices IH]; intros f w Hi;
    [now eexists|].
  inversion Hi as [|? ? [Hc Hs] Hi']; subst.
  destruct (lookup_lt_is_Some_2 ss i Hs) as [s Es].
  destruct (lookup_lt_is_Some_2 cs i Hc) as [c Ec].
  rewrite (fuse_joints_step P cs ss i indices f w s c Es Ec).
  now apply IH.
Qed.

(** What one pass through the loop leaves of the shape of the robot. *)
Lemma assembled_step (P : Platform) (dt : float) (r : t)
    (cs : list JointController.t) (ss : list JointSensor.t)
    (imus : list ImuSensor.t) (f : SensorFusion.t) (m : SafetyMonitor.t) :
  assembled r ->
  Forall2 (fun c c' => exists w, c' = (JointController.update P c dt w).1)
    (joint_controllers_ r) cs ->
  Forall2 (fun s s' => exists w, s' = (JointSensor.read P s w).1)
    (joint_sensors_ r) ss ->
  Forall2 (fun s s' => exists w, s' = (ImuSensor.read P s w).1)
    (imu_sensors_ r) imus ->
  SafetyMonitor.controllers_ m = SafetyMonitor.controllers_ (safety_monitor_ r) ->
  SafetyMonitor.joint_sensors_ m = SafetyMonitor.joint_sensors_ (safety_monitor_ r) ->
  SafetyMonitor.imu_sensors_ m = SafetyMonitor.imu_sensors_ (safety_monitor_ r) ->
  assembled {| joint_controllers_ := cs; joint_sensors_ := ss;
               imu_sensors_ := imus; sensor_fusion_ := f;
               safety_monitor_ := m;
               control_frequency_ := control_frequency_ r;
               is_running_ := is_running_ r |}.
Proof.
  intros (Hn & Hs & Hi & Hc & Hj & Hm & Cj & Ci) Fc Fs Fi Mc Mj Mi.
  unfold assembled. simpl. rewrite Mc, Mj, Mi.
  split; [|split; [|split; [|repeat (split; [assumption|])]]].
  - rewrite <- Hn. clear -Fc.
    induction Fc as [|c c' cs cs' [w ->] _ IH]; [reflexivity|]. simpl.
    unfold JointController.getName at 1 3.
    destruct (JointControllerSafety.update_limits P c dt w)
      as (_ & _ & _ & _ & _ & ->).
    now rewrite IH.
  - now rewrite <- (Forall2_length _ _ _ Fs).
  - now rewrite <- (Forall2_length _ _ _ Fi).
  - split.
    + clear -Fs Cj. induction Fs as [|s s' ss ss' [w ->] _ IH];
        [constructor|].
      inversion Cj; subst. constructor; [|now apply IH].
      unfold JointSensor.isConnected. now rewrite JointSensorProps.read_base.
    + clear -Fi Ci. induction Fi as [|s s' ss ss' [w ->] _ IH];
        [constructor|].
      inversion Ci; subst. constructor; [|now apply IH].
      unfold ImuSensor.isConnected.
      destruct (ImuSensorShape.read_writes P s w) as (? & ? & ? & Hb & _).
      cbv zeta in Hb. now rewrite Hb.
Qed.

Lemma iteration_spec (P : Platform) (seconds : Z -> float) (dt : float)
    (l : run_state) (w : World) :
  assembled (robot l) ->
  exists cs ss imus fj b m' lt out w' wj wi,
    let r' := {| joint_controllers_ := cs; joint_sensors_ := ss;
                 imu_sensors_ := imus;
                 sensor_fusion_ := (fuse_imus P imus fj wi).1;
                 safety_monitor_ := m';
                 control_frequency_ := control_frequency_ (robot l);
                 is_running_ := is_running_ (robot l) |} in
    iteration P seconds dt l w
    = (Some {| robot := r'; last_time := lt; printed := printed l ++ out |}, w')
    /\ Forall2 (fun c c' => exists w, c' = (JointController.update P c dt w).1)
         (joint_controllers_ (robot l)) cs
    /\ Forall2 (fun s s' => exists w, s' = (JointSensor.read P s w).1)
         (joint_sensors_ (robot l)) ss
    /\ Forall2 (fun s s' => exists w, s' = (ImuSensor.read P s w).1)
         (imu_sensors_ (robot l)) imus
    /\ (fuse_joints P (joint_controllers_ (robot l)) ss (seq 0 6)
          (sensor_fusion_ (robot l)) wj).1 = Some fj
    /\ SafetyMonitor.checkSafety (safety_monitor_ (robot l))
         (store (set_safety_monitor r' (safety_monitor_ (robot l))))
       = Some (b, m')
    /\ Forall (fun rep => match rep with
                          | Status _ _ _ _ is_safe => is_safe = b
                          | TooLong _ => True
                          end) out
    /\ (length out <= 2)%nat.
Proof.
  intros Ha. destruct (assembled_lengths _ Ha) as (Lc & Ls & Li).
  unfold iteration. cbv zeta. rewrite bind_eq.
  set (start_time := (Utils.steady_now P w).1).
  set (w0 := (Utils.steady_now P w).2).
  rewrite bind_eq.
  pose proof (mapM_each (JointSensor.read P) (joint_sensors_ (robot l)) w0) as Fs.
  set (rs := mapM (JointSensor.read P) (joint_sensors_ (robot l)) w0) in *.
  rewrite bind_eq.
  pose proof (mapM_each (ImuSensor.read P) (imu_sensors_ (robot l)) rs.2) as Fi.
  set (ri := mapM (ImuSensor.read P) (imu_sensors_ (robot l)) rs.2) in *.
  rewrite Lc. rewrite bind_eq.
  assert (Ls' : length rs.1 = 6%nat) by now rewrite <- (Forall2_length _ _ _ Fs).
  destruct (fuse_joints_total P (joint_controllers_ (robot l)) rs.1 (seq 0 6)
              (sensor_fusion_ (robot l)) ri.2) as [fj Hfj].
  { apply Forall_forall. intros i Hi. apply elem_of_seq in Hi. lia. }
  set (rj := fuse_joints P (joint_controllers_ (robot l)) rs.1 (seq 0 6)
               (sensor_fusion_ (robot l)) ri.2) in *.
  rewrite Hfj. rewrite bind_eq.
  set (rf := fuse_imus P ri.1 fj rj.2).
  rewrite bind_eq.
  pose proof (mapM_each (fun c => JointController.update P c dt)
                (joint_controllers_ (robot l)) rf.2) as Fc.
  set (rc := mapM (fun c => JointController.update P c dt)
               (joint_controllers_ (robot l)) rf.2) in *.
  set (r1 := {| joint_controllers_ := rc.1; joint_sensors_ := rs.1;
                imu_sensors_ := ri.1; sensor_fusion_ := rf.1;
                safety_monitor_ := safety_monitor_ (robot l);
                control_frequency_ := control_frequency_ (robot l);
                is_running_ := is_running_ (robot l) |}).
  assert (Ha1 : assembled r1) by (apply (assembled_step P dt); auto).
  destruct (SafetyMonitorVerdict.checkSafety_cases _ _ (assembled_live _ Ha1))
    as [(Hm & Hck)|[(Hm & Hu & Hck)|[(Hm & Hs & Hd & Hck)|(Hm & Hs & Hd & Hck)]]];
    rewrite Hck; rewrite bind_eq;
    set (current_time := (Utils.steady_now P rc.2).1);
    set (w4 := (Utils.steady_now P rc.2).2);
    unfold print_status;
    destruct (lookup_lt_is_Some_2 rs.1 0) as [s0 Hs0]; try lia;
    destruct (lookup_lt_is_Some_2 rs.1 3) as [s3 Hs3]; try lia;
    rewrite Hs0, Hs3; simpl;
    (destruct (1 <? seconds (current_time - last_time l)%Z));
    rewrite bind_eq;
    (destruct (seconds ((Utils.steady_now P w4).1 - start_time)%Z <? dt));
    simpl; rewrite <- ?app_assoc;
    eexists rc.1, rs.1, ri.1, fj, _, _, _, _, _, ri.2, rj.2;
    (split; [try reflexivity; rewrite app_nil_r; reflexivity|]);
    (split; [exact Fc|]); (split; [exact Fs|]); (split; [exact Fi|]);
    (split; [exact Hfj|]); (split; [exact Hck|]);
    (split; [repeat constructor | simpl; lia]).
Qed.

Lemma assembled_connected (r : t) :
  assembled r -> all_sensors_connected (safety_monitor_ r) (store r).
Proof.
  intros (_ & _ & _ & _ & _ & _ & Cj & Ci). unfold store. split; simpl;
    intros p s _; rewrite lookup_map_seq_0; intros Hs.
  - rewrite Forall_lookup in Cj. eauto.
  - rewrite Forall_lookup in Ci. eauto.
Qed.

Lemma assembled_unsafe (r : t) :
  assembled r ->
  some_controller_unsafe (safety_monitor_ r) (store r)
  <-> Exists (fun c => JointController.isSafe c = false) (joint_controllers_ r).
Proof.
  intros Ha. destruct (assembled_lengths r Ha) as (Lc & _).
  destruct Ha as (_ & _ & _ & Hc & _). unfold some_controller_unsafe, store.
  simpl. rewrite Hc. split.
  - intros (p & c & Hp & Hl & Hs). rewrite lookup_map_seq_0 in Hl.
    apply Exists_exists. exists c. split; [|done].
    now apply list_elem_of_lookup_2 in Hl.
  - intros He. apply Exists_exists in He as (c & Hin & Hs).
    apply list_elem_of_lookup_1 in Hin as [p Hp]. exists p, c.
    split; [|split; [now rewrite lookup_map_seq_0|done]].
    apply elem_of_seq. apply lookup_lt_Some in Hp. lia.
Qed.

(** One pass through the loop of a robot whose emergency stop is not
    active. *)
Lemma iteration_verdict (P : Platform) (seconds : Z -> float) (dt : float)
    (l : run_state) (w : World) :
  assembled (robot l) ->
  SafetyMonitor.emergency_stop_active_ (safety_monitor_ (robot l)) = false ->
  exists l' out,
    (iteration P seconds dt l w).1 = Some l'
    /\ assembled (robot l')
    /\ is_running_ (robot l') = is_running_ (robot l)
    /\ control_frequency_ (robot l') = control_frequency_ (robot l)
    /\ Forall2 (fun c c' => exists w, c' = (JointController.update P c dt w).1)
         (joint_controllers_ (robot l)) (joint_controllers_ (robot l'))
    /\ (SafetyMonitor.emergency_stop_active_ (safety_monitor_ (robot l')) = true
        <-> Exists (fun c => JointController.isSafe c = false)
              (joint_controllers_ (robot l')))
    /\ printed l' = printed l ++ out
    /\ (length out <= 2)%nat
    /\ Forall (fun rep =>
                 match rep with
                 | Status _ _ _ _ is_safe =>
                     is_safe = negb (SafetyMonitor.emergency_stop_active_
                                       (safety_monitor_ (robot l')))
                 | TooLong _ => True
                 end) out.
Proof.
  intros Ha Hm.
  destruct (iteration_spec P seconds dt l w Ha)
    as (cs & ss & imus & fj & b & m' & lt & out & w' & wj & wi & He & Fc
        & Fs & Fi & Hfj & Hck & Ho & Hlen).
  cbv zeta in *. rewrite He. simpl.
  set (r1 := set_safety_monitor _ _) in Hck.
  assert (Ha1 : assembled r1)
    by (subst r1; unfold set_safety_monitor; simpl;
        apply (assembled_step P dt (robot l)); auto).
  pose proof (assembled_connected _ Ha1) as Hconn.
  pose proof (assembled_unsafe _ Ha1) as Hun.
  destruct (SafetyMonitorVerdict.checkSafety_cases _ _ (assembled_live _ Ha1))
    as [(Hm' & Hck')|[(_ & Hu & Hck')|[(_ & Hs & Hd & Hck')|(_ & Hs & Hd & Hck')]]];
    simpl in Hck'.
  - simpl in Hm'. congruence.
  - rewrite Hck in Hck'. injection Hck' as -> ->.
    eexists _, out. split; [reflexivity|]. simpl.
    split; [now apply (assembled_step P dt)|].
    repeat (split; [done|]). split; [|done].
    split; [intros _; now apply Hun | done].
  - now apply SafetyMonitorVerdict.disconnected_not_all_connected in Hd.
  - rewrite Hck in Hck'. injection Hck' as -> ->.
    eexists _, out. split; [reflexivity|]. simpl.
    split; [now apply (assembled_step P dt)|].
    repeat (split; [done|]). rewrite Hm. split; [|done].
    split; [discriminate|]. intros Hx. apply Hun in Hx.
    now apply SafetyMonitorVerdict.unsafe_not_all_safe in Hx.
Qed.

Lemma initialize_all_eq (cs : list JointController.t) :
  initialize_all cs
  = (true, map (fun c => JointController.set_enabled c true) cs).
Proof.
  induction cs as [|c cs IH]; [reflexivity|]. simpl. now rewrite IH.
Qed.

Lemma initialize_eq (r : t) :
  initialize r
  = (true, set_joint_controllers r
             (map (fun c => JointController.set_enabled c true)
                (joint_controllers_ r))).
Proof. unfold initialize. now rewrite initialize_all_eq. Qed.

Lemma assembled_initialize (r : t) :
  assembled r -> assembled (initialize r).2.
Proof.
  intros (Hn & H). rewrite initialize_eq. unfold assembled. simpl.
  split; [|exact H]. rewrite <- Hn. rewrite map_map. reflexivity.
Qed.

Lemma assembled_set_is_running (r : t) (b : bool) :
  assembled r -> assembled (set_is_running r b).
Proof. intros H. exact H. Qed.

Lemma loop_outcome (P : Platform) (seconds : Z -> float) (dt : float)
    (fuel : nat) (l : run_state) (w : World) :
  assembled (robot l) ->
  is_running_ (robot l) = true ->
  match (loop P seconds fuel dt l w).1 with
  | Returned l' =>
      emergency (robot l') = true
      /\ assembled (robot l')
      /\ is_running_ (robot l') = true
      /\ control_frequency_ (robot l') = control_frequency_ (robot l)
      /\ (emergency (robot l) = true -> l' = l)
      /\ (emergency (robot l) = false ->
          Exists (fun c => JointController.isSafe c = false)
            (joint_controllers_ (robot l'))
          /\ exists pre last,
               printed l' = printed l ++ pre ++ last
               /\ Forall all_clear pre /\ (length last <= 2)%nat)
  | Undefined => False
  | Running => emergency (robot l) = false
  end.
Proof.
  revert l w. induction fuel as [|fuel IH]; intros l w Ha Hr.
  - unfold loop, emergency. rewrite Hr.
    unfold SafetyMonitor.isEmergencyStopActive.
    destruct (SafetyMonitor.emergency_stop_active_ _) eqn:Hm; simpl; [|done].
    split_and!; done.
  - cbn [loop]. unfold emergency in *. rewrite Hr.
    unfold SafetyMonitor.isEmergencyStopActive in *.
    destruct (SafetyMonitor.emergency_stop_active_
                (safety_monitor_ (robot l))) eqn:Hm; simpl.
    { split_and!; done. }
    rewrite bind_eq.
    destruct (iteration_verdict P seconds dt l w Ha Hm)
      as (l1 & out & He & Ha1 & Hr1 & Hf1 & _ & Hv & Hp & Hlen & Ho).
    rewrite He. rewrite Hr in Hr1.
    specialize (IH l1 (iteration P seconds dt l w).2 Ha1 Hr1).
    destruct (loop P seconds fuel dt l1 (iteration P seconds dt l w).2).1
      as [l2| |]; [|done|].
    + destruct IH as (I1 & I2 & I3 & I4 & I5 & I6).
      split_and!; [done|done|done|congruence|discriminate|]. intros _.
      destruct (SafetyMonitor.emergency_stop_active_
                  (safety_monitor_ (robot l1))) eqn:Hm1.
      * rewrite (I5 eq_refl). split; [now apply Hv|].
        exists [], out. rewrite Hp. split; [reflexivity|].
        split; [constructor|exact Hlen].
      * destruct (I6 eq_refl) as (Hx & pre & last & Hp2 & Hpre & Hlast).
        split; [exact Hx|]. exists (out ++ pre), last.
        rewrite Hp2, Hp, <- !app_assoc. split; [reflexivity|].
        split; [|exact Hlast]. apply Forall_app. split; [|exact Hpre].
        eapply Forall_impl; [exact Ho|]. intros [? ? ? ? b|?] Hb; simpl;
          [|done].
        now rewrite Hb.
    + reflexivity.
Qed.

Lemma new_assembled (P : Platform) (frequency : float) (w : World) :
  assembled (new P frequency w).1.
Proof.
  destruct (new_eq P frequency w)
    as (cs & ss & imus & -> & Hn & _ & Hs & Cs & Hi & Ci).
  unfold assembled. simpl. split; [exact Hn|].
  split; [now rewrite <- (length_map JointSensor.getName), Hs|].
  split; [now rewrite <- (length_map ImuSensor.getName), Hi|].
  repeat (split; [done|]). done.
Qed.

(** X12.  The constructor builds the six joint controllers, named after the
    joints, six joint sensors and two IMU sensors, and registers every one
    of them with the safety monitor, whose pointers are all live.  The
    emergency stop is not active, the robot is not running, no controller
    is enabled, the balance estimate is 0, and a first [checkSafety]
    answers [true]. *)
Theorem new_registers_everything (P : Platform) (frequency : float)
    (w : World) :
  let r := (new P frequency w).1 in
  map JointController.getName (joint_controllers_ r) = joint_names
  /\ map JointSensor.getName (joint_sensors_ r)
     = map (fun name => name +:+ "_pos_sensor") joint_names
  /\ map ImuSensor.getName (imu_sensors_ r) = ["torso_imu"; "head_imu"]
  /\ live (safety_monitor_ r) (store r)
  /\ SafetyMonitor.controllers_ (safety_monitor_ r) = seq 0 6
  /\ SafetyMonitor.joint_sensors_ (safety_monitor_ r) = seq 0 6
  /\ SafetyMonitor.imu_sensors_ (safety_monitor_ r) = seq 0 2
  /\ emergency r = false
  /\ is_running_ r = false
  /\ Forall (fun c => JointController.isEnabled c = false)
       (joint_controllers_ r)
  /\ SensorFusion.getBalanceEstimate (sensor_fusion_ r) = 0
  /\ SafetyMonitor.checkSafety (safety_monitor_ r) (store r)
     = Some (true, safety_monitor_ r).
Proof.
  intros r. pose proof (assembled_live r (new_assembled P frequency w)) as Hl.
  assert (Hck : SafetyMonitor.checkSafety (safety_monitor_ r) (store r)
                = Some (true, safety_monitor_ r))
    by (vm_compute; reflexivity).
  destruct (new_eq P frequency w)
    as (cs & ss & imus & E & Hn & He & Hs & Cs & Hi & Ci).
  fold r in E. clearbody r. subst r. split_and!; done.
Qed.

(** X13.  [initialize] answers [true] and enables every joint controller;
    names, joint states, sensors, the safety monitor and the running flag
    are left as they are. *)
Theorem initialize_enables_all (r : t) :
  (initialize r).1 = true
  /\ Forall (fun c => JointController.isEnabled c = true)
       (joint_controllers_ (initialize r).2)
  /\ map JointController.getName (joint_controllers_ (initialize r).2)
     = map JointController.getName (joint_controllers_ r)
  /\ map JointController.getState (joint_controllers_ (initialize r).2)
     = map JointController.getState (joint_controllers_ r)
  /\ joint_sensors_ (initialize r).2 = joint_sensors_ r
  /\ imu_sensors_ (initialize r).2 = imu_sensors_ r
  /\ safety_monitor_ (initialize r).2 = safety_monitor_ r
  /\ is_running_ (initialize r).2 = is_running_ r.
Proof.
  rewrite initialize_eq. simpl. split; [reflexivity|].
  split; [|rewrite !map_map; split_and!; reflexivity].
  apply Forall_map. now apply Forall_true.
Qed.

(** X14.  On a robot shaped as the constructor shapes it and whose
    emergency stop is not active, [run] never uses an object that is not
    there.  When it returns, the emergency stop is active, the robot is
    still marked as running and some joint controller is not safe; every
    report printed before the last cycle announces no emergency, and the
    last cycle prints at most two reports. *)
Theorem run_returns_on_emergency (P : Platform) (seconds : Z -> float)
    (fuel : nat) (r : t) (w : World) :
  assembled r ->
  emergency r = false ->
  match (run P seconds fuel r w).1 with
  | Returned (r', out) =>
      emergency r' = true
      /\ is_running_ r' = true
      /\ Exists (fun c => JointController.isSafe c = false)
           (joint_controllers_ r')
      /\ exists pre last,
           out = pre ++ last /\ Forall all_clear pre /\ (length last <= 2)%nat
  | Undefined => False
  | Running => True
  end.
Proof.
  intros Ha He. unfold run. rewrite initialize_eq. simpl. rewrite bind_eq.
  set (r0 := set_is_running _ true).
  set (l0 := {| robot := r0; last_time := _; printed := [] |}).
  rewrite bind_eq. simpl.
  pose proof (loop_outcome P seconds (1 / control_frequency_ r0) fuel l0
                (Utils.steady_now P w).2) as H.
  destruct (loop _ _ _ _ _ _).1 as [l'| |]; [|apply H|done].
  - destruct H as (H1 & _ & H3 & _ & _ & H6).
    + apply assembled_set_is_running.
      apply (assembled_initialize r) in Ha. now rewrite initialize_eq in Ha.
    + reflexivity.
    + destruct (H6 He) as (Hx & pre & last & Hp & Hpre & Hlast).
      split_and!; [done..|]. now exists pre, last.
  - apply assembled_set_is_running.
    apply (assembled_initialize r) in Ha. now rewrite initialize_eq in Ha.
  - reflexivity.
Qed.

Lemma run_returns_on_emergency_witness :
  let o := (run jolt nanoseconds 5 (new jolt 200 world0).1 world0).1 in
  (exists r' out, o = Returned (r', out))
  /\ match o with
     | Returned (r', out) =>
         emergency r' = true
         /\ is_running_ r' = true
         /\ Exists (fun c => JointController.isSafe c = false)
              (joint_controllers_ r')
         /\ exists pre last,
              out = pre ++ last /\ Forall all_clear pre
              /\ (length last <= 2)%nat
     | Undefined => False
     | Running => True
     end.
Proof.
  intros o. split.
  - eexists _, _. vm_compute. reflexivity.
  - apply (run_returns_on_emergency jolt nanoseconds 5
             (new jolt 200 world0).1 world0).
    + apply new_assembled.
    + reflexivity.
Defined.

(** ** A robot at rest *)

Lemma addNoise_still (b : Sensor.t) (v : float) (w : World) :
  Sensor.noise_level_ b = 0.001 ->
  (Sensor.addNoise still b v w).1 = v + 0.001 * 0.
Proof.
  intros Hn. unfold Sensor.addNoise. rewrite Hn. reflexivity.
Qed.

Lemma read_still (s : JointSensor.t) (w : World) :
  Sensor.noise_level_ (JointSensor.base s) = 0.001 ->
  position (JointSensor.state_ s) = 0 ->
  velocity (JointSensor.state_ s) = 0 ->
  torque (JointSensor.state_ s) = 0 ->
  temperature (JointSensor.state_ s) = 25 ->
  let s' := (JointSensor.read still s w).1 in
  JointSensor.base s' = JointSensor.base s
  /\ position (JointSensor.state_ s') = 0
  /\ velocity (JointSensor.state_ s') = 0
  /\ torque (JointSensor.state_ s') = 0
  /\ temperature (JointSensor.state_ s') = 25.
Proof.
  intros Hn Hp Hv Hq Ht s'. subst s'.
  split; [apply JointSensorProps.read_base|].
  unfold JointSensor.read. cbv zeta. rewrite Hp, Hv, Hq, Ht.
  rewrite !bind_eq. cbn [fst snd mret M_ret].
  rewrite !addNoise_still by exact Hn.
  cbn [JointSensor.state_ position velocity torque temperature].
  split_and!; reflexivity.
Qed.

Lemma at_rest_safe (c : JointController.t) :
  at_rest c -> JointController.isSafe c = true.
Proof.
  intros (_ & _ & _ & _ & _ & _ & Hv & Ht & Hp & Hm & _ & H1 & H2 & _ & H4).
  unfold JointController.isSafe. cbv zeta.
  rewrite Hv, Ht, Hp, Hm, H1, H2, H4. reflexivity.
Qed.

Lemma at_rest_update (c : JointController.t) (dt : float) (w : World) :
  (0 <? dt) = true -> is_finite dt = true ->
  at_rest c -> at_rest (JointController.update still c dt w).1.
Proof.
  intros Hd Hf Hc.
  destruct (JointController.enabled_ c) eqn:He;
    [|now rewrite (JointControllerProps.update_disabled still c dt w He)].
  destruct Hc as (Ht & Hs & Hl & Hkp & Hki & Hkd & Hmv & Hmt & Hmp & Hmn
                  & Hn & H1 & H2 & H3 & H4).
  destruct (read_still (JointController.position_sensor_ c) w Hn H1 H2 H3 H4)
    as (Hb & R1 & R2 & R3 & R4).
  rewrite (JointControllerProps.update_enabled still c dt w He).
  unfold at_rest, measured, JointController.getState, JointSensor.getState.
  cbn [fst JointController.set_step JointController.target_position_
       JointController.error_sum_ JointController.last_error_
       JointController.kp_ JointController.ki_ JointController.kd_
       JointController.max_velocity_ JointController.max_temperature_
       JointController.max_position_ JointController.min_position_
       JointController.position_sensor_ JointSensor.setState
       JointSensor.base JointSensor.state_
       position velocity torque temperature].
  rewrite Hb, R1, R2, R4, Ht, Hs.
  change (0 - 0) with 0.
  rewrite (Binary64.zero_mul_pos dt Hd Hf).
  split_and!; try assumption; try reflexivity.
  unfold limited_command, interlock_engaged, derating_engaged.
  unfold JointSensor.getState. rewrite R2, R4, Hmv, Hmt.
  change (5 <? double_of_int (abs (int_of_double 0))) with false.
  change (70 * 0.9 <? 25) with false.
  cbv iota.
  apply JointControllerProps.raw_pid_output_at_rest; assumption.
Qed.

Lemma loop_at_rest (seconds : Z -> float) (dt : float) (fuel : nat)
    (l : run_state) (w : World) :
  (0 <? dt) = true -> is_finite dt = true ->
  assembled (robot l) ->
  is_running_ (robot l) = true ->
  emergency (robot l) = false ->
  Forall at_rest (joint_controllers_ (robot l)) ->
  (loop still seconds fuel dt l w).1 = Running.
Proof.
  intros Hd Hf. revert l w.
  induction fuel as [|fuel IH]; intros l w Ha Hr Hm Hc; cbn [loop];
    unfold emergency in Hm; rewrite Hr, Hm; simpl; [reflexivity|].
  rewrite bind_eq.
  destruct (iteration_verdict still seconds dt l w Ha Hm)
    as (l1 & out & He & Ha1 & Hr1 & _ & Fc & Hv & _).
  rewrite He.
  assert (Hc1 : Forall at_rest (joint_controllers_ (robot l1))).
  { clear -Fc Hc Hd Hf. induction Fc as [|c c' cs cs' [w' ->] _ IH'];
      [constructor|].
    inversion Hc; subst. constructor; [now apply at_rest_update|auto]. }
  apply IH; [exact Ha1|congruence| |exact Hc1].
  unfold emergency, SafetyMonitor.isEmergencyStopActive.
  destruct (SafetyMonitor.emergency_stop_active_ _) eqn:Hm1; [|reflexivity].
  exfalso. destruct Hv as [Hv _]. specialize (Hv eq_refl).
  apply Exists_exists in Hv as (c & Hin & Hs).
  rewrite Forall_forall in Hc1. rewrite (at_rest_safe c (Hc1 c Hin)) in Hs.
  discriminate.
Qed.

Lemma new_at_rest (P : Platform) (frequency : float) (w : World) :
  Forall at_rest (joint_controllers_ (new P frequency w).1).
Proof.
  vm_compute. repeat constructor.
Qed.

Lemma at_rest_set_enabled (c : JointController.t) (b : bool) :
  at_rest c -> at_rest (JointController.set_enabled c b).
Proof. intros H. exact H. Qed.

Lemma run_at_rest (seconds : Z -> float) (fuel : nat) (r : t) (w : World) :
  (0 <? 1 / control_frequency_ r) = true ->
  is_finite (1 / control_frequency_ r) = true ->
  assembled r ->
  emergency r = false ->
  Forall at_rest (joint_controllers_ r) ->
  (run still seconds fuel r w).1 = Running.
Proof.
  intros Hd Hf Ha He Hc. unfold run. rewrite initialize_eq. simpl.
  rewrite bind_eq.
  set (r0 := set_is_running _ true).
  set (l0 := {| robot := r0; last_time := _; printed := [] |}).
  rewrite bind_eq. simpl.
  rewrite (loop_at_rest seconds (1 / control_frequency_ r) fuel l0); try done.
  - apply assembled_set_is_running.
    pose proof (assembled_initialize _ Ha) as H.
    now rewrite initialize_eq in H.
  - subst l0 r0. simpl. apply Forall_map.
    eapply Forall_impl; [exact Hc|]. intros c H.
    now apply at_rest_set_enabled.
Qed.

Lemma new_frequency (P : Platform) (frequency : float) (w : World) :
  control_frequency_ (new P frequency w).1 = frequency
  /\ emergency (new P frequency w).1 = false.
Proof.
  now destruct (new_eq P frequency w) as (? & ? & ? & -> & _).
Qed.

(** X15.  On a platform whose signals are flat, with a control frequency
    whose period is positive and finite, the robot built by the constructor
    stays at rest and safe, and [run] never returns: whatever the bound on
    the number of cycles, it is still in its loop. *)
Theorem run_never_returns_at_rest (seconds : Z -> float) (frequency : float)
    (fuel : nat) (w0 w : World) :
  (0 <? 1 / frequency) = true ->
  is_finite (1 / frequency) = true ->
  (run still seconds fuel (new still frequency w0).1 w).1 = Running.
Proof.
  intros Hd Hf. destruct (new_frequency still frequency w0) as [E He].
  apply run_at_rest.
  - now rewrite E.
  - now rewrite E.
  - apply new_assembled.
  - exact He.
  - apply new_at_rest.
Qed.

Lemma run_never_returns_at_rest_witness :
  (run still nanoseconds 1000 (new still 200 world0).1 world0).1 = Running.
Proof.
  apply (run_never_returns_at_rest nanoseconds 200 1000 world0 world0);
    reflexivity.
Defined.

(** ** The balance estimate of a cycle *)

Lemma getJointStates_updateJointState (P : Platform) (f : SensorFusion.t)
    (name : string) (state : JointState) (w : World) :
  SensorFusion.getJointStates
    (SensorFusion.updateJointState P f name state w).1
  = <[name := state]> (SensorFusion.getJointStates f).
Proof.
  rewrite SensorFusionProps.updateJointState_eq. cbn [fst].
  now destruct (find name "hip").
Qed.

Lemma fuse_joints_robot (P : Platform) (cs : list JointController.t)
    (s0 s1 s2 s3 s4 s5 : JointSensor.t) (f : SensorFusion.t) (w : World) :
  map JointController.getName cs = joint_names ->
  exists fj,
    (fuse_joints P cs [s0; s1; s2; s3; s4; s5] (seq 0 6) f w).1 = Some fj
    /\ SensorFusion.getBalanceEstimate fj
       = 0.7 * (0.7 * SensorFusion.getBalanceEstimate f
                + 0.3 * position (JointSensor.getState s0))
         + 0.3 * position (JointSensor.getState s3)
    /\ SensorFusion.getJointStates fj
       = <["right_ankle" := JointSensor.getState s5]>
           (<["right_knee" := JointSensor.getState s4]>
              (<["right_hip" := JointSensor.getState s3]>
                 (<["left_ankle" := JointSensor.getState s2]>
                    (<["left_knee" := JointSensor.getState s1]>
                       (<["left_hip" := JointSensor.getState s0]>
                          (SensorFusion.getJointStates f)))))).
Proof.
  intros Hn.
  destruct cs as [|c0 [|c1 [|c2 [|c3 [|c4 [|c5 [|]]]]]]]; try discriminate Hn.
  injection Hn as N0 N1 N2 N3 N4 N5.
  change (seq 0 6) with [0; 1; 2; 3; 4; 5]%nat.
  do 6 (erewrite fuse_joints_step by reflexivity).
  cbv zeta. rewrite N0, N1, N2, N3, N4, N5.
  eexists. split; [reflexivity|]. split.
  - rewrite (SensorFusionProps.updateJointState_other _ _ "right_ankle")
      by reflexivity.
    rewrite (SensorFusionProps.updateJointState_other _ _ "right_knee")
      by reflexivity.
    rewrite (SensorFusionProps.updateJointState_hip _ _ "right_hip")
      by (now exists 6%nat).
    rewrite (SensorFusionProps.updateJointState_other _ _ "left_ankle")
      by reflexivity.
    rewrite (SensorFusionProps.updateJointState_other _ _ "left_knee")
      by reflexivity.
    rewrite (SensorFusionProps.updateJointState_hip _ _ "left_hip")
      by (now exists 5%nat).
    reflexivity.
  - now rewrite !getJointStates_updateJointState.
Qed.

Lemma fuse_imus_two (P : Platform) (torso head : ImuSensor.t)
    (f : SensorFusion.t) (w : World) :
  SensorFusion.getBalanceEstimate (fuse_imus P [torso; head] f w).1
  = 0.8 * (0.8 * SensorFusion.getBalanceEstimate f
           + 0.2 * roll P (orientation (ImuSensor.getData torso)))
    + 0.2 * roll P (orientation (ImuSensor.getData head))
  /\ SensorFusion.getJointStates (fuse_imus P [torso; head] f w).1
     = SensorFusion.getJointStates f.
Proof.
  cbn [fuse_imus]. rewrite !bind_eq. cbn [mret M_ret fst]. split.
  - now rewrite !SensorFusionProps.updateImuData_estimate.
  - now rewrite !SensorFusionProps.updateImuData_eq.
Qed.

(** X16.  One control cycle feeds the balance estimate [e] the positions of
    the two hip sensors, the left one first, and then the rolls of the two
    IMUs, the torso first; knees and ankles do not count.  It ends at
    [0.8 * (0.8 * j + 0.2 * roll_torso) + 0.2 * roll_head] with
    [j = 0.7 * (0.7 * e + 0.3 * left_hip) + 0.3 * right_hip], and the state
    of the i-th joint sensor is stored under the name of the i-th joint. *)
Theorem cycle_balance_estimate (P : Platform) (seconds : Z -> float)
    (dt : float) (l : run_state) (w : World) :
  assembled (robot l) ->
  exists l' s0 s1 s2 s3 s4 s5 torso head,
    (iteration P seconds dt l w).1 = Some l'
    /\ joint_sensors_ (robot l') = [s0; s1; s2; s3; s4; s5]
    /\ imu_sensors_ (robot l') = [torso; head]
    /\ (let e := SensorFusion.getBalanceEstimate (sensor_fusion_ (robot l)) in
        let joints := 0.7 * (0.7 * e + 0.3 * position (JointSensor.getState s0))
                      + 0.3 * position (JointSensor.getState s3) in
        SensorFusion.getBalanceEstimate (sensor_fusion_ (robot l'))
        = 0.8 * (0.8 * joints
                 + 0.2 * roll P (orientation (ImuSensor.getData torso)))
          + 0.2 * roll P (orientation (ImuSensor.getData head)))
    /\ (forall i name s,
          joint_names !! i = Some name ->
          joint_sensors_ (robot l') !! i = Some s ->
          SensorFusion.getJointStates (sensor_fusion_ (robot l')) !! name
          = Some (JointSensor.getState s)).
Proof.
  intros Ha.
  destruct (iteration_spec P seconds dt l w Ha)
    as (cs & ss & imus & fj & b & m' & lt & out & w' & wj & wi & He & Fc
        & Fs & Fi & Hfj & _).
  cbv zeta in He. rewrite He. cbn [fst].
  destruct (assembled_lengths _ Ha) as (_ & Ls & Li).
  destruct Ha as (Hn & _).
  apply Forall2_length in Fs. rewrite Ls in Fs.
  destruct ss as [|s0 [|s1 [|s2 [|s3 [|s4 [|s5 [|]]]]]]]; try discriminate Fs.
  destruct (fuse_joints_robot P _ s0 s1 s2 s3 s4 s5
              (sensor_fusion_ (robot l)) wj Hn) as (fj' & Hfj' & Hb & Hj).
  rewrite Hfj' in Hfj. injection Hfj as ->.
  apply Forall2_length in Fi. rewrite Li in Fi.
  destruct imus as [|torso [|head [|]]]; try discriminate Fi.
  destruct (fuse_imus_two P torso head fj wi) as [Hi Hk].
  eexists _, s0, s1, s2, s3, s4, s5, torso, head.
  split; [reflexivity|]. cbn [robot joint_sensors_ imu_sensors_ sensor_fusion_].
  split; [reflexivity|]. split; [reflexivity|]. split.
  - cbv zeta. now rewrite Hi, Hb.
  - intros i name s Hname Hs. rewrite Hk, Hj.
    destruct i as [|[|[|[|[|[|i]]]]]]; cbn in Hname, Hs;
      try discriminate Hname;
      injection Hname as <-; injection Hs as <-;
      repeat (rewrite lookup_insert_ne by discriminate);
      apply lookup_insert_eq.
Qed.

Lemma cycle_balance_estimate_witness :
  let l := {| robot := (new rolled 200 world0).1; last_time := 0;
              printed := [] |} in
  exists l',
    (iteration rolled nanoseconds 0.005 l world0).1 = Some l'
    /\ SensorFusion.getBalanceEstimate (sensor_fusion_ (robot l'))
       = 0.8 * (0.8 * 0 + 0.2 * 0.1) + 0.2 * 0.1.
Proof.
  intros l.
  destruct (cycle_balance_estimate rolled nanoseconds 0.005 l world0)
    as (l' & s0 & s1 & s2 & s3 & s4 & s5 & torso & head & He & Hs & _ & Hb & _).
  - apply new_assembled.
  - exists l'. split; [exact He|]. cbv zeta in Hb. rewrite Hb.
    assert (E : Some l' = Some l') by reflexivity.
    rewrite <- He in E at 1. vm_compute in E. injection E as <-.
    vm_compute in Hs. injection Hs as <- <- <- <- <- <-.
    reflexivity.
Defined.

(** ** Running again, and stopping *)

Lemma loop_stopped (P : Platform) (seconds : Z -> float) (fuel : nat)
    (dt : float) (l : run_state) (w : World) :
  emergency (robot l) = true ->
  loop P seconds fuel dt l w = (Returned l, w).
Proof.
  intros He. unfold emergency in He.
  destruct fuel; cbn [loop]; rewrite He, andb_false_r; reflexivity.
Qed.

(** X17.  Once the emergency stop is active, [run] returns at once: the
    controllers are initialized, the robot is marked as running, and no
    control cycle is made and nothing is reported. *)
Theorem run_again_after_emergency (P : Platform) (seconds : Z -> float)
    (fuel : nat) (r : t) (w : World) :
  emergency r = true ->
  (run P seconds fuel r w).1
  = Returned (set_is_running (initialize r).2 true, []).
Proof.
  intros He. unfold run. rewrite initialize_eq. cbn [negb fst snd].
  rewrite bind_eq, bind_eq. rewrite loop_stopped by exact He. reflexivity.
Qed.

Lemma run_again_after_emergency_witness :
  match (run jolt nanoseconds 5 (new jolt 200 world0).1 world0).1 with
  | Returned (r, _) =>
      emergency r = true
      /\ (run jolt nanoseconds 5 r world0).1
         = Returned (set_is_running (initialize r).2 true, [])
  | Undefined | Running => False
  end.
Proof.
  destruct (run jolt nanoseconds 5 (new jolt 200 world0).1 world0).1
    as [[r out]| |] eqn:E; [|vm_compute in E; discriminate E..].
  assert (He : emergency r = true)
    by (vm_compute in E; injection E as <- _; reflexivity).
  split; [exact He|].
  apply (run_again_after_emergency jolt nanoseconds 5 r world0 He).
Defined.

(** X18.  [stop] clears the running flag, and [run] sets it again before it
    tests it: [stop] called before [run] changes nothing of what [run]
    does. *)
Theorem stop_before_run_is_ignored (P : Platform) (seconds : Z -> float)
    (fuel : nat) (r : t) (w : World) :
  is_running_ (stop r) = false
  /\ run P seconds fuel (stop r) w = run P seconds fuel r w.
Proof.
  split; [reflexivity|]. unfold run. rewrite !initialize_eq. reflexivity.
Qed.

(** ** The program *)

Lemma run_defined (P : Platform) (seconds : Z -> float) (fuel : nat)
    (r : t) (w : World) :
  assembled r -> (run P seconds fuel r w).1 <> Undefined.
Proof.
  intros Ha. unfold run. rewrite initialize_eq. cbn [negb fst snd].
  rewrite bind_eq, bind_eq. cbn [fst mret M_ret].
  set (l0 := {| robot := _; last_time := _; printed := [] |}).
  set (dt := (1 / _)%float).
  pose proof (loop_outcome P seconds dt fuel l0 (Utils.steady_now P w).2) as H.
  destruct (loop _ _ _ _ _ _).1 as [l'| |]; [discriminate| |discriminate].
  exfalso. apply H; [|reflexivity].
  subst l0. cbn [robot]. apply assembled_set_is_running.
  pose proof (assembled_initialize _ Ha) as Ha'.
  now rewrite initialize_eq in Ha'.
Qed.

(** X19.  [main] never uses an object that is not there and, when it
    returns, returns 0; on a platform whose signals are flat it never
    returns. *)
Theorem main_outcome (seconds : Z -> float) (fuel : nat) (w : World) :
  (forall P : Platform,
     match (main P seconds fuel w).1 with
     | Returned code => code = 0%Z
     | Undefined => False
     | Running => True
     end)
  /\ (main still seconds fuel w).1 = Running.
Proof.
  split.
  - intros P. unfold main. rewrite bind_eq, bind_eq.
    pose proof (run_defined P seconds fuel (new P 200 w).1 (new P 200 w).2
                  (new_assembled P 200 w)) as H.
    destruct (run P seconds fuel (new P 200 w).1 (new P 200 w).2).1;
      [reflexivity|now apply H|exact I].
  - unfold main. rewrite bind_eq, bind_eq.
    destruct (new_frequency still 200 w) as [E He].
    rewrite run_at_rest; [reflexivity|now rewrite E|now rewrite E| | |].
    + apply new_assembled.
    + exact He.
    + apply new_at_rest.
Qed.

End HumanoidControllerProps.

(** ** The noise of a sensor *)

Module SensorNoise.
Import Rounding Bounds.
#[local] Open Scope R_scope.

(** X20.  On a platform whose [sin] stays between -1 and 1, with a noise
    level that is a finite number between -1 and 1 and a finite value of
    magnitude at most 98, [addNoise] gives a finite value that differs from
    the value it is given by at most the noise level, up to [10^-12] of
    rounding; with a noise level that is not positive it gives the value
    back and leaves the noise counter as it is. *)
Theorem addNoise_within_noise_level (P : Platform) (b : Sensor.t) (v : float)
    (w : World) :
  signals_bounded P -> noise_bounded b ->
  finite v -> Rabs (B2R v) <= 98 ->
  let r := Sensor.addNoise P b v w in
  finite r.1
  /\ Rabs (B2R r.1 - B2R v) <= Rabs (B2R (Sensor.noise_level_ b)) + 1 / 10 ^ 12
  /\ ((Sensor.noise_level_ b <=? 0)%float = true -> r = (v, w)).
Proof.
  intros HP [Fn Hn] Fv Hv r. subst r. unfold Sensor.addNoise.
  destruct (Sensor.noise_level_ b <=? 0)%float; simpl.
  { split; [exact Fv|]. split; [|reflexivity].
    replace (B2R v - B2R v) with 0 by lra. rewrite Rabs_R0.
    pose proof (Rabs_pos (B2R (Sensor.noise_level_ b))). lra. }
  set (c := wrap_int (noise_counter w + 1)).
  destruct (double_of_int_model c) as [Fc Hc].
  destruct const_0_1 as [F1 H1].
  assert (Ft : finite (double_of_int c * 0.1)%float).
  { apply (mul_finite _ _ 2 Fc F1 Hc). apply Rabs_le. lra. }
  destruct (HP _ Ft) as [Fs Hs]. pose proof u_small as Hu.
  set (t := (double_of_int c * 0.1)%float) in *.
  set (n := Sensor.noise_level_ b) in *.
  apply Rabs_le_inv in Hv.
  assert (Hprod : Rabs (B2R n * B2R (sin P t)) <= Rabs (B2R n)).
  { rewrite Rabs_mult. rewrite <- (Rmult_1_r (Rabs (B2R n))) at 2.
    apply Rmult_le_compat_l; [apply Rabs_pos|]. apply Rabs_le. lra. }
  assert (Hn1 : Rabs (B2R n) <= 1) by (apply Rabs_le; lra).
  assert (Hp1 : - 1 <= B2R n * B2R (sin P t) <= 1)
    by (apply Rabs_le_inv; lra).
  destruct (mul_bound n (sin P t) 1 Fn Fs) as [Fm Hm]; [lra|lra|].
  destruct (add_bound v (n * sin P t)%float 99.01 Fv Fm) as [Fa Ha];
    [lra|lra|].
  split; [exact Fa|]. split; [|discriminate].
  apply Rabs_le_inv in Hprod. apply Rabs_le. lra.
Qed.

Lemma addNoise_within_noise_level_witness :
  let b := Sensor.new "left_hip_pos" 0.001 in
  let r := Sensor.addNoise still b 25 world0 in
  finite r.1
  /\ Rabs (B2R r.1 - B2R 25) <= Rabs (B2R 0.001%float) + 1 / 10 ^ 12.
Proof.
  intros b r.
  destruct (addNoise_within_noise_level still b 25 world0) as (H1 & H2 & _).
  - apply ImuSensorProps.still_signals_bounded.
  - split; [reflexivity|]. destruct ImuSensorProps.const_0_001 as [_ H].
    simpl. lra.
  - reflexivity.
  - assert (E : finite 25%float /\ 25 <= B2R 25 <= 25)
      by (const_bounds 25%float).
    apply Rabs_le. lra.
  - split; [exact H1 | exact H2].
Defined.

End SensorNoise.

(** ** Before and after [initialize] *)

Module JointControllerLifecycle.
Import JointController.

Lemma read_clock_queries (P : Platform) (s : JointSensor.t) (w : World) :
  clock_queries (JointSensor.read P s w).2 = (clock_queries w + 4)%nat.
Proof.
  unfold JointSensor.read. cbv zeta.
  unfold mbind, M_bind, Utils.get_time, Utils.steady_now, Sensor.addNoise.
  destruct (Sensor.noise_level_ (JointSensor.base s) <=? 0); simpl; lia.
Qed.

(** X22.  A controller is built disabled: until [initialize] is called,
    [update] returns it as it is and reads neither its sensor nor a clock.
    [initialize] answers [true], enables the controller and changes nothing
    when called again; from then on [update] reads the position sensor,
    four clock readings in all, and leaves the controller enabled. *)
Theorem update_needs_initialize (P : Platform) (name : string) (dt : float)
    (w w' : World) :
  let c := (new P name w).1 in
  let c1 := (initialize c).2 in
  isEnabled c = false
  /\ update P c dt w' = (c, w')
  /\ (initialize c).1 = true
  /\ isEnabled c1 = true
  /\ initialize c1 = (true, c1)
  /\ clock_queries (update P c1 dt w').2 = (clock_queries w' + 4)%nat
  /\ isEnabled (update P c1 dt w').1 = true.
Proof.
  intros c c1.
  assert (He : enabled_ c = false) by reflexivity.
  assert (He1 : enabled_ c1 = true) by reflexivity.
  split; [exact He|].
  split; [now apply JointControllerProps.update_disabled|].
  split; [reflexivity|]. split; [exact He1|]. split; [reflexivity|].
  rewrite (JointControllerProps.update_enabled P c1 dt w' He1).
  split; [apply read_clock_queries|]. simpl. exact He1.
Qed.

End JointControllerLifecycle.

(** ** The joint and the commands *)

Module OpenLoop.
Import JointController.

Lemma addNoise_world (P : Platform) (b : Sensor.t) (v v' : float) (w : World) :
  (Sensor.addNoise P b v w).2 = (Sensor.addNoise P b v' w).2.
Proof.
  unfold Sensor.addNoise. now destruct (Sensor.noise_level_ b <=? 0).
Qed.

(** The position and the velocity [read] arrives at depend on the position
    and the velocity it starts from, not on the torque or the
    temperature. *)
Lemma read_position_velocity (P : Platform) (s s' : JointSensor.t)
    (w : World) :
  JointSensor.base s = JointSensor.base s' ->
  position (JointSensor.state_ s) = position (JointSensor.state_ s') ->
  velocity (JointSensor.state_ s) = velocity (JointSensor.state_ s') ->
  let r := JointSensor.read P s w in
  let r' := JointSensor.read P s' w in
  JointSensor.base r.1 = JointSensor.base r'.1
  /\ position (JointSensor.state_ r.1) = position (JointSensor.state_ r'.1)
  /\ velocity (JointSensor.state_ r.1) = velocity (JointSensor.state_ r'.1)
  /\ r.2 = r'.2.
Proof.
  intros Hb Hp Hv r r'. subst r r'. unfold JointSensor.read. cbv zeta.
  rewrite Hb, Hp, Hv. unfold mbind, M_bind.
  destruct (Utils.get_time P w) as [t1 w1].
  destruct (Sensor.addNoise P (JointSensor.base s') _ w1) as [p1 w2].
  destruct (Utils.get_time P w2) as [t2 w3].
  destruct (Sensor.addNoise P (JointSensor.base s') _ w3) as [v1 w4].
  destruct (Utils.get_time P w4) as [t3 w5].
  pose proof (addNoise_world P (JointSensor.base s')
                (torque (JointSensor.state_ s) + 0.05 * sin P (t3 * 2))
                (torque (JointSensor.state_ s') + 0.05 * sin P (t3 * 2)) w5)
    as H3.
  destruct (Sensor.addNoise P (JointSensor.base s')
              (torque (JointSensor.state_ s) + _) w5) as [q w6].
  destruct (Sensor.addNoise P (JointSensor.base s')
              (torque (JointSensor.state_ s') + _) w5) as [q' w6'].
  simpl in H3. subst w6'.
  pose proof (addNoise_world P (JointSensor.base s')
                (temperature (JointSensor.state_ s)
                 + 0.0001 * double_of_int (abs (int_of_double q)))
                (temperature (JointSensor.state_ s')
                 + 0.0001 * double_of_int (abs (int_of_double q'))) w6)
    as H4.
  destruct (Sensor.addNoise P (JointSensor.base s')
              (temperature (JointSensor.state_ s) + _) w6) as [T w7].
  destruct (Sensor.addNoise P (JointSensor.base s')
              (temperature (JointSensor.state_ s') + _) w6) as [T' w7'].
  simpl in H4. subst w7'.
  destruct (Utils.steady_now P w7) as [now w8]. simpl.
  split_and!; reflexivity.
Qed.

(** X23.  The loop is open.  Two enabled controllers whose position sensors
    have the same name, noise level and connection and hold the same
    position and velocity measure the same position and velocity in their
    next control step, made in the same world, and leave the same world,
    whatever their targets, gains, accumulated errors, actuators, recorded
    torques and temperatures and the lengths of their steps; and they are
    then again two such controllers. *)
Theorem commands_do_not_move_the_joint (P : Platform) (c c' : t)
    (dt dt' : float) (w : World) :
  enabled_ c = true -> enabled_ c' = true ->
  JointSensor.base (position_sensor_ c) = JointSensor.base (position_sensor_ c') ->
  position (getState c) = position (getState c') ->
  velocity (getState c) = velocity (getState c') ->
  let r := update P c dt w in
  let r' := update P c' dt' w in
  enabled_ r.1 = true /\ enabled_ r'.1 = true
  /\ JointSensor.base (position_sensor_ r.1)
     = JointSensor.base (position_sensor_ r'.1)
  /\ position (getState r.1) = position (getState r'.1)
  /\ velocity (getState r.1) = velocity (getState r'.1)
  /\ r.2 = r'.2.
Proof.
  intros He He' Hb Hp Hv r r'. subst r r'.
  destruct (read_position_velocity P (position_sensor_ c)
              (position_sensor_ c') w Hb Hp Hv) as (Rb & Rp & Rv & Rw).
  rewrite (JointControllerProps.update_enabled P c dt w He).
  rewrite (JointControllerProps.update_enabled P c' dt' w He').
  unfold measured, getState, JointSensor.getState. simpl.
  split_and!; assumption.
Qed.

Lemma commands_do_not_move_the_joint_witness :
  let c := fresh_controller "left_hip" in
  let r1 := update still c 0.005 world0 in
  let r1' := update still hip_to_one 0.01 world0 in
  let r2 := update still r1.1 0.005 r1.2 in
  let r2' := update still r1'.1 0.01 r1.2 in
  target_position_ hip_to_one = 1
  /\ torque (getState r2.1) = 0
  /\ (100 <? torque (getState r2'.1)) = true
  /\ position (getState r2.1) = position (getState r2'.1)
  /\ velocity (getState r2.1) = velocity (getState r2'.1).
Proof.
  intros c r1 r1' r2 r2'. split; [reflexivity|]. split; [reflexivity|].
  split; [reflexivity|].
  destruct (commands_do_not_move_the_joint still c hip_to_one 0.005 0.01 world0)
    as (E & E' & B & Hp & Hv & _); [reflexivity..|].
  destruct (commands_do_not_move_the_joint still r1.1 r1'.1 0.005 0.01 r1.2
              E E' B Hp Hv) as (_ & _ & _ & Hp2 & Hv2 & _).
  split; [exact Hp2 | exact Hv2].
Defined.

End OpenLoop.

(** ** What [abs] makes of a [double] *)

Module Truncation.
Import Rounding.
#[local] Open Scope Z_scope.

Lemma scaled_lt (m1 m2 d1 a q : Z) :
  0 < m1 < 2 ^ d1 -> d1 <= 53 -> 2 ^ 52 <= m2 -> 0 < a -> 2 <= q ->
  m1 * a < m2 * (a * q).
Proof.
  intros [H0 U1] D1 L2 A Q.
  assert (P1 : 2 ^ d1 <= 2 ^ 53) by (apply Z.pow_le_mono_r; lia).
  assert (H : 2 ^ 53 = 2 * 2 ^ 52) by reflexivity. rewrite H in P1.
  assert (T : 0 < 2 ^ 52) by reflexivity.
  remember (2 ^ 52) as t. remember (2 ^ d1) as b. clear Heqt Heqb H.
  apply Z.lt_le_trans with (2 * t * a).
  - apply Z.mul_lt_mono_pos_r; lia.
  - replace (2 * t * a) with (t * (a * 2)) by ring.
    apply Z.mul_le_mono_nonneg; try lia.
    apply Z.mul_le_mono_nonneg_l; lia.
Qed.

(** Two valid positive values compare as the integers they are multiples
    of [2^-1074] of. *)
Lemma SFcompare_valid (m1 m2 : positive) (e1 e2 : Z) :
  valid_binary (S754_finite false m1 e1) = true ->
  valid_binary (S754_finite false m2 e2) = true ->
  SFcompare (S754_finite false m1 e1) (S754_finite false m2 e2)
  = Some (Z.pos m1 * 2 ^ (e1 + 1074) ?= Z.pos m2 * 2 ^ (e2 + 1074)).
Proof.
  intros V1 V2.
  destruct (valid_finite _ _ _ V1) as [E1 _].
  destruct (valid_finite _ _ _ V2) as [E2 _].
  rewrite fexp64_eq in E1, E2.
  pose proof (Zdigits2_bounds (Z.pos m1) ltac:(lia)) as [L1 U1].
  pose proof (Zdigits2_bounds (Z.pos m2) ltac:(lia)) as [L2 U2].
  remember (Zdigits2 (Z.pos m1)) as d1 eqn:Hd1.
  remember (Zdigits2 (Z.pos m2)) as d2 eqn:Hd2. clear Hd1 Hd2.
  simpl. f_equal. symmetry.
  destruct (Z.compare_spec e1 e2) as [->|Hlt|Hgt].
  - change (Pos.compare_cont Eq m1 m2) with (Z.pos m1 ?= Z.pos m2).
    symmetry. apply Zmult_compare_compat_r.
    apply Z.lt_gt, Z.pow_pos_nonneg; lia.
  - apply Z.compare_lt_iff.
    assert (H53 : d2 = 53) by lia. rewrite H53 in L2.
    replace (e2 + 1074) with ((e1 + 1074) + (e2 - e1)) by lia.
    rewrite (Z.pow_add_r 2 (e1 + 1074) (e2 - e1)) by lia.
    apply (scaled_lt _ _ d1); try lia;
      first [ exact L2 | apply Z.pow_pos_nonneg; lia
            | change 2 with (2 ^ 1) at 1; apply Z.pow_le_mono_r; lia ].
  - apply Z.compare_gt_iff.
    assert (H53 : d1 = 53) by lia. rewrite H53 in L1.
    replace (e1 + 1074) with ((e2 + 1074) + (e1 - e2)) by lia.
    rewrite (Z.pow_add_r 2 (e2 + 1074) (e1 - e2)) by lia.
    apply (scaled_lt _ _ d2); try lia;
      first [ exact L1 | apply Z.pow_pos_nonneg; lia
            | change 2 with (2 ^ 1) at 1; apply Z.pow_le_mono_r; lia ].
Qed.

(** An [int] that is positive is converted exactly. *)
Lemma double_of_int_exact (k : Z) :
  0 < k < 2 ^ 53 ->
  exists m e,
    Prim2SF (double_of_int k) = S754_finite false m e
    /\ valid_binary (S754_finite false m e) = true
    /\ Z.pos m * 2 ^ (e + 1074) = k * 2 ^ 1074.
Proof.
  intros Hk. destruct k as [|p|p]; try lia. unfold double_of_int.
  pose proof (Prim2SF_valid (of_uint63 (Uint63.of_Z (Z.pos p)))) as V.
  rewrite FloatAxioms.of_uint63_spec in *.
  assert (Hp : Uint63.to_Z (Uint63.of_Z (Z.pos p)) = Z.pos p).
  { rewrite Uint63.of_Z_spec. apply Z.mod_small.
    change wB with (2 ^ 63). assert (2 ^ 53 < 2 ^ 63) by reflexivity. lia. }
  rewrite Hp in *. unfold binary_normalize, binary_round in *.
  change (Z.pos (digits2_pos p)) with (Zdigits2 (Z.pos p)) in *.
  pose proof (Zdigits2_bounds (Z.pos p) ltac:(lia)) as [Lp Up].
  pose proof (Zdigits2_pos (Z.pos p) ltac:(lia)) as Dp.
  assert (Dle : Zdigits2 (Z.pos p) <= 53)
    by (apply Zdigits2_le; lia).
  set (d := Zdigits2 (Z.pos p)) in *.
  assert (Ht : fexp prec emax (d + 0) = d - 53).
  { change (fexp prec emax) with fexp64. rewrite fexp64_eq. lia. }
  rewrite Ht in *.
  destruct (shl_align_spec p 0 (d - 53) ltac:(lia)) as [Hm He].
  destruct (shl_align p 0 (d - 53)) as [mz ez]. simpl in Hm, He. subst ez.
  assert (Hd : Zdigits2 (Z.pos mz) = 53).
  { rewrite Hm, Zdigits2_shift by lia. fold d. lia. }
  destruct (binary_round_aux_spec false (Z.pos mz) (d - 53) loc_Exact)
    as (m2 & m3 & e3 & _ & Hex & H23 & He3 & H3 & Hr); [lia|].
  cbv zeta in Hex, H23, He3. rewrite Hd in Hex, H23, He3.
  rewrite fexp64_eq in Hex, H23, He3.
  replace (Z.max (d - 53) (Z.max (53 + (d - 53) - 53) (-1074)))
    with (d - 53) in * by lia.
  specialize (Hex eq_refl eq_refl). subst m2.
  rewrite Hr in *. clear Hr.
  assert (P3 : 0 < 2 ^ (e3 - (d - 53))) by (apply Z.pow_pos_nonneg; lia).
  destruct m3 as [|p3|p3]; try lia. simpl in V |- *.
  replace (e3 <=? 971) with true in * by (symmetry; apply Z.leb_le; lia).
  exists p3, e3. split; [reflexivity|]. split; [exact V|].
  replace (e3 + 1074) with ((e3 - (d - 53)) + (d - 53 + 1074)) by lia.
  rewrite Z.pow_add_r by lia. rewrite Z.mul_assoc, <- H23, Hm.
  replace (0 - (d - 53)) with (53 - d) by lia.
  rewrite <- Z.mul_assoc, <- Z.pow_add_r by lia. do 2 f_equal. lia.
Qed.

(** The whole part of a valid positive value: an integer is below it when
    it is below the value. *)
Lemma whole_part_spec (m : positive) (e k : Z) :
  valid_binary (S754_finite false m e) = true ->
  k <= Z.shiftl (Z.pos m) e
  <-> k * 2 ^ 1074 <= Z.pos m * 2 ^ (e + 1074).
Proof.
  intros V. destruct (valid_finite _ _ _ V) as [E _].
  rewrite fexp64_eq in E. assert (He : -1074 <= e) by lia. clear E.
  assert (P : 0 < 2 ^ (e + 1074)) by (apply Z.pow_pos_nonneg; lia).
  destruct (Z_le_gt_dec 0 e) as [H0|H0].
  - rewrite Z.shiftl_mul_pow2 by lia.
    rewrite (Z.add_comm e), Z.pow_add_r, Z.mul_assoc by lia.
    rewrite (Z.mul_comm (Z.pos m) (2 ^ 1074)), <- Z.mul_assoc.
    rewrite (Z.mul_comm k). 
    assert (P' : 0 < 2 ^ 1074) by (apply Z.pow_pos_nonneg; lia).
    split; intros H; [apply Z.mul_le_mono_nonneg_l; lia|].
    apply Z.mul_le_mono_pos_l in H; lia.
  - rewrite Z.shiftl_div_pow2 by lia.
    assert (Pn : 0 < 2 ^ (- e)) by (apply Z.pow_pos_nonneg; lia).
    replace 1074 with ((- e) + (e + 1074)) at 1 by lia.
    rewrite Z.pow_add_r, Z.mul_assoc by lia.
    split; intros H.
    + apply Z.mul_le_mono_nonneg_r; [lia|].
      pose proof (Z.mul_div_le (Z.pos m) (2 ^ (- e)) Pn).
      rewrite (Z.mul_comm k). 
      apply Z.le_trans with (2 ^ (- e) * (Z.pos m / 2 ^ (- e))); [|lia].
      apply Z.mul_le_mono_nonneg_l; lia.
    + apply Z.mul_le_mono_pos_r in H; [|lia].
      apply Z.div_le_lower_bound; lia.
Qed.

Lemma compare_double_of_int (k : Z) (m : positive) (e : Z) :
  0 <= k < 2 ^ 53 ->
  valid_binary (S754_finite false m e) = true ->
  SFcompare (Prim2SF (double_of_int k)) (S754_finite false m e)
  = Some (k * 2 ^ 1074 ?= Z.pos m * 2 ^ (e + 1074)).
Proof.
  intros Hk V. destruct (Z.eq_dec k 0) as [->|Hk0].
  - change (Prim2SF (double_of_int 0)) with (S754_zero false).
    change (SFcompare (S754_zero false) (S754_finite false m e))
      with (Some Lt).
    f_equal. symmetry. apply Z.compare_lt_iff.
    destruct (valid_finite _ _ _ V) as [E _]. rewrite fexp64_eq in E.
    assert (0 < 2 ^ (e + 1074)) by (apply Z.pow_pos_nonneg; lia). lia.
  - destruct (double_of_int_exact k) as (mk & ek & Ek & Vk & Hv); [lia|].
    now rewrite Ek, (SFcompare_valid _ _ _ _ Vk V), Hv.
Qed.

(** The numbers: zero and the finite values. *)
Lemma in_int_range_cases (x : float) :
  in_int_range x = true ->
  (exists s, Prim2SF x = S754_zero s)
  \/ (exists s m e, Prim2SF x = S754_finite s m e
                    /\ valid_binary (S754_finite false m e) = true).
Proof.
  unfold in_int_range. pose proof (Prim2SF_valid x) as V.
  destruct (Prim2SF x) as [s|s| |s m e]; try discriminate; intros _.
  - left. now exists s.
  - right. now exists s, m, e.
Qed.

(** On a [double] in the range of [int], [abs] gives the whole part. *)
Lemma abs_whole_part (x : float) :
  in_int_range x = true ->
  abs (int_of_double x) = whole_part x /\ 0 <= whole_part x < 2 ^ 31.
Proof.
  intros H. destruct (Conversion.abs_int_of_double x H) as (Hb & Ha & _).
  rewrite Ha in *. split; [|unfold whole_part, in_int_range in *].
  - clear Hb. unfold whole_part, int_of_double, in_int_range, INT_MIN in *.
    destruct (Prim2SF x) as [s|s| |s m e]; try discriminate; [reflexivity|].
    apply Z.ltb_lt in H.
    assert (H0 : 0 <= Z.shiftl (Z.pos m) e) by (apply Z.shiftl_nonneg; lia).
    destruct s; cbv zeta.
    + replace ((- 2 ^ 31 <=? - Z.shiftl (Z.pos m) e)
               && (- Z.shiftl (Z.pos m) e <? 2 ^ 31)) with true
        by (symmetry; apply andb_true_iff; split;
            [apply Z.leb_le | apply Z.ltb_lt]; lia).
      lia.
    + replace ((- 2 ^ 31 <=? Z.shiftl (Z.pos m) e)
               && (Z.shiftl (Z.pos m) e <? 2 ^ 31)) with true
        by (symmetry; apply andb_true_iff; split;
            [apply Z.leb_le | apply Z.ltb_lt]; lia).
      lia.
  - destruct (Prim2SF x) as [s|s| |s m e]; try discriminate; [lia|].
    apply Z.ltb_lt in H. split; [apply Z.shiftl_nonneg|]; lia.
Qed.

(** An integer is below the absolute value of a number when it is below
    its whole part, and above it when it is above the whole part. *)
Lemma leb_whole_part (k : Z) (x : float) :
  0 <= k < 2 ^ 53 -> in_int_range x = true ->
  (double_of_int k <=? PrimFloat.abs x)%float = (k <=? whole_part x).
Proof.
  intros Hk Hx. rewrite FloatAxioms.leb_spec, FloatAxioms.abs_spec.
  unfold SFleb, whole_part.
  destruct (in_int_range_cases x Hx) as [[s ->]|(s & m & e & -> & V)]; simpl SFabs.
  - destruct (Z.eq_dec k 0) as [->|Hk0]; [reflexivity|].
    destruct (double_of_int_exact k) as (mk & ek & -> & _); [lia|]. simpl.
    symmetry. apply Z.leb_gt. lia.
  - rewrite (compare_double_of_int k m e Hk V).
    pose proof (whole_part_spec m e k V) as W.
    destruct (Z.compare_spec (k * 2 ^ 1074) (Z.pos m * 2 ^ (e + 1074)));
      symmetry; [apply Z.leb_le | apply Z.leb_le | apply Z.leb_gt]; lia.
Qed.

Lemma ltb_whole_part (k : Z) (x : float) :
  0 <= k < 2 ^ 53 -> in_int_range x = true ->
  (PrimFloat.abs x <? double_of_int k)%float = (whole_part x <? k).
Proof.
  intros Hk Hx. rewrite FloatAxioms.ltb_spec, FloatAxioms.abs_spec.
  unfold SFltb, whole_part.
  rewrite (Binary64.SFcompare_antisym (Prim2SF (double_of_int k))).
  destruct (in_int_range_cases x Hx) as [[s ->]|(s & m & e & -> & V)]; simpl SFabs.
  - destruct (Z.eq_dec k 0) as [->|Hk0]; [reflexivity|].
    destruct (double_of_int_exact k) as (mk & ek & -> & _); [lia|]. simpl.
    symmetry. apply Z.ltb_lt. lia.
  - rewrite (compare_double_of_int k m e Hk V). simpl.
    pose proof (whole_part_spec m e k V) as W.
    destruct (Z.compare_spec (k * 2 ^ 1074) (Z.pos m * 2 ^ (e + 1074)));
      simpl; symmetry; [apply Z.ltb_ge | apply Z.ltb_ge | apply Z.ltb_lt]; lia.
Qed.

(** Two [int]s compare as the [double]s they are converted to. *)
Lemma in_int_range_double_of_int (k : Z) :
  0 <= k < 2 ^ 31 ->
  in_int_range (double_of_int k) = true
  /\ whole_part (double_of_int k) = k
  /\ PrimFloat.abs (double_of_int k) = double_of_int k.
Proof.
  intros Hk. destruct (Z.eq_dec k 0) as [->|Hk0]; [repeat split|].
  assert (H53 : 2 ^ 31 < 2 ^ 53) by reflexivity.
  destruct (double_of_int_exact k) as (m & e & E & V & Hv); [lia|].
  unfold in_int_range, whole_part. rewrite E.
  assert (Hw : Z.shiftl (Z.pos m) e = k).
  { apply Z.le_antisymm.
    - destruct (Z_le_gt_dec (Z.shiftl (Z.pos m) e) k) as [|Hgt]; [assumption|].
      assert (Hs : k + 1 <= Z.shiftl (Z.pos m) e) by lia.
      apply (whole_part_spec m e (k + 1) V) in Hs.
      assert (0 < 2 ^ 1074) by reflexivity. nia.
    - apply (whole_part_spec m e k V). lia. }
  rewrite Hw. split; [apply Z.ltb_lt; lia|]. split; [reflexivity|].
  apply Prim2SF_inj. rewrite FloatAxioms.abs_spec, E. reflexivity.
Qed.

Lemma ltb_double_of_int (j k : Z) :
  0 <= j < 2 ^ 31 -> 0 <= k < 2 ^ 31 ->
  (double_of_int j <? double_of_int k)%float = (j <? k).
Proof.
  intros Hj Hk. assert (H53 : 2 ^ 31 < 2 ^ 53) by reflexivity.
  destruct (in_int_range_double_of_int j Hj) as (R & W & A).
  rewrite <- A at 1. rewrite ltb_whole_part by (assumption || lia).
  now rewrite W.
Qed.

Lemma leb_double_of_int (j k : Z) :
  0 <= j < 2 ^ 31 -> 0 <= k < 2 ^ 31 ->
  (double_of_int j <=? double_of_int k)%float = (j <=? k).
Proof.
  intros Hj Hk. assert (H53 : 2 ^ 31 < 2 ^ 53) by reflexivity.
  destruct (in_int_range_double_of_int k Hk) as (R & W & A).
  rewrite <- A. rewrite leb_whole_part by (assumption || lia).
  now rewrite W.
Qed.

(** What [abs] gives lies below the absolute value. *)
Lemma Prim2SF_INT_MIN :
  Prim2SF (double_of_int INT_MIN) = S754_finite true 4503599627370496 (-21).
Proof. reflexivity. Qed.

Lemma int_of_double_out_of_range (x : float) :
  in_int_range x = false -> abs (int_of_double x) = INT_MIN.
Proof.
  unfold in_int_range, int_of_double.
  destruct (Prim2SF x) as [s|s| |s m e]; try discriminate;
    try (intros _; reflexivity).
  intros H%Z.ltb_ge. cbv zeta.
  destruct s.
  - destruct (Z.eq_dec (Z.shiftl (Z.pos m) e) (2 ^ 31)) as [->|Hn];
      [reflexivity|].
    replace ((INT_MIN <=? - Z.shiftl (Z.pos m) e)
             && (- Z.shiftl (Z.pos m) e <? 2 ^ 31)) with false;
      [reflexivity|].
    symmetry. apply andb_false_iff. left. apply Z.leb_gt. unfold INT_MIN. lia.
  - replace ((INT_MIN <=? Z.shiftl (Z.pos m) e)
             && (Z.shiftl (Z.pos m) e <? 2 ^ 31)) with false;
      [reflexivity|].
    symmetry. apply andb_false_iff. right. apply Z.ltb_ge. lia.
Qed.

Lemma abs_below (x : float) :
  is_nan x = false ->
  (double_of_int (abs (int_of_double x)) <=? PrimFloat.abs x)%float = true.
Proof.
  intros Hn. destruct (in_int_range x) eqn:Hr.
  - destruct (abs_whole_part x Hr) as [-> Hw].
    assert (H53 : 2 ^ 31 < 2 ^ 53) by reflexivity.
    rewrite leb_whole_part by (assumption || lia). apply Z.leb_le. lia.
  - rewrite (int_of_double_out_of_range x Hr).
    rewrite FloatAxioms.leb_spec, FloatAxioms.abs_spec, Prim2SF_INT_MIN.
    apply Binary64.is_nan_spec in Hn.
    now destruct (Prim2SF x) as [s|s| |s m e].
Qed.

End Truncation.

(** ** The limits as [abs] moves them *)

Module InterlockThreshold.
Import JointController.

(** X24.  A velocity that does not exceed the limit in absolute value does
    not engage the interlock: [abs] only discards the fraction, and what
    it gives is not above the absolute value. *)
Theorem interlock_spares_velocities_within_limit (c : t)
    (state : JointState) :
  (PrimFloat.abs (velocity state) <=? max_velocity_ c) = true ->
  velocity_exceeds_limit c state = false
  /\ interlock_engaged c state = false.
Proof.
  intros H. split; [now apply Binary64.leb_not_ltb|].
  apply Binary64.leb_not_ltb.
  apply (FloatOrder.leb_trans _ (PrimFloat.abs (velocity state))); [|exact H].
  apply Truncation.abs_below.
  apply Binary64.leb_is_nan_l in H. apply Binary64.is_nan_spec in H.
  apply Binary64.is_nan_spec. rewrite FloatAxioms.abs_spec in H.
  now destruct (Prim2SF (velocity state)).
Qed.

Lemma interlock_spares_velocities_within_limit_witness :
  let state := {| position := 0; velocity := -4.9; torque := 0;
                  temperature := 65; timestamp := 0 |} in
  interlock_engaged hip_to_one state = false
  /\ limited_command hip_to_one state 0.005 = 550.025.
Proof.
  intros state. split; [|reflexivity].
  now apply (interlock_spares_velocities_within_limit hip_to_one state).
Defined.

(** X25.  With the limit of 5 rad/s the constructor sets, and a velocity on
    which [abs] is defined, the test of the interlock succeeds exactly
    when the absolute value of the velocity is 6 or more: the velocities
    beyond 5 and below 6 do not engage it. *)
Theorem interlock_engages_from_6 (c : t) (state : JointState) :
  max_velocity_ c = 5 ->
  in_int_range (velocity state) = true ->
  interlock_engaged c state = (6 <=? PrimFloat.abs (velocity state)).
Proof.
  intros Hm Hr. unfold interlock_engaged. rewrite Hm.
  destruct (Truncation.abs_whole_part _ Hr) as [-> Hw].
  change 5 with (double_of_int 5). change 6 with (double_of_int 6).
  rewrite Truncation.ltb_double_of_int by (assumption || (split; reflexivity || lia)).
  rewrite Truncation.leb_whole_part by (assumption || (split; reflexivity || lia)).
  destruct (Z.ltb_spec 5 (whole_part (velocity state)));
    symmetry; [apply Z.leb_le | apply Z.leb_gt]; lia.
Qed.

Lemma interlock_engages_from_6_witness :
  interlock_engaged hip_to_one brisk = false
  /\ interlock_engaged hip_to_one fast_and_hot = true.
Proof.
  rewrite !(interlock_engages_from_6 hip_to_one); split; reflexivity.
Defined.

(** X26.  With the limits the constructor sets, and a velocity and a
    position on which [abs] is defined, [isSafe] holds exactly when the
    temperature is below its limit, the velocity below 5 and the position
    below 4 in absolute value: positions between pi and 4 pass. *)
Theorem isSafe_of_constructed_limits (c : t) :
  max_velocity_ c = 5 -> max_position_ c = M_PI ->
  min_position_ c = - M_PI ->
  in_int_range (velocity (getState c)) = true ->
  in_int_range (position (getState c)) = true ->
  isSafe c
  = (temperature (getState c) <? max_temperature_ c)
    && (PrimFloat.abs (velocity (getState c)) <? 5)
    && (PrimFloat.abs (position (getState c)) <? 4).
Proof.
  intros Hv Hp Hm Rv Rp. unfold isSafe. cbv zeta.
  rewrite (JointControllerLimits.lower_limit_never_decides c);
    [|rewrite Hm; reflexivity|exact Rp].
  rewrite andb_true_r, Hv, Hp.
  destruct (Truncation.abs_whole_part _ Rv) as [-> Wv].
  destruct (Truncation.abs_whole_part _ Rp) as [-> Wp].
  change 5 with (double_of_int 5). change 4 with (double_of_int 4).
  rewrite Truncation.ltb_double_of_int by (assumption || (split; reflexivity || lia)).
  rewrite !Truncation.ltb_whole_part by (assumption || (split; reflexivity || lia)).
  do 2 f_equal.
  assert (R : in_int_range M_PI = true) by reflexivity.
  assert (A : PrimFloat.abs M_PI = M_PI) by reflexivity.
  assert (W : whole_part M_PI = 3%Z) by reflexivity.
  rewrite <- A. rewrite Truncation.leb_whole_part by (assumption || lia).
  rewrite W.
  destruct (Z.leb_spec (whole_part (position (getState c))) 3);
    symmetry; [apply Z.ltb_lt | apply Z.ltb_ge]; lia.
Qed.

Lemma isSafe_of_constructed_limits_witness :
  let c := controller_at (fresh_controller "left_hip")
             {| position := -3.5; velocity := 4.5; torque := 0;
                temperature := 25; timestamp := 0 |} in
  (max_position_ c <? PrimFloat.abs (position (getState c))) = true
  /\ isSafe c = true.
Proof.
  intros c. split; [reflexivity|].
  rewrite (isSafe_of_constructed_limits c); reflexivity.
Defined.

End InterlockThreshold.
